(** * Grain-boundary builder: crystal structures and collision removal

  A shallow embedding of [structure.py] and [collision_removal.py].

  Numbers.  The Python code computes with numpy floating-point arrays
  (positions are stored as 32-bit floats).  Here every coordinate is an
  exact rational in canonical form ([Qc]), so that equality of positions
  is Leibniz equality and every definition evaluates.  The only
  irrational operation of the source, [np.linalg.norm], occurs solely in
  comparisons [dist >= min_dist]; these are decided on squares (see
  [norm_ge] and [norm_ge_sqrt]).

  Objects.  A numpy record array of atoms is a [list atom]; a Python
  dict keyed by pairs of element names is a [gmap (string * string) Qc];
  a Python set of integer triples is a [gset (Z * Z * Z)].  Methods of
  [Structure] mutate [self] and may raise: they are state transformers
  returning an [outcome] together with the state of [self] at the
  moment of return or raise. *)

From Stdlib Require Import ZArith QArith Qcanon Reals Qreals Psatz.
From Stdlib Require Import String List Permutation.
From stdpp Require Import gmap strings list sorting.
From Equations Require Import Equations.

Local Open Scope Qc_scope.

(** ** Exact arithmetic *)

Module Num.

Definition of_Z (z : Z) : Qc := Q2Qc (inject_Z z).

(** [frac n d] is the rational n/d. *)
Definition frac (n : Z) (d : positive) : Qc := Q2Qc (n # d).

Definition two : Qc := of_Z 2.
Definition half : Qc := frac 1 2.

Definition leb (x y : Qc) : bool := bool_decide (x ≤ y).
Definition ltb (x y : Qc) : bool := bool_decide (x < y).

End Num.

(** ** Vectors and 3x3 matrices (numpy arrays of shape (3,) and (3,3)) *)

Record V3 : Type := mkV3 { vx : Qc; vy : Qc; vz : Qc }.

(** Rows of a matrix are lattice vectors, as in [Structure.coordinates]. *)
Record M33 : Type := mkM33 { row0 : V3; row1 : V3; row2 : V3 }.

Global Instance V3_eq_dec : EqDecision V3.
Proof. solve_decision. Defined.

Global Instance M33_eq_dec : EqDecision M33.
Proof. solve_decision. Defined.

Module Vec.

Definition zero : V3 := mkV3 0 0 0.

Definition add (u v : V3) : V3 :=
  mkV3 (vx u + vx v) (vy u + vy v) (vz u + vz v).

Definition sub (u v : V3) : V3 :=
  mkV3 (vx u - vx v) (vy u - vy v) (vz u - vz v).

Definition scale (c : Qc) (v : V3) : V3 :=
  mkV3 (c * vx v) (c * vy v) (c * vz v).

(** [a + r] and [a - r] for an array [a] and a scalar [r]. *)
Definition add_scalar (v : V3) (r : Qc) : V3 :=
  mkV3 (vx v + r) (vy v + r) (vz v + r).

Definition sub_scalar (v : V3) (r : Qc) : V3 :=
  mkV3 (vx v - r) (vy v - r) (vz v - r).

(** Square of [np.linalg.norm v]. *)
Definition normsq (v : V3) : Qc :=
  vx v * vx v + vy v * vy v + vz v * vz v.

(** [np.linalg.norm v >= m], decided without the square root: the norm
    is non-negative, so the test holds when [m <= 0], and otherwise it
    is equivalent to [m * m <= normsq v]. *)
Definition norm_ge (v : V3) (m : Qc) : bool :=
  Num.leb m 0 || Num.leb (m * m) (normsq v).

(** [np.all (u < v)] and [np.all (u > v)], elementwise. *)
Definition all_lt (u v : V3) : bool :=
  Num.ltb (vx u) (vx v) && Num.ltb (vy u) (vy v) && Num.ltb (vz u) (vz v).

Definition all_gt (u v : V3) : bool := all_lt v u.

(** [np.dot v m] for a row vector [v]: the combination of the rows of
    [m] with the components of [v] as coefficients. *)
Definition dot (v : V3) (m : M33) : V3 :=
  mkV3 (vx v * vx (row0 m) + vy v * vx (row1 m) + vz v * vx (row2 m))
       (vx v * vy (row0 m) + vy v * vy (row1 m) + vz v * vy (row2 m))
       (vx v * vz (row0 m) + vy v * vz (row1 m) + vz v * vz (row2 m)).

(** An integer array such as [np.array([1, 0, -1])], used as a vector. *)
Definition of_Z3 (k : Z * Z * Z) : V3 :=
  let '(a, b, c) := k in mkV3 (Num.of_Z a) (Num.of_Z b) (Num.of_Z c).

(** Lexicographic comparison of two positions. *)
Definition lex_leb (u v : V3) : bool :=
  if Num.ltb (vx u) (vx v) then true
  else if Num.ltb (vx v) (vx u) then false
  else if Num.ltb (vy u) (vy v) then true
  else if Num.ltb (vy v) (vy u) then false
  else Num.leb (vz u) (vz v).

End Vec.

Module Mat.

Definition identity : M33 :=
  mkM33 (mkV3 1 0 0) (mkV3 0 1 0) (mkV3 0 0 1).

Definition add (a b : M33) : M33 :=
  mkM33 (Vec.add (row0 a) (row0 b)) (Vec.add (row1 a) (row1 b))
        (Vec.add (row2 a) (row2 b)).

Definition scale (c : Qc) (a : M33) : M33 :=
  mkM33 (Vec.scale c (row0 a)) (Vec.scale c (row1 a)) (Vec.scale c (row2 a)).

(** [np.linalg.det]. *)
Definition det (m : M33) : Qc :=
  let '(mkM33 (mkV3 a b c) (mkV3 d e f) (mkV3 g h i)) := m in
  a * (e * i - f * h) - b * (d * i - f * g) + c * (d * h - e * g).

(** The adjugate divided by the determinant. *)
Definition adj_div (m : M33) : M33 :=
  let '(mkM33 (mkV3 a b c) (mkV3 d e f) (mkV3 g h i)) := m in
  let dt := det m in
  mkM33 (mkV3 ((e * i - f * h) / dt) ((c * h - b * i) / dt) ((b * f - c * e) / dt))
        (mkV3 ((f * g - d * i) / dt) ((a * i - c * g) / dt) ((c * d - a * f) / dt))
        (mkV3 ((d * h - e * g) / dt) ((b * g - a * h) / dt) ((a * e - b * d) / dt)).

(** [np.linalg.inv]: [None] stands for the [LinAlgError] numpy raises on
    a singular matrix. *)
Definition inv (m : M33) : option M33 :=
  if decide (det m = 0) then None else Some (adj_div m).

(** A diagonal matrix [c * np.identity(3)]. *)
Definition cube (c : Qc) : M33 := scale c identity.

End Mat.

(** ** Atoms and the minimum-distance table *)

(** One record of the numpy record array with the fields ['position'] and
  ['element']. *)
Record atom : Type := mkAtom { position : V3; element : string }.

Global Instance atom_eq_dec : EqDecision atom.
Proof. solve_decision. Defined.

Definition set_position (p : V3) (a : atom) : atom := mkAtom p (element a).

(** [arr['position'] = f(arr['position'])], row by row. *)
Definition map_position (f : V3 → V3) (arr : list atom) : list atom :=
  (λ a, set_position (f (position a)) a) <$> arr.

(** Boolean-mask indexing [arr[mask]]. *)
Fixpoint mask_index {A} (arr : list A) (mask : list bool) : list A :=
  match arr, mask with
  | a :: arr', b :: mask' =>
      if b then a :: mask_index arr' mask' else mask_index arr' mask'
  | _, _ => []
  end.

(** *** [collision_removal.apart_by_safe_distance] *)

Definition apart_by_safe_distance
    (min_dist_dict : gmap (string * string) Qc) (atom_1 atom_2 : atom) : bool :=
  let dist := Vec.sub (position atom_1) (position atom_2) in
  match min_dist_dict !! (element atom_1, element atom_2) with
  | Some min_dist => Vec.norm_ge dist min_dist
  | None =>
      match min_dist_dict !! (element atom_2, element atom_1) with
      | Some min_dist => Vec.norm_ge dist min_dist
      | None => true
      end
  end.

(** The threshold the two nested [try] blocks end up with, [None] when
  both lookups raise [KeyError]. *)
Definition threshold
    (min_dist_dict : gmap (string * string) Qc) (ele_1 ele_2 : string) : option Qc :=
  match min_dist_dict !! (ele_1, ele_2) with
  | Some min_dist => Some min_dist
  | None => min_dist_dict !! (ele_2, ele_1)
  end.

(** *** [collision_removal.remove_collision_within_region] *)

(** The [while (i < len(reg) - 1)] loop on the local variables [reg] and
    [i].  [None]: the loop has not finished within [fuel] iterations
    ([reg[i]] is always in range under the loop guard). *)
Fixpoint within_loop (fuel : nat) (min_dist_dict : gmap (string * string) Qc)
    (reg : list atom) (i : nat) : option (list atom) :=
  match fuel with
  | O => None
  | S fuel' =>
      if bool_decide (Z.of_nat i < Z.of_nat (length reg) - 1)%Z then
        let prev := take (i + 1) reg in
        match reg !! i with
        | None => None
        | Some atm =>
            let test := drop (i + 1) reg in
            let is_safe :=
              (λ x, apart_by_safe_distance min_dist_dict x atm) <$> test in
            let test := mask_index test is_safe in
            within_loop fuel' min_dist_dict (prev ++ test) (i + 1)
        end
      else Some reg
  end.

(** The loop runs at most [len(reg) - 1] times and then tests its guard
    once more. *)
Definition remove_collision_within_region
    (reg : list atom) (min_dist_dict : gmap (string * string) Qc)
    : option (list atom) :=
  within_loop (S (length reg)) min_dist_dict reg 0.

(** The survivors as the specification words them: scanning from left to
    right, an atom is kept exactly when it is at a safe distance from
    every atom kept so far. *)
Fixpoint greedy_scan (min_dist_dict : gmap (string * string) Qc)
    (kept rest : list atom) : list atom :=
  match rest with
  | [] => kept
  | x :: rest' =>
      if forallb (λ s, apart_by_safe_distance min_dist_dict x s) kept
      then greedy_scan min_dist_dict (kept ++ [x]) rest'
      else greedy_scan min_dist_dict kept rest'
  end.

Definition greedy_filter (min_dist_dict : gmap (string * string) Qc)
    (reg : list atom) : list atom :=
  greedy_scan min_dist_dict [] reg.

(** The same survivors, one eliminating atom at a time: the head stays
    and strikes out the later atoms that are too close to it. *)
Equations? sift (min_dist_dict : gmap (string * string) Qc)
    (reg : list atom) : list atom by wf (length reg) lt :=
  sift min_dist_dict [] := [];
  sift min_dist_dict (atm :: test) :=
    atm :: sift min_dist_dict
             (List.filter (λ x, apart_by_safe_distance min_dist_dict x atm) test).
Proof.
  apply Nat.lt_succ_r, List.filter_length_le.
Qed.

(** Every later atom is at a safe distance from every earlier one. *)
Fixpoint ordered_safe (min_dist_dict : gmap (string * string) Qc)
    (reg : list atom) : Prop :=
  match reg with
  | [] => True
  | a :: rest =>
      Forall (λ x, apart_by_safe_distance min_dist_dict x a = true) rest
      ∧ ordered_safe min_dist_dict rest
  end.

(** *** [collision_removal.remove_collision_between_regions] *)

(** The two local names of the function.  Mask indexing builds a new
    array and [reg_2 = reg_2[is_safe]] rebinds the local name; nothing is
    ever stored into [reg_1]. *)
Record regions : Type := mkRegions { env_reg_1 : list atom; env_reg_2 : list atom }.

(** [for atm in reg_1], with [todo] the atoms of [reg_1] still to visit. *)
Fixpoint between_loop (min_dist_dict : gmap (string * string) Qc)
    (todo : list atom) (env : regions) : regions :=
  match todo with
  | [] => env
  | atm :: todo' =>
      if bool_decide (length (env_reg_2 env) ≤ 0)%nat then env
      else
        let is_safe :=
          (λ x, apart_by_safe_distance min_dist_dict x atm) <$> env_reg_2 env in
        between_loop min_dist_dict todo'
          (mkRegions (env_reg_1 env) (mask_index (env_reg_2 env) is_safe))
  end.

Definition remove_collision_between_regions_env
    (reg_1 reg_2 : list atom) (min_dist_dict : gmap (string * string) Qc)
    : regions :=
  between_loop min_dist_dict reg_1 (mkRegions reg_1 reg_2).

(** The returned array. *)
Definition remove_collision_between_regions
    (reg_1 reg_2 : list atom) (min_dist_dict : gmap (string * string) Qc)
    : list atom :=
  env_reg_2 (remove_collision_between_regions_env reg_1 reg_2 min_dist_dict).

(** ** [structure.Structure] *)

(** The attributes the modelled methods read or write.  [elements] and
    [view_agls] are left out: none of these methods touches them. *)
Record Structure : Type := mkStructure {
  comment : string;
  coordinates : M33;
  direct : list atom;
  cartesian : list atom
}.

Definition set_comment (c : string) (self : Structure) : Structure :=
  mkStructure c (coordinates self) (direct self) (cartesian self).

Definition set_coordinates (m : M33) (self : Structure) : Structure :=
  mkStructure (comment self) m (direct self) (cartesian self).

Definition set_direct (arr : list atom) (self : Structure) : Structure :=
  mkStructure (comment self) (coordinates self) arr (cartesian self).

Definition set_cartesian (arr : list atom) (self : Structure) : Structure :=
  mkStructure (comment self) (coordinates self) (direct self) arr.

(** *** Exceptions and methods *)

Inductive exn : Type :=
| ValueError (msg : string)
| LinAlgError
| IndexError.

Inductive outcome (A : Type) : Type :=
| Return (a : A)
| Raise (e : exn).
Arguments Return {A} a.
Arguments Raise {A} e.

(** A method runs on [self], returns or raises, and leaves [self] in the
    state reached at that moment: an assignment made before a [raise]
    stays made. *)
Definition method (A : Type) : Type := Structure → outcome A * Structure.

Definition ret {A} (a : A) : method A := λ self, (Return a, self).

Definition raise {A} (e : exn) : method A := λ self, (Raise e, self).

Definition bind {A B} (m : method A) (k : A → method B) : method B :=
  λ self,
    match m self with
    | (Return a, self') => k a self'
    | (Raise e, self') => (Raise e, self')
    end.

Definition get : method Structure := λ self, (Return self, self).

Definition modify (f : Structure → Structure) : method unit :=
  λ self, (Return tt, f self).

Global Instance method_ret : MRet method := @ret.
Global Instance method_bind : MBind method := λ A B k m, bind m k.

(** *** Orderings of atom records *)

(** [arr.sort(order='element')] compares the named field first and
    breaks ties with the remaining field, ['position']. *)
Definition element_leb (a b : atom) : bool :=
  match String.compare (element a) (element b) with
  | Lt => true
  | Gt => false
  | Eq => Vec.lex_leb (position a) (position b)
  end.

(** The order of whole records, fields in declaration order: ['position']
    first, then ['element']. *)
Definition record_leb (a b : atom) : bool :=
  if decide (position a = position b)
  then String.leb (element a) (element b)
  else Vec.lex_leb (position a) (position b).

Definition element_order : relation atom := λ a b, Is_true (element_leb a b).
Definition record_order : relation atom := λ a b, Is_true (record_leb a b).

Global Instance element_order_dec : RelDecision element_order.
Proof. intros a b. unfold element_order. apply _. Defined.

Global Instance record_order_dec : RelDecision record_order.
Proof. intros a b. unfold record_order. apply _. Defined.

Definition sort_by_element (arr : list atom) : list atom :=
  merge_sort element_order arr.

(** Drop every record equal to its predecessor. *)
Fixpoint drop_repeats (arr : list atom) : list atom :=
  match arr with
  | [] => []
  | a :: rest =>
      match rest with
      | [] => [a]
      | b :: _ => if decide (a = b) then drop_repeats rest
                  else a :: drop_repeats rest
      end
  end.

(** [np.unique]: the sorted distinct records. *)
Definition np_unique (arr : list atom) : list atom :=
  drop_repeats (merge_sort record_order arr).

(** [arr['position'] = ps]. *)
Definition assign_positions (arr : list atom) (ps : list V3) : list atom :=
  zip_with (λ a p, set_position p a) arr ps.

(** [np.dot(arr['position'], m)]. *)
Definition dot_positions (arr : list atom) (m : M33) : list V3 :=
  (λ a, Vec.dot (position a) m) <$> arr.

(** *** [Structure.reconcile] *)

(** The message of the [ValueError] is written without the quotation
    marks around C and D. *)
Definition reconcile (according_to : string) : method unit :=
  if String.eqb according_to "C" then
    modify (λ self, set_cartesian (sort_by_element (cartesian self)) self);;
    modify (λ self, set_direct (cartesian self) self);;
    self ← get;
    match Mat.inv (coordinates self) with
    | None => raise LinAlgError
    | Some inverse =>
        modify (set_direct
                  (assign_positions (direct self)
                     (dot_positions (cartesian self) inverse)))
    end
  else if String.eqb according_to "D" then
    modify (λ self, set_direct (sort_by_element (direct self)) self);;
    modify (λ self, set_cartesian (direct self) self);;
    modify (λ self,
      set_cartesian
        (assign_positions (cartesian self)
           (dot_positions (cartesian self) (coordinates self))) self)
  else
    raise (ValueError "Argument according_to should either be C or D.").

(** Direct and cartesian records agree atom by atom. *)
Definition reconciled (self : Structure) : Prop :=
  Forall2
    (λ c d, position c = Vec.dot (position d) (coordinates self)
            ∧ element c = element d)
    (cartesian self) (direct self).

(** *** [Structure.grow_to_supercell] *)

(** Modelled from the spec: [geometry.valid_direct_vec] is not among the
    sources; the specification gives it as the membership test of the
    unit cell, true iff every fractional coordinate lies in [0, 1). *)
Definition valid_direct_vec (vec : V3) : bool :=
  Num.leb 0 (vx vec) && Num.ltb (vx vec) 1
  && Num.leb 0 (vy vec) && Num.ltb (vy vec) 1
  && Num.leb 0 (vz vec) && Num.ltb (vz vec) 1.

Definition add_Z3 (p q : Z * Z * Z) : Z * Z * Z :=
  let '(a, b, c) := p in let '(d, e, f) := q in ((a + d)%Z, (b + e)%Z, (c + f)%Z).

Definition initial_supercell_pos : list (Z * Z * Z) :=
  [(0, 0, 0); (1, 0, 0); (0, 1, 0); (0, 0, 1); (-1, 0, 0);
   (0, -1, 0); (0, 0, -1)]%Z.

Definition search_dirs : list (Z * Z * Z) :=
  [(1, 0, 0); (0, 1, 0); (0, 0, 1); (-1, 0, 0); (0, -1, 0);
   (0, 0, -1); (1, 1, 0); (1, -1, 0); (-1, 1, 0); (0, 1, 1);
   (0, 1, -1); (0, -1, 1); (1, 0, 1); (1, 0, -1); (-1, 0, 1);
   (1, 1, 1); (-1, -1, -1); (-1, -1, 1); (-1, 1, -1); (1, -1, -1)]%Z.

(** The local variables of the search loop. *)
Record search : Type := mkSearch {
  supercell_pos : list (Z * Z * Z);
  searched_pos : gset (Z * Z * Z);
  enlarged_struct : list atom
}.

Definition initial_search : search :=
  mkSearch initial_supercell_pos ∅ [].

(** The guard of the [while] loop. *)
Definition search_guard (max_atoms : Z) (st : search) : bool :=
  bool_decide (Z.of_nat (length (enlarged_struct st)) ≤ max_atoms)%Z
  && bool_decide (0 < length (supercell_pos st))%nat.

(** The copies of the source atoms translated by [current_pos] that fall
    inside the target cell, in target-lattice fractional coordinates. *)
Definition shifted_inside (self : Structure) (new_coord_inv : M33)
    (current_pos : Z * Z * Z) : list atom :=
  let shift_vector := Vec.dot (Vec.of_Z3 current_pos) (coordinates self) in
  let shifted := cartesian self in
  let shifted := map_position (λ p, Vec.add p shift_vector) shifted in
  let shifted := assign_positions shifted (dot_positions shifted new_coord_inv) in
  mask_index shifted (valid_direct_vec ∘ position <$> shifted).

(** One pass through the body of the loop, entered with a non-empty
    queue [current_pos :: rest]. *)
Definition search_body (self : Structure) (new_coord_inv : M33)
    (current_pos : Z * Z * Z) (rest : list (Z * Z * Z)) (st : search) : search :=
  if bool_decide (current_pos ∈ searched_pos st) then
    mkSearch rest (searched_pos st) (enlarged_struct st)
  else
    let searched := {[current_pos]} ∪ searched_pos st in
    let shifted := shifted_inside self new_coord_inv current_pos in
    if bool_decide (0 < length shifted)%nat then
      let next_pos := (λ x, add_Z3 x current_pos) <$> search_dirs in
      let next_pos := List.filter (λ p, negb (bool_decide (p ∈ searched))) next_pos in
      mkSearch (rest ++ next_pos) searched (enlarged_struct st ++ shifted)
    else
      mkSearch rest searched (enlarged_struct st).

(** The [while] loop.  [None]: not finished within [fuel] iterations. *)
Fixpoint search_loop (fuel : nat) (self : Structure) (new_coord_inv : M33)
    (max_atoms : Z) (st : search) : option search :=
  match fuel with
  | O => None
  | S fuel' =>
      if search_guard max_atoms st then
        match supercell_pos st with
        | [] => Some st
        | current_pos :: rest =>
            search_loop fuel' self new_coord_inv max_atoms
              (search_body self new_coord_inv current_pos rest st)
        end
      else Some st
  end.

(** The statements after the loop. *)
Definition install_supercell (lattice_vecs : M33) (enlarged : list atom)
    : method unit :=
  modify (set_direct (np_unique enlarged));;
  self ← get;
  if bool_decide (length (direct self) ≤ 0)%nat then
    raise (ValueError "Grown super-cell is empty")
  else
    modify (λ self, set_direct (sort_by_element (direct self)) self);;
    modify (set_coordinates lattice_vecs);;
    reconcile "D".

(** The offset [1e-5] added to the diagonal of the target lattice. *)
Definition diagonal_offset : Qc := Num.frac 1 100000.

(** The whole method; [None] only when the search loop needs more than
    [fuel] iterations. *)
Definition grow_to_supercell (fuel : nat) (lattice_vecs : M33) (max_atoms : Z)
    (self : Structure) : option (outcome unit * Structure) :=
  match Mat.inv (Mat.add lattice_vecs (Mat.scale diagonal_offset Mat.identity)) with
  | None => Some (Raise LinAlgError, self)
  | Some new_coord_inv =>
      match search_loop fuel self new_coord_inv max_atoms initial_search with
      | None => None
      | Some st => Some (install_supercell lattice_vecs (enlarged_struct st) self)
      end
  end.

(** Iterations that always suffice: each of the at most [max_atoms + 1]
    productive passes enqueues at most 20 translations, every pass
    dequeues one, and the guard is tested once more at the end. *)
Definition search_fuel (max_atoms : Z) : nat :=
  S (length initial_supercell_pos
     + length search_dirs * Z.to_nat (max_atoms + 1)).

(** What the queue and the room left under [max_atoms] amount to; every
    pass of the search loop lowers it. *)
Definition search_measure (max_atoms : Z) (st : search) : nat :=
  (length search_dirs
   * Z.to_nat (max_atoms + 1 - Z.of_nat (length (enlarged_struct st)))
   + length (supercell_pos st))%nat.

(** The number of direct records after a call that returned normally. *)
Definition grown_atom_count (r : option (outcome unit * Structure)) : option nat :=
  match r with
  | Some (Return _, self) => Some (length (direct self))
  | _ => None
  end.

(** A search state with the function [f] applied to the atoms found. *)
Definition image (f : atom → atom) (st : search) : search :=
  mkSearch (supercell_pos st) (searched_pos st) (f <$> enlarged_struct st).

(** A structure holding the given direct records together with the
    cartesian records derived from them, the way the constructor fills
    the two fields. *)
Definition make_structure (comment : string) (coordinates : M33)
    (atoms : list atom) : Structure :=
  mkStructure comment coordinates atoms
    (assign_positions atoms (dot_positions atoms coordinates)).

(** *** [Structure.combine_structures] *)

(** The static method receives two object references and mutates both
    objects, so it runs on a store of [Structure] objects; each object
    owns its arrays.  [None]: a reference without an object. *)
Definition update (ref : nat) (f : Structure → Structure)
    (heap : gmap nat Structure) : option (gmap nat Structure) :=
  self ← heap !! ref; Some (<[ref := f self]> heap).

(** [arr['position'][:, 2] /= 2.0] and [arr['position'][:, 2] += 0.5]. *)
Definition halve_z (arr : list atom) : list atom :=
  map_position (λ p, mkV3 (vx p) (vy p) (vz p / Num.two)) arr.

Definition raise_z (arr : list atom) : list atom :=
  map_position (λ p, mkV3 (vx p) (vy p) (vz p + Num.half)) arr.

(** [coordinates[2] *= 2.0]. *)
Definition double_row2 (m : M33) : M33 :=
  mkM33 (row0 m) (row1 m) (Vec.scale Num.two (row2 m)).

Definition combine_structures (struct_1 struct_2 : nat)
    (heap : gmap nat Structure) : option (outcome nat * gmap nat Structure) :=
  heap ← update struct_1 (λ s, set_direct (halve_z (direct s)) s) heap;
  heap ← update struct_2 (λ s, set_direct (halve_z (direct s)) s) heap;
  heap ← update struct_2 (λ s, set_direct (raise_z (direct s)) s) heap;
  s2 ← heap !! struct_2;
  heap ← update struct_1 (λ s, set_direct (direct s ++ direct s2) s) heap;
  heap ← update struct_1
            (λ s, set_coordinates (double_row2 (coordinates s)) s) heap;
  s2 ← heap !! struct_2;
  heap ← update struct_1
            (λ s, set_comment (comment s +:+ "_" +:+ comment s2) s) heap;
  s1 ← heap !! struct_1;
  match reconcile "D" s1 with
  | (Return _, s1') => Some (Return struct_1, <[struct_1 := s1']> heap)
  | (Raise e, s1') => Some (Raise e, <[struct_1 := s1']> heap)
  end.

(** *** [collision_removal.remove_collision_at_corners] *)

(** Modelled from the spec: [geometry.cartesian_product] is not among the
    sources; the specification gives it as every length-k tuple drawn
    from the values, used with k = 3 to enumerate the 8 corner
    indicators of {0,1}^3. *)
Definition cartesian_product3 (values : list Qc) : list V3 :=
  x ← values; y ← values; z ← values; [mkV3 x y z].

Definition shift_position (shift : V3) (a : atom) : atom :=
  set_position (Vec.add (position a) shift) a.

Definition unshift_position (shift : V3) (a : atom) : atom :=
  set_position (Vec.sub (position a) shift) a.

(** The locals of the inner test of one candidate. *)
Record corner_test : Type := mkCornerTest {
  qualify : bool;
  corner_atoms : list atom
}.

(** One pass of [for i in range(len(corner_atoms))]; [inl] carries the
    state after [break]. *)
Definition corner_test_body (coords : M33)
    (min_dist_dict : gmap (string * string) Qc) (dv : V3) (atm : atom)
    (corner_indic : list V3) (i : nat) (st : corner_test)
    : outcome (corner_test + corner_test) :=
  if negb (qualify st) then Return (inl st)
  else
    match corner_indic !! i, corner_atoms st !! i with
    | Some indic, Some _ =>
        let shift := Vec.dot (Vec.sub dv indic) coords in
        let atoms := alter (shift_position shift) i (corner_atoms st) in
        match atoms !! i with
        | Some moved =>
            let q := if negb (apart_by_safe_distance min_dist_dict moved atm)
                     then false else qualify st in
            let atoms := alter (unshift_position shift) i atoms in
            Return (inr (mkCornerTest q atoms))
        | None => Raise IndexError
        end
    | _, _ => Raise IndexError
    end.

Fixpoint corner_test_loop (coords : M33)
    (min_dist_dict : gmap (string * string) Qc) (dv : V3) (atm : atom)
    (corner_indic : list V3) (range : list nat) (st : corner_test)
    : outcome corner_test :=
  match range with
  | [] => Return st
  | i :: range' =>
      match corner_test_body coords min_dist_dict dv atm corner_indic i st with
      | Return (inl st') => Return st'
      | Return (inr st') =>
          corner_test_loop coords min_dist_dict dv atm corner_indic range' st'
      | Raise e => Raise e
      end
  end.

(** The accepted corner atoms and the corner each was accepted at. *)
Record corner_pool : Type := mkCornerPool {
  pool_atoms : list atom;
  pool_indic : list V3
}.

(** [for atm in candidate_atoms]. *)
Fixpoint candidates_loop (coords : M33)
    (min_dist_dict : gmap (string * string) Qc) (dv : V3)
    (candidate_atoms : list atom) (pool : corner_pool) : outcome corner_pool :=
  match candidate_atoms with
  | [] => Return pool
  | atm :: candidate_atoms' =>
      match corner_test_loop coords min_dist_dict dv atm (pool_indic pool)
              (seq 0 (length (pool_atoms pool)))
              (mkCornerTest true (pool_atoms pool)) with
      | Raise e => Raise e
      | Return st =>
          candidates_loop coords min_dist_dict dv candidate_atoms'
            (if qualify st
             then mkCornerPool (corner_atoms st ++ [atm]) (pool_indic pool ++ [dv])
             else mkCornerPool (corner_atoms st) (pool_indic pool))
      end
  end.

(** The mask [idx] of the atoms within [boundary_radius] of corner [dv],
    computed on the direct records. *)
Definition corner_idx (boundary_radius : Qc) (dv : V3) (self : Structure)
    : list bool :=
  (λ a, Vec.all_lt (position a) (Vec.add_scalar dv boundary_radius)
        && Vec.all_gt (position a) (Vec.sub_scalar dv boundary_radius))
  <$> direct self.

(** [for dv in dir_vecs].  A mask whose length differs from the indexed
    array raises [IndexError]. *)
Fixpoint corners_loop (boundary_radius : Qc)
    (min_dist_dict : gmap (string * string) Qc) (dir_vecs : list V3)
    (pool : corner_pool) : method corner_pool :=
  match dir_vecs with
  | [] => mret pool
  | dv :: dir_vecs' =>
      self ← get;
      let idx := corner_idx boundary_radius dv self in
      if negb (bool_decide (length idx = length (cartesian self))) then
        raise IndexError
      else
        let candidate_atoms := mask_index (cartesian self) idx in
        modify (set_cartesian (mask_index (cartesian self) (negb <$> idx)));;
        self ← get;
        match candidates_loop (coordinates self) min_dist_dict dv
                candidate_atoms pool with
        | Raise e => raise e
        | Return pool' =>
            reconcile "C";;
            corners_loop boundary_radius min_dist_dict dir_vecs' pool'
        end
  end.

(** The function returns the number of atoms removed.  Its parameter
    [random_delete] is accepted and never read. *)
Definition remove_collision_at_corners (boundary_radius : Qc)
    (min_dist_dict : gmap (string * string) Qc) (random_delete : bool)
    : method Z :=
  self ← get;
  let orig_atom_count := Z.of_nat (length (cartesian self)) in
  let dir_vecs := cartesian_product3 [0; 1] in
  pool ← corners_loop boundary_radius min_dist_dict dir_vecs
           (mkCornerPool [] []);
  modify (λ self, set_cartesian (cartesian self ++ pool_atoms pool) self);;
  reconcile "C";;
  self ← get;
  let final_atom_count := Z.of_nat (length (cartesian self)) in
  mret (orig_atom_count - final_atom_count)%Z.

(** ** Further notions *)

(** The records [shifted_inside] works on, before the unit-cell test. *)
Definition shifted_all (self : Structure) (new_coord_inv : M33)
    (current_pos : Z * Z * Z) : list atom :=
  map_position
    (λ p, Vec.dot
            (Vec.add p (Vec.dot (Vec.of_Z3 current_pos) (coordinates self)))
            new_coord_inv)
    (cartesian self).

(** [a] is the copy of a source record translated by an integer
    combination of the source lattice vectors, in the coordinates given
    by [m]. *)
Definition periodic_image (self : Structure) (m : M33) (a : atom) : Prop :=
  ∃ (b : atom) (k : Z * Z * Z),
    b ∈ cartesian self
    ∧ element a = element b
    ∧ position a
      = Vec.dot (Vec.add (position b)
                   (Vec.dot (Vec.of_Z3 k) (coordinates self))) m.

(** The fractional z coordinate of a record lies in [lo, hi). *)
Definition z_within (lo hi : Qc) (a : atom) : Prop :=
  lo ≤ vz (position a) ∧ vz (position a) < hi.

(** The fractional position of a cartesian record in the lattice [m]. *)
Definition fractional (m : M33) (c : atom) : V3 :=
  Vec.dot (position c) (Mat.adj_div m).

(** [x] lies strictly within [radius] of [centre]. *)
Definition in_slab (centre radius x : Qc) : Prop :=
  centre - radius < x ∧ x < centre + radius.

(** The fractional position [p] lies strictly within [radius] of the
    corner [dv] along each axis. *)
Definition in_corner (radius : Qc) (dv p : V3) : Prop :=
  in_slab (vx dv) radius (vx p)
  ∧ in_slab (vy dv) radius (vy p)
  ∧ in_slab (vz dv) radius (vz p).

(** Every record of a corner pool, carried by the lattice translation
    that takes its corner to the corner of a later record, is at a safe
    distance from that record. *)
Definition corner_ordered_safe (coords : M33)
    (min_dist_dict : gmap (string * string) Qc)
    (entries : list (atom * V3)) : Prop :=
  ∀ i j s ind s' ind',
    (i < j)%nat →
    entries !! i = Some (s, ind) → entries !! j = Some (s', ind') →
    apart_by_safe_distance min_dist_dict
      (shift_position (Vec.dot (Vec.sub ind' ind) coords) s) s' = true.

(** ** [Structure.transform] *)

(** [np.transpose m] and [np.dot a b] for 3x3 arrays. *)
Definition transpose (m : M33) : M33 :=
  mkM33 (mkV3 (vx (row0 m)) (vx (row1 m)) (vx (row2 m)))
        (mkV3 (vy (row0 m)) (vy (row1 m)) (vy (row2 m)))
        (mkV3 (vz (row0 m)) (vz (row1 m)) (vz (row2 m))).

Definition mat_dot (a b : M33) : M33 :=
  mkM33 (Vec.dot (row0 a) b) (Vec.dot (row1 a) b) (Vec.dot (row2 a) b).

(** A structure with the attribute [view_agls], an array of vectors, one
    per row, which [transform] rewrites along with the lattice. *)
Record viewed : Type := mkViewed {
  structure_of : Structure;
  view_agls : list V3
}.

Definition transform (trans_mat : M33) (self : viewed)
    : outcome unit * viewed :=
  let s :=
    set_coordinates
      (mat_dot (coordinates (structure_of self)) (transpose trans_mat))
      (structure_of self) in
  let agls := (λ v, Vec.dot v (transpose trans_mat)) <$> view_agls self in
  match reconcile "D" s with
  | (Return _, s) => (Return tt, mkViewed s agls)
  | (Raise e, s) => (Raise e, mkViewed s agls)
  end.

(** ** The element lines of a VASP file *)

(** *** [Structure.to_vasp], from the in-place sort to the two lines

    The loop over [self.direct['element']] keeps the element of the
    current run and its length in [prev_element] and [prev_count]; both
    are [None] before the first record and both are set afterwards, so
    they are one optional pair here. *)
Record header : Type := mkHeader {
  element_list : list string;
  element_count : list nat;
  prev : option (string * nat)
}.

Definition header_step (st : header) (ele : string) : header :=
  match prev st with
  | Some (prev_element, prev_count) =>
      if bool_decide (ele ≠ prev_element) then
        mkHeader (element_list st ++ [prev_element])
          (element_count st ++ [prev_count]) (Some (ele, 1%nat))
      else
        mkHeader (element_list st) (element_count st)
          (Some (prev_element, S prev_count))
  | None => mkHeader (element_list st) (element_count st) (Some (ele, 1%nat))
  end.

(** The two lines as lists of tokens, or the [TypeError] that
    [' '.join(element_list)] raises on a list that holds [None]. *)
Inductive header_lines : Type :=
  | HeaderLines (names : list string) (counts : list nat)
  | JoinTypeError.

Definition to_vasp_header (self : Structure) : header_lines * Structure :=
  let self := set_direct (sort_by_element (direct self)) self in
  let st := foldl header_step (mkHeader [] [] None) (element <$> direct self) in
  match prev st with
  | Some (prev_element, prev_count) =>
      (HeaderLines (element_list st ++ [prev_element])
         (element_count st ++ [prev_count]), self)
  | None => (JoinTypeError, self)
  end.

(** *** [Structure.from_vasp], from the two lines to the element column

    [range(count)] is empty for a count that is not positive. *)
Definition expand_elements (element_list : list string)
    (element_count : list Z) : outcome (list string) :=
  if bool_decide (length element_list ≠ length element_count) then
    Raise (ValueError "Element list and count lengths mismatch.")
  else
    Return
      (mjoin (zip_with (λ name count, replicate (Z.to_nat count) name)
                element_list element_count)).

(** ** [config.Configuration.from_gbconf_file], the collision settings *)

(** The two attributes of a [Configuration] that the collision settings
    of the file decide, with their defaults from [__init__]. *)
Record collision_settings : Type := mkCollisionSettings {
  skip_collision_removal : bool;
  min_atom_dist : gmap (string * string) Qc
}.

Definition default_collision_settings : collision_settings :=
  mkCollisionSettings false ∅.

(** [for [atm_1, atm_2, dist] in parsed_json['min_atom_dist']], on
    entries whose distance has been through [float]. *)
Definition min_atom_dist_loop (entries : list (string * string * Qc))
    (table : gmap (string * string) Qc) : gmap (string * string) Qc :=
  foldl (λ t '(atm_1, atm_2, dist), <[(atm_1, atm_2) := dist]> t)
    table entries.

(** The keys read are given as options, [None] for a key that the file
    does not have; [has_gb_settings] tells whether ['gb_settings'] is
    there: without it the function returns before any of them is
    read. *)
Definition parse_collision_settings (has_gb_settings : bool)
    (skip_key : option bool)
    (min_atom_dist_key : option (list (string * string * Qc)))
    : collision_settings :=
  let config_object := default_collision_settings in
  if negb has_gb_settings then config_object
  else
    let config_object :=
      match skip_key with
      | Some b => mkCollisionSettings b (min_atom_dist config_object)
      | None => config_object
      end in
    match min_atom_dist_key with
    | Some entries =>
        let table := min_atom_dist_loop entries (min_atom_dist config_object) in
        if bool_decide (length (map_to_list table).*1 ≤ 0)%nat then
          mkCollisionSettings true table
        else mkCollisionSettings (skip_collision_removal config_object) table
    | None => config_object
    end.

(** ** The boundary passes of [collision_removal] *)

(** [np.dot(arr['position'], dir_vec)] for one record: the inner product
    of a position with a vector. *)
Definition inner (u v : V3) : Qc :=
  vx u * vx v + vy u * vy v + vz u * vz v.

(** [np.logical_or] and [np.logical_not] on masks. *)
Definition logical_or (m1 m2 : list bool) : list bool := zip_with orb m1 m2.

Definition logical_not (m : list bool) : list bool := negb <$> m.

(** [arr[mask]] with the check numpy makes on the length of the mask. *)
Definition checked_mask_index (arr : list atom) (mask : list bool)
    : outcome (list atom) :=
  if bool_decide (length mask = length arr) then Return (mask_index arr mask)
  else Raise IndexError.

Section Passes.

(** [np.random.shuffle] draws on the state of a random generator: it is
    a function of that state and of the array, giving the next state and
    the array in its new order. *)
Context {rng : Type} (shuffle : rng → list atom → rng * list atom).

(** [if random_delete: np.random.shuffle(arr)]. *)
Definition shuffle_if (random_delete : bool) (g : rng) (arr : list atom)
    : rng * list atom :=
  if random_delete then shuffle g arr else (g, arr).

(** The end of every pass: [struct.reconcile(according_to='C')] and the
    count of what is gone. *)
Definition finish_pass (orig_atom_count : Z) (g : rng) (self : Structure)
    : outcome Z * Structure * rng :=
  match reconcile "C" self with
  | (Raise e, self) => (Raise e, self, g)
  | (Return _, self) =>
      let final_atom_count := Z.of_nat (length (cartesian self)) in
      (Return (orig_atom_count - final_atom_count)%Z, self, g)
  end.

(** *** [collision_removal.remove_collision_on_interface]

    [None]: the region filter has run out of fuel (it never does). *)
Definition remove_collision_on_interface (boundary_radius : Qc)
    (min_dist_dict : gmap (string * string) Qc) (random_delete : bool)
    (g : rng) (self : Structure) : option (outcome Z * Structure * rng) :=
  let orig_atom_count := Z.of_nat (length (cartesian self)) in
  let on_iface_idx :=
    (λ a, Num.ltb (vz (position a)) (Num.half + boundary_radius)
          && Num.ltb (Num.half - boundary_radius) (vz (position a)))
    <$> direct self in
  match checked_mask_index (cartesian self) on_iface_idx with
  | Raise e => Some (Raise e, self, g)
  | Return iface_atoms =>
      let '(g, iface_atoms) := shuffle_if random_delete g iface_atoms in
      match checked_mask_index (cartesian self) (logical_not on_iface_idx) with
      | Raise e => Some (Raise e, self, g)
      | Return rest =>
          let self := set_cartesian rest self in
          let self :=
            set_direct (mask_index (direct self) (logical_not on_iface_idx))
              self in
          iface_atoms ← remove_collision_within_region iface_atoms min_dist_dict;
          let self := set_cartesian (cartesian self ++ iface_atoms) self in
          Some (finish_pass orig_atom_count g self)
      end
  end.

(** *** [collision_removal.remove_collision_surface_pair] *)
Definition remove_collision_surface_pair (boundary_radius : Qc)
    (min_dist_dict : gmap (string * string) Qc) (dir_vec : V3)
    (random_delete : bool) (g : rng) (self : Structure)
    : option (outcome Z * Structure * rng) :=
  let orig_atom_count := Z.of_nat (length (cartesian self)) in
  let on_btm_idx :=
    (λ a, Num.ltb (inner (position a) dir_vec) (0 + boundary_radius)
          && Num.ltb (0 - boundary_radius) (inner (position a) dir_vec))
    <$> direct self in
  let on_top_idx :=
    (λ a, Num.ltb (inner (position a) dir_vec) (1 + boundary_radius)
          && Num.ltb (1 - boundary_radius) (inner (position a) dir_vec))
    <$> direct self in
  match checked_mask_index (cartesian self) on_btm_idx with
  | Raise e => Some (Raise e, self, g)
  | Return btm_atoms =>
      let '(g, btm_atoms) := shuffle_if random_delete g btm_atoms in
      match checked_mask_index (cartesian self) on_top_idx with
      | Raise e => Some (Raise e, self, g)
      | Return top_atoms =>
          let '(g, top_atoms) := shuffle_if random_delete g top_atoms in
          match checked_mask_index (cartesian self)
                  (logical_not (logical_or on_btm_idx on_top_idx)) with
          | Raise e => Some (Raise e, self, g)
          | Return rest =>
              let self := set_cartesian rest self in
              let coord := Vec.dot dir_vec (coordinates self) in
              let top_atoms := map_position (λ p, Vec.sub p coord) top_atoms in
              top_atoms ← remove_collision_within_region top_atoms min_dist_dict;
              btm_atoms ← remove_collision_within_region btm_atoms min_dist_dict;
              let btm_atoms :=
                remove_collision_between_regions top_atoms btm_atoms
                  min_dist_dict in
              let top_atoms := map_position (λ p, Vec.add p coord) top_atoms in
              let self := set_cartesian (cartesian self ++ btm_atoms) self in
              let self := set_cartesian (cartesian self ++ top_atoms) self in
              Some (finish_pass orig_atom_count g self)
          end
      end
  end.

(** [for dir_vec in np.identity(3)]: the passes run one after the other,
    and an exception ends the loop. *)
Fixpoint surface_pairs_loop (boundary_radius : Qc)
    (min_dist_dict : gmap (string * string) Qc) (dir_vecs : list V3)
    (random_delete : bool) (g : rng) (self : Structure)
    : option (outcome unit * Structure * rng) :=
  match dir_vecs with
  | [] => Some (Return tt, self, g)
  | dir_vec :: dir_vecs' =>
      r ← remove_collision_surface_pair boundary_radius min_dist_dict dir_vec
             random_delete g self;
      match r with
      | (Raise e, self, g) => Some (Raise e, self, g)
      | (Return _, self, g) =>
          surface_pairs_loop boundary_radius min_dist_dict dir_vecs'
            random_delete g self
      end
  end.

(** *** [collision_removal.remove_collision]

    The corner pass is called without [random_delete], which then takes
    its default, [False]. *)
Definition remove_collision (boundary_radius : Qc)
    (min_dist_dict : gmap (string * string) Qc) (random_delete : bool)
    (g : rng) (self : Structure) : option (outcome Z * Structure * rng) :=
  let orig_atom_count := Z.of_nat (length (cartesian self)) in
  r ← remove_collision_on_interface boundary_radius min_dist_dict
         random_delete g self;
  match r with
  | (Raise e, self, g) => Some (Raise e, self, g)
  | (Return _, self, g) =>
      r ← surface_pairs_loop boundary_radius min_dist_dict
             [row0 Mat.identity; row1 Mat.identity; row2 Mat.identity]
             random_delete g self;
      match r with
      | (Raise e, self, g) => Some (Raise e, self, g)
      | (Return _, self, g) =>
          match remove_collision_at_corners boundary_radius min_dist_dict
                  false self with
          | (Raise e, self) => Some (Raise e, self, g)
          | (Return _, self) =>
              let final_atom_count := Z.of_nat (length (cartesian self)) in
              Some (Return (orig_atom_count - final_atom_count)%Z, self, g)
          end
      end
  end.

End Passes.

(** ** What the passes achieve *)

(** [R] holds of any two records at distinct places of [l]. *)
Definition pairwise {A} (R : A → A → Prop) (l : list A) : Prop :=
  ∀ i j a b, i ≠ j → l !! i = Some a → l !! j = Some b → R a b.

(** Any two atoms of [l] within [radius] of the plane z = 1/2, in the
    fractional coordinates of the lattice [m], are at a safe distance. *)
Definition interface_safe (min_dist_dict : gmap (string * string) Qc)
    (m : M33) (radius : Qc) (l : list atom) : Prop :=
  pairwise
    (λ a b,
       in_slab Num.half radius (vz (fractional m a)) →
       in_slab Num.half radius (vz (fractional m b)) →
       apart_by_safe_distance min_dist_dict a b = true)
    l.

(** Along [dir_vec], any two atoms of [l] in the bottom slab, or in the
    top slab, are at a safe distance, and an atom in the bottom slab is
    at a safe distance from the image, one lattice vector lower, of
    every atom in the top slab. *)
Definition surface_pair_safe (min_dist_dict : gmap (string * string) Qc)
    (m : M33) (radius : Qc) (dir_vec : V3) (l : list atom) : Prop :=
  pairwise
    (λ a b,
       let along c := inner (fractional m c) dir_vec in
       let lowered c :=
         set_position (Vec.sub (position c) (Vec.dot dir_vec m)) c in
       (in_slab 0 radius (along a) → in_slab 0 radius (along b) →
        apart_by_safe_distance min_dist_dict a b = true)
       ∧ (in_slab 1 radius (along a) → in_slab 1 radius (along b) →
          apart_by_safe_distance min_dist_dict a b = true)
       ∧ (in_slab 0 radius (along a) → in_slab 1 radius (along b) →
          apart_by_safe_distance min_dist_dict a (lowered b) = true))
    l.

(** Of any two atoms of [l] that lie in corner cubes, the one carried by
    the lattice translation from its corner to the corner of the other
    is at a safe distance from it. *)
Definition corners_safe (min_dist_dict : gmap (string * string) Qc)
    (m : M33) (radius : Qc) (l : list atom) : Prop :=
  pairwise
    (λ a b,
       ∀ ca cb,
         ca ∈ cartesian_product3 [0; 1] → cb ∈ cartesian_product3 [0; 1] →
         in_corner radius ca (fractional m a) →
         in_corner radius cb (fractional m b) →
         apart_by_safe_distance min_dist_dict
           (shift_position (Vec.dot (Vec.sub cb ca) m) a) b = true)
    l.

(** ** Notions used in the statements, and example data *)

(** A table never lists a pair in both orders with two thresholds. *)
Definition consistent_table (min_dist_dict : gmap (string * string) Qc) : Prop :=
  ∀ ele_1 ele_2 d1 d2,
    min_dist_dict !! (ele_1, ele_2) = Some d1 →
    min_dist_dict !! (ele_2, ele_1) = Some d2 → d1 = d2.

Definition table_AB_BA : gmap (string * string) Qc :=
  <[("A"%string, "B"%string) := Num.of_Z 1]>
    (<[("B"%string, "A"%string) := Num.of_Z 3]> ∅).

Definition atom_A : atom := mkAtom Vec.zero "A".
Definition atom_B : atom := mkAtom (mkV3 Num.two 0 0) "B".

Definition table_AB : gmap (string * string) Qc :=
  <[("A"%string, "B"%string) := Num.of_Z 3]> ∅.

(** A source cell of side 1 holding one atom of element X at the direct
    position [p], and cubic target lattices. *)
Definition one_atom_cell (p : V3) : Structure :=
  make_structure "cell" (Mat.cube 1) [mkAtom p "X"].

Definition centre : V3 := mkV3 Num.half Num.half Num.half.

(** A cell of side 1 with an atom of X at the centre and an atom of Y at
    (3/4, 3/4, 3/4). *)
Definition two_atom_cell : Structure :=
  make_structure "cell" (Mat.cube 1)
    [mkAtom centre "X";
     mkAtom (mkV3 (Num.frac 3 4) (Num.frac 3 4) (Num.frac 3 4)) "Y"].

(** The inverse computed for the cube of side 2: the diagonal matrix of
    1 / (2 + 1e-5). *)
Definition target_inv : M33 := Mat.cube (Num.frac 100000 200001).

(** The position, in the target cell, of the copy of an atom at [p]
    translated by the integer offset [k]. *)
Definition tile_position (p : V3) (k : Z * Z * Z) : V3 :=
  Vec.scale (Num.frac 100000 200001) (Vec.add p (Vec.of_Z3 k)).

Definition tile (p : V3) (k : Z * Z * Z) : atom := mkAtom (tile_position p k) "X".

(** The offsets of the 2 x 2 x 2 tiling, in the order the search finds
    them. *)
Definition unit_offsets : list (Z * Z * Z) :=
  [(0, 0, 0); (1, 0, 0); (0, 1, 0); (0, 0, 1);
   (1, 1, 0); (0, 1, 1); (1, 0, 1); (1, 1, 1)]%Z.

Definition zero_or_one (k : Z) : bool := bool_decide (k = 0 ∨ k = 1)%Z.

Definition unit_offset (k : Z * Z * Z) : bool :=
  let '(a, b, c) := k in zero_or_one a && zero_or_one b && zero_or_one c.

(** Every fractional coordinate of [p] lies in [1e-5, 1). *)
Definition clear_of_faces (p : V3) : Prop :=
  (diagonal_offset ≤ vx p ∧ vx p < 1)
  ∧ (diagonal_offset ≤ vy p ∧ vy p < 1)
  ∧ (diagonal_offset ≤ vz p ∧ vz p < 1).

(** Two atoms of X next to opposite corners of a cube of side 10, and a
    table asking X atoms to stay 2 apart. *)
Definition corner_pair : Structure :=
  make_structure "pair" (Mat.cube (Num.of_Z 10))
    [mkAtom (mkV3 (Num.frac 1 1000) (Num.frac 1 1000) (Num.frac 1 1000)) "X";
     mkAtom (mkV3 (Num.frac 999 1000) (Num.frac 999 1000) (Num.frac 999 1000)) "X"].

Definition table_XX : gmap (string * string) Qc :=
  <[("X"%string, "X"%string) := Num.two]> ∅.

(** A store with two cells, for [combine_structures]. *)
Definition two_cells : gmap nat Structure :=
  <[1%nat := two_atom_cell]> (<[2%nat := one_atom_cell Vec.zero]> ∅).

(** Three atoms of X on a line, at 0, 3/2 and 3. *)
Definition chain : list atom :=
  [mkAtom Vec.zero "X";
   mkAtom (mkV3 (Num.frac 3 2) 0 0) "X";
   mkAtom (mkV3 (Num.of_Z 3) 0 0) "X"].

(** The two-atom cell after growing into the cube of side 2 with
    [max_atoms = 3]. *)
Definition grown_two_atom_cell : Structure :=
  match grow_to_supercell (search_fuel 3) (Mat.cube Num.two) 3 two_atom_cell with
  | Some (_, self) => self
  | None => two_atom_cell
  end.

(** A structure on a flat, singular lattice. *)
Definition flat_cell : Structure :=
  mkStructure "flat"
    (mkM33 (mkV3 1 0 0) (mkV3 0 1 0) (mkV3 1 1 0))
    [mkAtom centre "X"]
    [mkAtom (mkV3 1 1 0) "Y"; mkAtom (mkV3 0 0 0) "X"].

(** Two atoms of X in a cube of side 10, at fractional (0, 0, 0) and
    (0, 0, z). *)
Definition z_pair (z : Qc) : Structure :=
  make_structure "pair" (Mat.cube (Num.of_Z 10))
    [mkAtom Vec.zero "X"; mkAtom (mkV3 0 0 z) "X"].

(** A generator that is never consulted, and one that reverses. *)
Definition no_shuffle (g : unit) (arr : list atom) : unit * list atom := (g, arr).

Definition reversing (g : unit) (arr : list atom) : unit * list atom :=
  (g, rev arr).

(** * Properties *)

(** ** Arithmetic and array lemmas *)

Lemma V3_ext (u v : V3) :
  vx u = vx v → vy u = vy v → vz u = vz v → u = v.
Proof. destruct u, v; simpl; congruence. Qed.

Lemma Q2R_Qc_mult (x y : Qc) : Q2R (x * y)%Qc = (Q2R x * Q2R y)%R.
Proof.
  unfold Qcmult, Q2Qc. cbn [this]. rewrite (Qeq_eqR _ _ (Qred_correct _)).
  apply Q2R_mult.
Qed.

Lemma normsq_nonneg (v : V3) : 0 ≤ Vec.normsq v.
Proof.
  unfold Vec.normsq.
  assert (Hsq : ∀ x : Qc, 0 ≤ x * x).
  { intros x. unfold Qcle, Qcmult, Q2Qc. cbn [this]. rewrite !Qred_correct.
    destruct (Qlt_le_dec (this x) 0) as [Hx | Hx]; nra. }
  pose proof (Hsq (vx v)) as Hx. pose proof (Hsq (vy v)) as Hy.
  pose proof (Hsq (vz v)) as Hz. revert Hx Hy Hz.
  generalize (vx v * vx v) (vy v * vy v) (vz v * vz v).
  intros a b c. unfold Qcle, Qcplus, Q2Qc. cbn [this].
  rewrite !Qred_correct. lra.
Qed.

(** [norm_ge] decides the comparison of the source read over the reals,
    [np.linalg.norm v >= m] with the norm the square root of [normsq]. *)
Lemma norm_ge_sqrt (v : V3) (m : Qc) :
  Vec.norm_ge v m = true ↔ (Q2R m <= sqrt (Q2R (Vec.normsq v)))%R.
Proof.
  unfold Vec.norm_ge, Num.leb. rewrite orb_true_iff, !bool_decide_eq_true.
  pose proof (normsq_nonneg v) as Hn. revert Hn.
  generalize (Vec.normsq v). intros d Hd.
  assert (Hz : Q2R (0 : Qc) = 0%R) by apply RMicromega.Q2R_0.
  assert (HdR : (0 <= Q2R d)%R).
  { apply Qle_Rle in Hd. by rewrite Hz in Hd. }
  split.
  - intros [Hm | Hm].
    + apply Qle_Rle in Hm. rewrite Hz in Hm.
      pose proof (sqrt_pos (Q2R d)). lra.
    + apply Qle_Rle in Hm. rewrite Q2R_Qc_mult in Hm.
      destruct (Rle_lt_dec (Q2R m) 0) as [H0 | H0].
      * pose proof (sqrt_pos (Q2R d)). lra.
      * rewrite <- (sqrt_square (Q2R m)) by lra. by apply sqrt_le_1_alt.
  - intros Hm. destruct (Qlt_le_dec 0 m) as [H0 | H0]; [right|by left].
    apply Rle_Qle. rewrite Q2R_Qc_mult.
    apply Qlt_Rlt in H0. rewrite RMicromega.Q2R_0 in H0.
    rewrite <- (sqrt_sqrt (Q2R d)) by done.
    apply Rmult_le_compat; lra.
Qed.

(** Multiplying by the inverse and then by the matrix gives the vector
    back. *)
Lemma dot_adj_div (m : M33) (p : V3) :
  Mat.det m ≠ 0 → Vec.dot (Vec.dot p (Mat.adj_div m)) m = p.
Proof.
  destruct m as [[a b c] [d e f] [g h i]], p as [x y z].
  unfold Mat.adj_div, Mat.det; simpl; intros Hdet.
  apply V3_ext; simpl; field; exact Hdet.
Qed.

Lemma inv_is_Some (m : M33) : Mat.det m ≠ 0 → Mat.inv m = Some (Mat.adj_div m).
Proof. intros H. unfold Mat.inv. by case_decide. Qed.

Lemma assign_dot_positions (arr : list atom) (m : M33) :
  assign_positions arr (dot_positions arr m)
  = map_position (λ p, Vec.dot p m) arr.
Proof.
  unfold assign_positions, dot_positions, map_position.
  induction arr as [|a arr IH]; csimpl; [done|]. by f_equal.
Qed.

Lemma mask_index_fmap {A} (f : A → bool) (arr : list A) :
  mask_index arr (f <$> arr) = List.filter f arr.
Proof.
  induction arr as [|a arr IH]; csimpl; [done|].
  rewrite IH. by destruct (f a).
Qed.

Lemma map_position_length (f : V3 → V3) (arr : list atom) :
  length (map_position f arr) = length arr.
Proof. unfold map_position. by rewrite length_fmap. Qed.

(** ** Reconciliation *)

Lemma reconcile_D (self : Structure) :
  reconcile "D" self
  = (Return tt,
     mkStructure (comment self) (coordinates self)
       (sort_by_element (direct self))
       (map_position (λ p, Vec.dot p (coordinates self))
          (sort_by_element (direct self)))).
Proof.
  unfold reconcile; simpl. unfold mbind, method_bind, bind, modify; simpl.
  by rewrite assign_dot_positions.
Qed.

Lemma reconcile_C (self : Structure) (inverse : M33) :
  Mat.inv (coordinates self) = Some inverse →
  reconcile "C" self
  = (Return tt,
     mkStructure (comment self) (coordinates self)
       (map_position (λ p, Vec.dot p inverse)
          (sort_by_element (cartesian self)))
       (sort_by_element (cartesian self))).
Proof.
  intros Hinv.
  unfold reconcile; simpl. unfold mbind, method_bind, bind, modify, get; simpl.
  rewrite Hinv. unfold set_direct; simpl. by rewrite assign_dot_positions.
Qed.

Lemma reconciled_map_position (c : string) (m : M33) (arr : list atom) :
  reconciled (mkStructure c m arr (map_position (λ p, Vec.dot p m) arr)).
Proof.
  unfold reconciled, map_position; simpl.
  induction arr as [|a arr IH]; simpl; constructor; auto.
Qed.

(** C1.  After [reconcile], with either source of truth, applied to a
    structure whose lattice basis is invertible, the call returns, the
    lattice is the same, and the structure is reconciled: every cartesian
    record carries the element of the direct record at the same index
    and the position [direct.position · coordinates]. *)
Theorem reconcile_establishes_invariant
    (self : Structure) (according_to : string) :
  Mat.det (coordinates self) ≠ 0 →
  according_to = "C"%string ∨ according_to = "D"%string →
  ∃ self',
    reconcile according_to self = (Return tt, self')
    ∧ coordinates self' = coordinates self
    ∧ Forall2
        (λ c d, position c = Vec.dot (position d) (coordinates self')
                ∧ element c = element d)
        (cartesian self') (direct self').
Proof.
  intros Hdet [-> | ->].
  - eexists. split; [apply reconcile_C, inv_is_Some, Hdet|].
    split; [done|]. cbn [cartesian direct coordinates].
    generalize (sort_by_element (cartesian self)) as arr.
    induction arr as [|a arr IH]; csimpl; constructor; auto.
    cbn [position element set_position]. by rewrite dot_adj_div.
  - eexists. split; [apply reconcile_D|].
    split; [done|]. apply reconciled_map_position.
Qed.

Lemma reconcile_establishes_invariant_witness :
  ∃ self',
    reconcile "C" corner_pair = (Return tt, self')
    ∧ coordinates self' = coordinates corner_pair
    ∧ Forall2
        (λ c d, position c = Vec.dot (position d) (coordinates self')
                ∧ element c = element d)
        (cartesian self') (direct self').
Proof.
  apply (reconcile_establishes_invariant corner_pair "C").
  - apply (bool_decide_unpack _). by vm_compute.
  - by left.
Defined.

(** ** The safety predicate *)


Lemma normsq_sub_comm (u v : V3) :
  Vec.normsq (Vec.sub u v) = Vec.normsq (Vec.sub v u).
Proof. unfold Vec.normsq, Vec.sub; simpl. ring. Qed.

Lemma norm_ge_sub_comm (u v : V3) (m : Qc) :
  Vec.norm_ge (Vec.sub u v) m = Vec.norm_ge (Vec.sub v u) m.
Proof. unfold Vec.norm_ge. by rewrite normsq_sub_comm. Qed.

Lemma apart_threshold (min_dist_dict : gmap (string * string) Qc) (a1 a2 : atom) :
  apart_by_safe_distance min_dist_dict a1 a2
  = match threshold min_dist_dict (element a1) (element a2) with
    | Some min_dist => Vec.norm_ge (Vec.sub (position a1) (position a2)) min_dist
    | None => true
    end.
Proof.
  unfold apart_by_safe_distance, threshold.
  by destruct (min_dist_dict !! (element a1, element a2)).
Qed.

Lemma threshold_comm (min_dist_dict : gmap (string * string) Qc) (e1 e2 : string) :
  consistent_table min_dist_dict →
  threshold min_dist_dict e1 e2 = threshold min_dist_dict e2 e1.
Proof.
  intros Hc. unfold threshold.
  destruct (min_dist_dict !! (e1, e2)) as [d1|] eqn:H1,
           (min_dist_dict !! (e2, e1)) as [d2|] eqn:H2; try done.
  f_equal. by eapply Hc.
Qed.


(** C4, as stated, fails: a table may list a pair in both orders with
    different thresholds; the lookup then depends on the order of the two
    atoms.  With A-B at 1 and B-A at 3, two atoms 2 apart are safe in one
    order and unsafe in the other. *)
Lemma apart_by_safe_distance_order_dependent :
  threshold table_AB_BA "A" "B" ≠ threshold table_AB_BA "B" "A"
  ∧ apart_by_safe_distance table_AB_BA atom_A atom_B = true
  ∧ apart_by_safe_distance table_AB_BA atom_B atom_A = false.
Proof. split; [|split]; by vm_compute. Qed.

(** C4, amended.  For every table that does not list a pair in both
    orders with different thresholds, the lookup and the safety predicate
    do not depend on the order of the two atoms. *)
Theorem apart_by_safe_distance_symmetric
    (min_dist_dict : gmap (string * string) Qc) (a1 a2 : atom) :
  consistent_table min_dist_dict →
  threshold min_dist_dict (element a1) (element a2)
  = threshold min_dist_dict (element a2) (element a1)
  ∧ apart_by_safe_distance min_dist_dict a1 a2
    = apart_by_safe_distance min_dist_dict a2 a1.
Proof.
  intros Hc. split; [by apply threshold_comm|].
  rewrite !apart_threshold, (threshold_comm _ _ _ Hc).
  destruct (threshold _ _ _); [apply norm_ge_sub_comm | done].
Qed.


Lemma table_AB_consistent : consistent_table table_AB.
Proof.
  intros e1 e2 d1 d2. unfold table_AB.
  rewrite !lookup_insert_Some, !lookup_empty.
  intros [[[= <- <-] _] | [_ [=]]] [[[=] _] | [_ [=]]].
Qed.

Lemma apart_by_safe_distance_symmetric_witness :
  threshold table_AB "A" "B" = threshold table_AB "B" "A"
  ∧ apart_by_safe_distance table_AB atom_A atom_B
    = apart_by_safe_distance table_AB atom_B atom_A.
Proof.
  exact (apart_by_safe_distance_symmetric table_AB atom_A atom_B
           table_AB_consistent).
Defined.

(** ** Collision removal within and between regions *)

Lemma filter_true {A} (l : list A) : List.filter (λ _, true) l = l.
Proof. induction l as [|a l IH]; simpl; [done|]. by rewrite IH. Qed.

Lemma filter_filter_andb {A} (p q : A → bool) (l : list A) :
  List.filter p (List.filter q l) = List.filter (λ x, q x && p x) l.
Proof.
  induction l as [|a l IH]; simpl; [done|].
  destruct (q a); simpl; [destruct (p a)|]; by rewrite IH.
Qed.

Lemma filter_sublist {A} (p : A → bool) (l : list A) :
  List.filter p l `sublist_of` l.
Proof.
  induction l as [|a l IH]; simpl; [constructor|].
  destruct (p a); by constructor.
Qed.

Lemma filter_id {A} (p : A → bool) (l : list A) :
  Forall (λ x, p x = true) l → List.filter p l = l.
Proof.
  induction 1 as [|a l Ha _ IH]; simpl; [done|]. by rewrite Ha, IH.
Qed.

Section Regions.

Variable min_dist_dict : gmap (string * string) Qc.

Local Abbreviation apart := (apart_by_safe_distance min_dist_dict).
Local Abbreviation safe_from kept := (λ x, forallb (λ s, apart x s) kept).

(** The loop, started at index [length pre] on [pre ++ rest], leaves
    [pre] alone and sifts [rest]. *)
Lemma within_loop_sift (fuel : nat) (pre rest : list atom) :
  (length rest < fuel)%nat →
  within_loop fuel min_dist_dict (pre ++ rest) (length pre)
  = Some (pre ++ sift min_dist_dict rest).
Proof.
  revert pre rest. induction fuel as [|fuel IH]; intros pre rest Hfuel; [lia|].
  cbn [within_loop]. rewrite length_app.
  destruct rest as [|x [|y test]].
  - rewrite bool_decide_eq_false_2 by (simpl; lia). by simp sift.
  - rewrite bool_decide_eq_false_2 by (simpl; lia). by simp sift.
  - rewrite bool_decide_eq_true_2 by (simpl; lia).
    rewrite list_lookup_middle by done.
    replace (length pre + 1)%nat with (length (pre ++ [x])) by (rewrite length_app; simpl; lia).
    replace (pre ++ x :: y :: test) with ((pre ++ [x]) ++ y :: test)
      by (by rewrite <- (assoc_L (++))).
    rewrite take_app_length, !drop_app_length, mask_index_fmap.
    rewrite IH.
    + rewrite <- (assoc_L (++)). simpl. by simp sift.
    + pose proof (List.filter_length_le (λ x0, apart x0 x) (y :: test)).
      simpl in *. lia.
Qed.

Lemma remove_collision_within_region_sift (reg : list atom) :
  remove_collision_within_region reg min_dist_dict
  = Some (sift min_dist_dict reg).
Proof.
  unfold remove_collision_within_region.
  apply (within_loop_sift (S (length reg)) [] reg). lia.
Qed.

Lemma greedy_scan_sift (kept rest : list atom) :
  greedy_scan min_dist_dict kept rest
  = kept ++ sift min_dist_dict (List.filter (safe_from kept) rest).
Proof.
  revert kept. induction rest as [|x rest IH]; intros kept; simpl.
  - simp sift. by rewrite app_nil_r.
  - destruct (forallb _ kept) eqn:Hx.
    + rewrite IH. simp sift. rewrite <- (assoc_L (++)); simpl.
      do 2 f_equal. rewrite filter_filter_andb. f_equal.
      apply List.filter_ext. intros y.
      rewrite forallb_app; simpl. by rewrite andb_true_r.
    + apply IH.
Qed.

Lemma greedy_filter_sift (reg : list atom) :
  greedy_filter min_dist_dict reg = sift min_dist_dict reg.
Proof.
  unfold greedy_filter. rewrite greedy_scan_sift; simpl. by rewrite filter_true.
Qed.

Lemma greedy_scan_app (kept l1 l2 : list atom) :
  greedy_scan min_dist_dict kept (l1 ++ l2)
  = greedy_scan min_dist_dict (greedy_scan min_dist_dict kept l1) l2.
Proof.
  revert kept. induction l1 as [|x l1 IH]; intros kept; simpl; [done|].
  destruct (forallb _ kept); apply IH.
Qed.

Lemma greedy_scan_prefix (kept rest : list atom) :
  kept `prefix_of` greedy_scan min_dist_dict kept rest.
Proof.
  revert kept. induction rest as [|x rest IH]; intros kept; simpl; [done|].
  destruct (forallb _ kept); [|apply IH].
  etrans; [|apply IH]. by apply prefix_app_r.
Qed.

Lemma sift_sublist (reg : list atom) : sift min_dist_dict reg `sublist_of` reg.
Proof.
  funelim (sift min_dist_dict reg); simp sift; [done|].
  constructor. etrans; [eassumption|]. apply filter_sublist.
Qed.

Lemma sift_ordered_safe (reg : list atom) :
  ordered_safe min_dist_dict (sift min_dist_dict reg).
Proof.
  funelim (sift min_dist_dict reg); simp sift; simpl; [done|].
  split; [|assumption].
  apply Forall_forall. intros x Hx.
  eapply elem_of_sublist in Hx; [|apply sift_sublist].
  apply list_elem_of_In, List.filter_In in Hx. exact (proj2 Hx).
Qed.

Lemma sift_fixed (reg : list atom) :
  ordered_safe min_dist_dict reg → sift min_dist_dict reg = reg.
Proof.
  induction reg as [|a reg IH]; simp sift; [done|]. intros [Ha Hreg].
  rewrite (filter_id _ _ Ha). f_equal. by apply IH.
Qed.

(** C6.  The function returns, and what it returns is the greedy
    left-to-right filter: an atom appended to a region survives exactly
    when it is at a safe distance from every survivor of the region
    before it; atoms that follow never change which earlier atoms
    survive; in the result every atom is at a safe distance from every
    atom before it; and the first atom of a region is the first atom of
    the result. *)
Theorem remove_collision_within_region_greedy (reg : list atom) :
  remove_collision_within_region reg min_dist_dict
  = Some (greedy_filter min_dist_dict reg)
  ∧ (∀ x, greedy_filter min_dist_dict (reg ++ [x])
          = greedy_filter min_dist_dict reg
            ++ (if safe_from (greedy_filter min_dist_dict reg) x
                then [x] else []))
  ∧ (∀ later, greedy_filter min_dist_dict reg
              `prefix_of` greedy_filter min_dist_dict (reg ++ later))
  ∧ greedy_filter min_dist_dict reg `sublist_of` reg
  ∧ ordered_safe min_dist_dict (greedy_filter min_dist_dict reg)
  ∧ head (greedy_filter min_dist_dict reg) = head reg.
Proof.
  split; [|split; [|split; [|split; [|split]]]].
  - rewrite greedy_filter_sift. apply remove_collision_within_region_sift.
  - intros x. unfold greedy_filter. rewrite greedy_scan_app; simpl.
    destruct (forallb _ _); [done|]. by rewrite app_nil_r.
  - intros later. unfold greedy_filter. rewrite greedy_scan_app.
    apply greedy_scan_prefix.
  - rewrite greedy_filter_sift. apply sift_sublist.
  - rewrite greedy_filter_sift. apply sift_ordered_safe.
  - rewrite greedy_filter_sift. destruct reg; by simp sift.
Qed.

(** C7.  Running the function on its own output returns that output
    unchanged. *)
Theorem remove_collision_within_region_idempotent (reg : list atom) :
  ∃ out,
    remove_collision_within_region reg min_dist_dict = Some out
    ∧ remove_collision_within_region out min_dist_dict = Some out.
Proof.
  exists (sift min_dist_dict reg).
  rewrite !remove_collision_within_region_sift. split; [done|].
  f_equal. apply sift_fixed, sift_ordered_safe.
Qed.

Lemma between_loop_filter (todo fixed pruned : list atom) :
  between_loop min_dist_dict todo (mkRegions fixed pruned)
  = mkRegions fixed (List.filter (safe_from todo) pruned).
Proof.
  revert pruned. induction todo as [|atm todo IH]; intros pruned; simpl.
  - by rewrite filter_true.
  - case_bool_decide as Hlen.
    + destruct pruned; simpl in *; [done|lia].
    + rewrite mask_index_fmap, IH, filter_filter_andb. done.
Qed.

(** C8.  The function returns the atoms of the second sequence that are
    at a safe distance from every atom of the first, in their order; the
    result is a subsequence of the second sequence, no longer than it;
    and the first sequence is the same at the end as at the start. *)
Theorem remove_collision_between_regions_filter (reg_1 reg_2 : list atom) :
  remove_collision_between_regions reg_1 reg_2 min_dist_dict
  = List.filter (safe_from reg_1) reg_2
  ∧ remove_collision_between_regions reg_1 reg_2 min_dist_dict
    `sublist_of` reg_2
  ∧ (length (remove_collision_between_regions reg_1 reg_2 min_dist_dict)
     ≤ length reg_2)%nat
  ∧ env_reg_1 (remove_collision_between_regions_env reg_1 reg_2 min_dist_dict)
    = reg_1.
Proof.
  unfold remove_collision_between_regions, remove_collision_between_regions_env.
  rewrite between_loop_filter; simpl.
  split; [done|]. split; [apply filter_sublist|].
  split; [apply List.filter_length_le|done].
Qed.

End Regions.

(** With X atoms to be kept 2 apart, the first atom of the chain strikes
    out the second, and the second, gone, no longer strikes out the
    third. *)
Example chain_keeps_first_and_third :
  remove_collision_within_region chain table_XX
  = Some [mkAtom Vec.zero "X"; mkAtom (mkV3 (Num.of_Z 3) 0 0) "X"].
Proof. by vm_compute. Qed.

(** ** Supercell growth *)

Section Search.

Variables (self : Structure) (new_coord_inv : M33) (max_atoms : Z).

Lemma search_guard_false (st : search) :
  search_guard max_atoms st = false
  ↔ supercell_pos st = []
    ∨ (max_atoms < Z.of_nat (length (enlarged_struct st)))%Z.
Proof.
  unfold search_guard. rewrite andb_false_iff, !bool_decide_eq_false.
  destruct (supercell_pos st); simpl; split; intros [?|?]; auto; try lia; done.
Qed.

Lemma search_body_measure (current_pos : Z * Z * Z) (rest : list (Z * Z * Z))
    (st : search) :
  supercell_pos st = current_pos :: rest →
  search_guard max_atoms st = true →
  (search_measure max_atoms
     (search_body self new_coord_inv current_pos rest st)
   < search_measure max_atoms st)%nat.
Proof.
  intros Hq Hg. unfold search_guard in Hg.
  apply andb_true_iff in Hg as [Hlen _]. apply bool_decide_eq_true in Hlen.
  unfold search_measure, search_body. rewrite Hq.
  change (length search_dirs) with 20%nat.
  case_bool_decide; [cbn [supercell_pos enlarged_struct length]; lia|].
  case_bool_decide as Hsh; cbn [supercell_pos enlarged_struct length]; [|lia].
  rewrite !length_app.
  match goal with |- context [List.filter ?f ?l] =>
    pose proof (List.filter_length_le f l) as Hf end.
  rewrite length_fmap in Hf. change (length search_dirs) with 20%nat in Hf.
  lia.
Qed.

Lemma search_loop_finishes (fuel : nat) (st : search) :
  (search_measure max_atoms st < fuel)%nat →
  ∃ st', search_loop fuel self new_coord_inv max_atoms st = Some st'
         ∧ search_guard max_atoms st' = false.
Proof.
  revert st. induction fuel as [|fuel IH]; intros st Hm; [lia|].
  simpl. destruct (search_guard max_atoms st) eqn:Hg; [|by exists st].
  destruct (supercell_pos st) as [|current_pos rest] eqn:Hq.
  - unfold search_guard in Hg. rewrite Hq in Hg. simpl in Hg.
    by rewrite andb_false_r in Hg.
  - apply IH. pose proof (search_body_measure _ _ _ Hq Hg). lia.
Qed.

Lemma search_loop_more_fuel (fuel extra : nat) (st st' : search) :
  search_loop fuel self new_coord_inv max_atoms st = Some st' →
  search_loop (fuel + extra) self new_coord_inv max_atoms st = Some st'.
Proof.
  revert st. induction fuel as [|fuel IH]; intros st; simpl; [done|].
  destruct (search_guard max_atoms st); [|done].
  destruct (supercell_pos st); [done|]. apply IH.
Qed.

Lemma search_loop_from_start (extra : nat) :
  ∃ st, search_loop (search_fuel max_atoms + extra) self new_coord_inv
          max_atoms initial_search = Some st
        ∧ search_loop (search_fuel max_atoms) self new_coord_inv
            max_atoms initial_search = Some st
        ∧ search_guard max_atoms st = false.
Proof.
  destruct (search_loop_finishes (search_fuel max_atoms) initial_search)
    as (st & Hst & Hg).
  { unfold search_measure, search_fuel, initial_search.
    cbn [supercell_pos enlarged_struct length].
    change (length search_dirs) with 20%nat.
    change (length initial_supercell_pos) with 7%nat.
    replace (max_atoms + 1 - Z.of_nat 0)%Z with (max_atoms + 1)%Z by lia. lia. }
  exists st. split; [by apply search_loop_more_fuel|done].
Qed.

End Search.

(** C5.  For every structure, target lattice and [max_atoms], the method
    finishes: [search_fuel max_atoms] passes of the search loop are
    enough and more fuel gives the same outcome.  The loop stops at a
    state exactly when the queue is empty or the accumulated count is
    above [max_atoms], and it does stop in such a state.  The count
    returned can exceed [max_atoms]: a one-atom cell grown into the cube
    of side 2 with [max_atoms = 3] yields 4 atoms. *)
Theorem grow_to_supercell_terminates
    (self : Structure) (lattice_vecs : M33) (max_atoms : Z) :
  (∀ extra, ∃ r,
      grow_to_supercell (search_fuel max_atoms + extra) lattice_vecs
        max_atoms self = Some r
      ∧ grow_to_supercell (search_fuel max_atoms) lattice_vecs
          max_atoms self = Some r)
  ∧ (∀ new_coord_inv st,
       search_loop 1 self new_coord_inv max_atoms st = Some st
       ↔ supercell_pos st = []
         ∨ (max_atoms < Z.of_nat (length (enlarged_struct st)))%Z)
  ∧ (∀ new_coord_inv, ∃ st,
       search_loop (search_fuel max_atoms) self new_coord_inv max_atoms
         initial_search = Some st
       ∧ (supercell_pos st = []
          ∨ (max_atoms < Z.of_nat (length (enlarged_struct st)))%Z))
  ∧ grown_atom_count
      (grow_to_supercell (search_fuel 3) (Mat.cube Num.two) 3
         two_atom_cell) = Some 4%nat.
Proof.
  split; [|split; [|split]].
  - intros extra. unfold grow_to_supercell.
    destruct (Mat.inv _) as [new_coord_inv|]; [|by eexists].
    destruct (search_loop_from_start self new_coord_inv max_atoms extra)
      as (st & -> & -> & _).
    by eexists.
  - intros new_coord_inv st. rewrite <- search_guard_false. simpl.
    destruct (search_guard max_atoms st) eqn:Hg; [|done].
    split; [|done]. destruct (supercell_pos st) eqn:Hq; [|done].
    unfold search_guard in Hg. rewrite Hq in Hg. simpl in Hg.
    by rewrite andb_false_r in Hg.
  - intros new_coord_inv.
    destruct (search_loop_from_start self new_coord_inv max_atoms 0)
      as (st & _ & Hst & Hg).
    exists st. split; [done|]. by apply search_guard_false.
  - by vm_compute.
Qed.

(** What a call that fails with the empty-result error leaves behind, in
    general: the lattice and the cartesian records of before, and no
    direct record. *)
Lemma grow_to_supercell_empty_error_state
    (fuel : nat) (lattice_vecs : M33) (max_atoms : Z) (self self' : Structure) :
  grow_to_supercell fuel lattice_vecs max_atoms self
  = Some (Raise (ValueError "Grown super-cell is empty"), self') →
  self' = set_direct [] self.
Proof.
  unfold grow_to_supercell. destruct (Mat.inv _); [|done].
  destruct (search_loop _ _ _ _ _) as [st|]; [|done].
  unfold install_supercell, mbind, method_bind, bind, modify, get.
  cbn [direct set_direct]. case_bool_decide as Hlen.
  - destruct (np_unique (enlarged_struct st)); [|simpl in Hlen; lia].
    by intros [= <-].
  - rewrite reconcile_D. by intros [=].
Qed.

(** C2, the defect.  A call that fails with the empty-result error has
    already stored the empty array in [direct]: the two-atom cell, grown
    into a cube of side 1/4 that none of its translates falls into, is
    left with no direct record, while its cartesian records and lattice
    are as before.  The claim that the failed call leaves the atom
    collections unmodified does not hold of the code. *)
Lemma grow_to_supercell_failure_empties_direct :
  grow_to_supercell (search_fuel 100) (Mat.cube (Num.frac 1 4)) 100
    two_atom_cell
  = Some (Raise (ValueError "Grown super-cell is empty"),
          set_direct [] two_atom_cell)
  ∧ length (direct two_atom_cell) = 2%nat
  ∧ length (cartesian two_atom_cell) = 2%nat
  ∧ set_direct [] two_atom_cell ≠ two_atom_cell.
Proof. repeat split; by vm_compute. Qed.

(** C3, as stated, fails for an atom at the origin of the cell: the
    offset on the diagonal makes the translates by 2 land just below 1
    in the target cell, and 27 atoms come out. *)
Lemma grow_unit_cell_origin_27 :
  grown_atom_count
    (grow_to_supercell (search_fuel 100) (Mat.cube Num.two) 100
       (one_atom_cell Vec.zero)) = Some 27%nat.
Proof. by vm_compute. Qed.

(** ** The 2 x 2 x 2 tiling *)

Section Image.

Variables (s1 s2 : Structure) (m1 m2 : M33) (f : atom → atom).

Hypothesis shells :
  ∀ k, shifted_inside s1 m1 k = f <$> shifted_inside s2 m2 k.

Lemma search_guard_image (max_atoms : Z) (st : search) :
  search_guard max_atoms (image f st) = search_guard max_atoms st.
Proof.
  unfold search_guard, image. cbn [supercell_pos enlarged_struct].
  by rewrite length_fmap.
Qed.

Lemma search_body_image (k : Z * Z * Z) (rest : list (Z * Z * Z)) (st : search) :
  search_body s1 m1 k rest (image f st) = image f (search_body s2 m2 k rest st).
Proof.
  unfold search_body, image. cbn [supercell_pos searched_pos enlarged_struct].
  case_bool_decide; [done|].
  rewrite shells, length_fmap.
  case_bool_decide; cbn [supercell_pos searched_pos enlarged_struct]; [|done].
  by rewrite fmap_app.
Qed.

Lemma search_loop_image (fuel : nat) (max_atoms : Z) (st : search) :
  search_loop fuel s1 m1 max_atoms (image f st)
  = image f <$> search_loop fuel s2 m2 max_atoms st.
Proof.
  revert st. induction fuel as [|fuel IH]; intros st; [done|].
  cbn [search_loop]. rewrite search_guard_image.
  destruct (search_guard max_atoms st); [|done].
  change (supercell_pos (image f st)) with (supercell_pos st).
  destruct (supercell_pos st) as [|k rest]; [done|].
  by rewrite search_body_image, IH.
Qed.

End Image.

Lemma drop_repeats_NoDup (arr : list atom) : NoDup arr → drop_repeats arr = arr.
Proof.
  induction 1 as [|a arr Ha _ IH]; [done|].
  cbn [drop_repeats]. destruct arr as [|b arr]; [done|].
  case_decide as Hab; [|by rewrite IH].
  subst b. exfalso. apply Ha. left.
Qed.

Lemma np_unique_NoDup (arr : list atom) : NoDup arr → np_unique arr ≡ₚ arr.
Proof.
  intros Hnd. unfold np_unique. rewrite drop_repeats_NoDup.
  - apply merge_sort_Permutation.
  - by rewrite merge_sort_Permutation.
Qed.

Lemma install_supercell_nonempty (lattice_vecs : M33) (enlarged : list atom)
    (self : Structure) :
  np_unique enlarged ≠ [] →
  install_supercell lattice_vecs enlarged self
  = (Return tt,
     let arr := sort_by_element (sort_by_element (np_unique enlarged)) in
     mkStructure (comment self) lattice_vecs arr
       (map_position (λ p, Vec.dot p lattice_vecs) arr)).
Proof.
  intros Hne. unfold install_supercell.
  unfold mbind, method_bind, bind, modify, get; simpl.
  rewrite bool_decide_eq_false_2.
  - by rewrite reconcile_D.
  - destruct (np_unique enlarged); simpl; [done|lia].
Qed.

Lemma target_inv_computed :
  Mat.inv (Mat.add (Mat.cube Num.two) (Mat.scale diagonal_offset Mat.identity))
  = Some target_inv.
Proof. apply (bool_decide_unpack _). by vm_compute. Qed.

Lemma centre_search_computed :
  enlarged_struct
    <$> search_loop (search_fuel 100) (one_atom_cell centre) target_inv 100
          initial_search
  = Some (tile centre <$> unit_offsets).
Proof. apply (bool_decide_unpack _). by vm_compute. Qed.

(** One coordinate: with [1e-5 <= x < 1], the translate by [k] lies in
    [0, 1) of the target cell exactly for [k = 0] and [k = 1]. *)
Lemma coordinate_inside (x : Qc) (k : Z) :
  diagonal_offset ≤ x → x < 1 →
  Num.leb 0 (Num.frac 100000 200001 * (x + Num.of_Z k))
  && Num.ltb (Num.frac 100000 200001 * (x + Num.of_Z k)) 1
  = zero_or_one k.
Proof.
  intros H1 H2. unfold zero_or_one, Num.leb, Num.ltb.
  rewrite <- bool_decide_and. apply bool_decide_ext.
  revert H1 H2. unfold Qcle, Qclt, Num.of_Z, Num.frac, diagonal_offset, Num.frac.
  simpl. rewrite !Qred_correct. intros H1 H2.
  assert (Hk : (k ≤ -1 ∨ k = 0 ∨ k = 1 ∨ 2 ≤ k)%Z) by lia.
  destruct Hk as [Hk | [-> | [-> | Hk]]].
  - pose proof Hk as HQ. rewrite Zle_Qle in HQ.
    change (inject_Z (-1)) with (- (1 # 1))%Q in HQ.
    split; [|lia]. intros [H3 H4]. exfalso. clear Hk.
    revert HQ H3 H4. generalize (inject_Z k). intros q. lra.
  - split; [auto|]. intros _. change (inject_Z 0) with 0%Q. lra.
  - split; [auto|]. intros _. change (inject_Z 1) with 1%Q. lra.
  - pose proof Hk as HQ. rewrite Zle_Qle in HQ.
    change (inject_Z 2) with (2 # 1)%Q in HQ.
    split; [|lia]. intros [H3 H4]. exfalso. clear Hk.
    revert HQ H3 H4. generalize (inject_Z k). intros q. lra.
Qed.

Lemma tile_inside (p : V3) (k : Z * Z * Z) :
  clear_of_faces p → valid_direct_vec (tile_position p k) = unit_offset k.
Proof.
  intros ([Hx1 Hx2] & [Hy1 Hy2] & [Hz1 Hz2]). destruct k as [[a b] c].
  unfold valid_direct_vec, unit_offset, tile_position.
  unfold Vec.scale, Vec.add, Vec.of_Z3. cbn [vx vy vz].
  rewrite <- (coordinate_inside (vx p) a), <- (coordinate_inside (vy p) b),
    <- (coordinate_inside (vz p) c) by done.
  by rewrite !andb_assoc.
Qed.

Lemma dot_cube (c : Qc) (v : V3) : Vec.dot v (Mat.cube c) = Vec.scale c v.
Proof.
  destruct v as [x y z].
  unfold Mat.cube, Mat.scale, Mat.identity, Vec.dot, Vec.scale.
  cbn [vx vy vz row0 row1 row2]. apply V3_ext; cbn [vx vy vz]; ring.
Qed.

Lemma scale_1 (v : V3) : Vec.scale 1 v = v.
Proof. destruct v. unfold Vec.scale. apply V3_ext; cbn [vx vy vz]; ring. Qed.

Lemma shifted_inside_tile (p : V3) (k : Z * Z * Z) :
  clear_of_faces p →
  shifted_inside (one_atom_cell p) target_inv k
  = if unit_offset k then [tile p k] else [].
Proof.
  intros Hp. rewrite <- (tile_inside p k Hp).
  unfold shifted_inside. rewrite assign_dot_positions, mask_index_fmap.
  unfold one_atom_cell, make_structure. cbn [cartesian coordinates].
  rewrite assign_dot_positions. unfold map_position, set_position.
  cbn [fmap list_fmap position element List.filter compose].
  unfold target_inv. rewrite !dot_cube, !scale_1.
  fold (tile_position p k). fold (tile p k).
  by destruct (valid_direct_vec _).
Qed.

Lemma shift_position_tile (p q : V3) (k : Z * Z * Z) :
  shift_position (Vec.sub (tile_position p (0, 0, 0)%Z)
                    (tile_position q (0, 0, 0)%Z)) (tile q k)
  = tile p k.
Proof.
  destruct p as [x y z], q as [x' y' z'], k as [[a b] c].
  unfold shift_position, tile, set_position. cbn [position element]. f_equal.
  unfold tile_position, Vec.scale, Vec.add, Vec.sub, Vec.of_Z3.
  cbn [vx vy vz]. generalize (Num.frac 100000 200001). intros s.
  change (Num.of_Z 0) with 0.
  apply V3_ext; cbn [vx vy vz]; ring.
Qed.

Global Instance shift_position_inj (delta : V3) :
  Inj (=) (=) (shift_position delta).
Proof.
  intros [[x y z] e] [[x' y' z'] e'] H.
  assert (Hcancel : ∀ u v d : Qc, u + d = v + d → u = v).
  { intros u v d Huv. replace u with (u + d - d) by ring. rewrite Huv. ring. }
  pose proof (f_equal element H) as He.
  pose proof (f_equal (λ a, vx (position a)) H) as Hx.
  pose proof (f_equal (λ a, vy (position a)) H) as Hy.
  pose proof (f_equal (λ a, vz (position a)) H) as Hz.
  unfold shift_position, set_position, Vec.add in He, Hx, Hy, Hz.
  cbn [position element vx vy vz] in He, Hx, Hy, Hz.
  apply Hcancel in Hx, Hy, Hz. by subst.
Qed.

Lemma centre_tiles_NoDup : NoDup (tile centre <$> unit_offsets).
Proof. apply (bool_decide_unpack _). by vm_compute. Qed.

Lemma centre_clear_of_faces : clear_of_faces centre.
Proof. repeat split; by apply (bool_decide_unpack _). Qed.

(** C3, amended.  A cell of side 1 holding one atom whose fractional
    coordinates all lie in [1e-5, 1), grown into the cube of side 2 with
    [max_atoms = 100]: the call returns and the structure then holds
    exactly 8 distinct atoms, the translates of the atom by the offsets
    of {0,1}^3. *)
Theorem grow_unit_cell_8 (p : V3) :
  clear_of_faces p →
  ∃ self',
    grow_to_supercell (search_fuel 100) (Mat.cube Num.two) 100
      (one_atom_cell p) = Some (Return tt, self')
    ∧ length (direct self') = 8%nat
    ∧ length (cartesian self') = 8%nat
    ∧ NoDup (direct self')
    ∧ direct self' ≡ₚ tile p <$> unit_offsets.
Proof.
  intros Hp. unfold grow_to_supercell. rewrite target_inv_computed.
  set (delta := Vec.sub (tile_position p (0, 0, 0)%Z)
                  (tile_position centre (0, 0, 0)%Z)).
  change initial_search with (image (shift_position delta) initial_search).
  rewrite (search_loop_image (one_atom_cell p) (one_atom_cell centre)
             target_inv target_inv (shift_position delta)).
  2:{ intros k. rewrite !shifted_inside_tile by auto using centre_clear_of_faces.
      destruct (unit_offset k); [|done]. csimpl.
      unfold delta. by rewrite shift_position_tile. }
  pose proof centre_search_computed as Hc.
  destruct (search_loop _ (one_atom_cell centre) _ _ _) as [st|]; [|done].
  assert (Hst : enlarged_struct st = tile centre <$> unit_offsets)
    by (by injection Hc).
  clear Hc. cbn [fmap option_fmap option_map image enlarged_struct].
  assert (Htiles : shift_position delta ∘ tile centre <$> unit_offsets
                   = tile p <$> unit_offsets).
  { apply list_fmap_ext. intros ? k _. apply shift_position_tile. }
  assert (Hnd : NoDup (tile p <$> unit_offsets)).
  { rewrite <- Htiles, list_fmap_compose.
    apply (NoDup_fmap_2 _), centre_tiles_NoDup. }
  rewrite Hst, <- list_fmap_compose, Htiles.
  pose proof (np_unique_NoDup _ Hnd) as Hperm.
  rewrite install_supercell_nonempty.
  2:{ intros Hnil. rewrite Hnil in Hperm. by apply Permutation_nil_l in Hperm. }
  eexists. split; [done|]. cbn [direct cartesian].
  assert (Hsorted : sort_by_element (sort_by_element
            (np_unique (tile p <$> unit_offsets))) ≡ₚ tile p <$> unit_offsets).
  { unfold sort_by_element. by rewrite !merge_sort_Permutation. }
  split; [by rewrite Hsorted|].
  split; [by rewrite map_position_length, Hsorted|].
  split; [by rewrite Hsorted|done].
Qed.

Lemma grow_unit_cell_8_witness :
  ∃ self',
    grow_to_supercell (search_fuel 100) (Mat.cube Num.two) 100
      (one_atom_cell centre) = Some (Return tt, self')
    ∧ length (direct self') = 8%nat
    ∧ length (cartesian self') = 8%nat
    ∧ NoDup (direct self')
    ∧ direct self' ≡ₚ tile centre <$> unit_offsets.
Proof.
  apply (grow_unit_cell_8 centre).
  repeat split; by apply (bool_decide_unpack _).
Defined.

(** ** The corner pass *)

(** The pass at work: of two atoms that meet across the corners of the
    periodic cell, the one found at the first corner stays and the other
    is removed. *)
Example corners_remove_one :
  fst (remove_collision_at_corners (Num.frac 1 100) table_XX false corner_pair)
  = Return 1%Z.
Proof. by vm_compute. Qed.

(** C9.  The result of the corner pass, the outcome together with the
    final structure, is the same for both values of [random_delete]. *)
Theorem remove_collision_at_corners_ignores_random_delete
    (boundary_radius : Qc) (min_dist_dict : gmap (string * string) Qc)
    (self : Structure) :
  remove_collision_at_corners boundary_radius min_dist_dict true self
  = remove_collision_at_corners boundary_radius min_dist_dict false self.
Proof. reflexivity. Qed.

(** ** Combining two structures *)

Lemma update_Some (ref : nat) (f : Structure → Structure)
    (heap : gmap nat Structure) (self : Structure) :
  heap !! ref = Some self → update ref f heap = Some (<[ref := f self]> heap).
Proof. intros H. unfold update. by rewrite H. Qed.

Lemma reconciled_cartesian (self : Structure) :
  reconciled self →
  cartesian self = map_position (λ p, Vec.dot p (coordinates self)) (direct self).
Proof.
  unfold reconciled, map_position.
  induction 1 as [|c d cs ds [Hp He] _ IH]; csimpl; [done|].
  rewrite <- IH. f_equal. destruct c as [pc ec]; simpl in *.
  unfold set_position. by rewrite Hp, He.
Qed.

Lemma reconciled_make_structure (c : string) (m : M33) (atoms : list atom) :
  reconciled (make_structure c m atoms).
Proof.
  unfold make_structure. rewrite assign_dot_positions.
  apply reconciled_map_position.
Qed.

Lemma map_position_app (f : V3 → V3) (l1 l2 : list atom) :
  map_position f (l1 ++ l2) = map_position f l1 ++ map_position f l2.
Proof. unfold map_position. apply fmap_app. Qed.

Lemma map_position_compose (f g : V3 → V3) (arr : list atom) :
  map_position f (map_position g arr) = map_position (f ∘ g) arr.
Proof.
  unfold map_position. rewrite <- list_fmap_compose.
  apply list_fmap_ext. by intros ? [p e] _.
Qed.

Lemma map_position_ext (f g : V3 → V3) (arr : list atom) :
  (∀ p, f p = g p) → map_position f arr = map_position g arr.
Proof.
  intros H. unfold map_position. apply list_fmap_ext.
  intros ? a _. by rewrite H.
Qed.

Lemma two_nonzero : Num.two ≠ 0.
Proof. apply (bool_decide_unpack _). by vm_compute. Qed.

(** Halving z and doubling the third lattice vector cancel. *)
Lemma dot_halved_doubled (m : M33) (p : V3) :
  Vec.dot (mkV3 (vx p) (vy p) (vz p / Num.two)) (double_row2 m) = Vec.dot p m.
Proof.
  destruct m as [[a b c] [d e f] [g h i]], p as [x y z].
  unfold Vec.dot, double_row2, Vec.scale. cbn [vx vy vz row0 row1 row2].
  pose proof two_nonzero. generalize dependent Num.two. intros t Ht.
  apply V3_ext; cbn [vx vy vz]; by field.
Qed.

(** Passing the same structure twice is another matter: its z coordinates
    are halved twice and raised, and its records are doubled. *)
Example combine_structures_aliased :
  (heap' ← snd <$> combine_structures 1 1 two_cells;
   s ← heap' !! 1%nat;
   Some (length (cartesian s)))
  = Some 4%nat.
Proof. by vm_compute. Qed.

(** C10.  For two distinct structures of the store, the first of them
    holding as cartesian records the records derived from its direct
    ones: the call returns the first reference, the third lattice vector
    is doubled, and the cartesian records of the first structure are then
    its cartesian records from before the call, each with its position
    and element, together with the records contributed by the second
    structure. *)
Theorem combine_structures_keeps_struct_1
    (heap : gmap nat Structure) (struct_1 struct_2 : nat) (s1 s2 : Structure) :
  struct_1 ≠ struct_2 →
  heap !! struct_1 = Some s1 →
  heap !! struct_2 = Some s2 →
  cartesian s1 ≡ₚ map_position (λ p, Vec.dot p (coordinates s1)) (direct s1) →
  ∃ heap' s1',
    combine_structures struct_1 struct_2 heap = Some (Return struct_1, heap')
    ∧ heap' !! struct_1 = Some s1'
    ∧ coordinates s1' = double_row2 (coordinates s1)
    ∧ cartesian s1'
      ≡ₚ cartesian s1
         ++ map_position (λ p, Vec.dot p (coordinates s1'))
              (raise_z (halve_z (direct s2))).
Proof.
  intros Hne H1 H2 Hrec. unfold combine_structures.
  rewrite (update_Some _ _ _ _ H1). cbn [mbind option_bind].
  rewrite (update_Some struct_2 _ _ s2) by (by rewrite lookup_insert_ne).
  cbn [mbind option_bind].
  rewrite (update_Some struct_2 _ _ _ (lookup_insert_eq _ _ _)).
  cbn [mbind option_bind].
  rewrite insert_insert_eq, lookup_insert_eq. cbn [mbind option_bind].
  erewrite (update_Some struct_1)
    by (rewrite lookup_insert_ne by done; apply lookup_insert_eq).
  cbn [mbind option_bind].
  rewrite (update_Some struct_1 _ _ _ (lookup_insert_eq _ _ _)).
  cbn [mbind option_bind].
  rewrite insert_insert_eq, lookup_insert_ne, lookup_insert_eq by done.
  cbn [mbind option_bind].
  rewrite (update_Some struct_1 _ _ _ (lookup_insert_eq _ _ _)).
  cbn [mbind option_bind].
  rewrite insert_insert_eq, lookup_insert_eq. cbn [mbind option_bind].
  rewrite reconcile_D. eexists _, _. split; [done|].
  split; [apply lookup_insert_eq|]. split; [done|].
  cbn [cartesian coordinates direct set_comment set_coordinates set_direct].
  unfold sort_by_element. rewrite Hrec.
  unfold map_position at 1. rewrite merge_sort_Permutation.
  fold (map_position (λ p, Vec.dot p (double_row2 (coordinates s1)))
          (halve_z (direct s1) ++ raise_z (halve_z (direct s2)))).
  rewrite map_position_app. apply Permutation_app; [|done].
  unfold halve_z. rewrite map_position_compose.
  rewrite (map_position_ext _ (λ p, Vec.dot p (coordinates s1))); [done|].
  intros p. apply dot_halved_doubled.
Qed.

Lemma combine_structures_keeps_struct_1_witness :
  ∃ heap' s1',
    combine_structures 1 2 two_cells = Some (Return 1%nat, heap')
    ∧ heap' !! 1%nat = Some s1'
    ∧ coordinates s1' = double_row2 (coordinates two_atom_cell)
    ∧ cartesian s1'
      ≡ₚ cartesian two_atom_cell
         ++ map_position (λ p, Vec.dot p (coordinates s1'))
              (raise_z (halve_z (direct (one_atom_cell Vec.zero)))).
Proof.
  apply (combine_structures_keeps_struct_1 two_cells 1 2
           two_atom_cell (one_atom_cell Vec.zero)).
  - lia.
  - reflexivity.
  - reflexivity.
  - unfold two_atom_cell.
    by rewrite (reconciled_cartesian _ (reconciled_make_structure _ _ _)).
Defined.

(** * Further properties *)

(** ** The orders used for sorting *)

(** Linear facts about canonical rationals, decided over [Q]. *)
Ltac qc_order :=
  try apply Qc_is_canon;
  repeat match goal with
    | H : @eq Qc ?x ?y |- _ =>
        first [ subst x | subst y
              | assert (this x == this y)%Q by (rewrite H; reflexivity);
                clear H ]
    end;
  unfold Qcle, Qclt in *; lra.

Lemma ltb_lt (x y : Qc) : Num.ltb x y = true ↔ x < y.
Proof. apply bool_decide_eq_true. Qed.

Lemma ltb_ge (x y : Qc) : Num.ltb x y = false ↔ y ≤ x.
Proof.
  unfold Num.ltb. rewrite bool_decide_eq_false. split.
  - apply Qcnot_lt_le.
  - apply Qcle_not_lt.
Qed.

Lemma leb_le (x y : Qc) : Num.leb x y = true ↔ x ≤ y.
Proof. apply bool_decide_eq_true. Qed.

(** [lex_leb] is the lexicographic order of the three coordinates. *)
Lemma lex_leb_spec (u v : V3) :
  Vec.lex_leb u v = true
  ↔ vx u < vx v
    ∨ (vx u = vx v
       ∧ (vy u < vy v ∨ (vy u = vy v ∧ vz u ≤ vz v))).
Proof.
  destruct u as [x y z], v as [x' y' z']. unfold Vec.lex_leb. cbn [vx vy vz].
  destruct (Num.ltb x x') eqn:H1; [apply ltb_lt in H1; tauto|].
  apply ltb_ge in H1.
  destruct (Num.ltb x' x) eqn:H2.
  { apply ltb_lt in H2. split; [done|]. intros [H | [H _]]; qc_order. }
  apply ltb_ge in H2. assert (Hx : x = x') by qc_order. subst x'.
  destruct (Num.ltb y y') eqn:H3; [apply ltb_lt in H3; tauto|].
  apply ltb_ge in H3.
  destruct (Num.ltb y' y) eqn:H4.
  { apply ltb_lt in H4. split; [done|].
    intros [H | [_ [H | [H _]]]]; qc_order. }
  apply ltb_ge in H4. assert (Hy : y = y') by qc_order. subst y'.
  rewrite leb_le. split; [tauto|].
  intros [H | [_ [H | [_ H]]]]; [qc_order | qc_order | done].
Qed.

Lemma lex_leb_total (u v : V3) : Vec.lex_leb u v = true ∨ Vec.lex_leb v u = true.
Proof.
  rewrite !lex_leb_spec. destruct u as [x y z], v as [x' y' z']. cbn [vx vy vz].
  destruct (Qc_dec x x') as [[H | H] | H]; [tauto | tauto |]. subst x'.
  destruct (Qc_dec y y') as [[H | H] | H]; [tauto | tauto |]. subst y'.
  destruct (Qclt_le_dec z z') as [H | H]; [left | right]; right;
    (split; [done|]); right; (split; [done|]); qc_order.
Qed.

Lemma lex_leb_antisym (u v : V3) :
  Vec.lex_leb u v = true → Vec.lex_leb v u = true → u = v.
Proof.
  rewrite !lex_leb_spec. destruct u as [x y z], v as [x' y' z']. cbn [vx vy vz].
  intros [H1 | [-> [H1 | [-> H1]]]] [H2 | [H2' [H2 | [H2'' H2]]]];
    try (exfalso; qc_order).
  f_equal. qc_order.
Qed.

Lemma lex_leb_trans (u v w : V3) :
  Vec.lex_leb u v = true → Vec.lex_leb v w = true → Vec.lex_leb u w = true.
Proof.
  rewrite !lex_leb_spec.
  destruct u as [x y z], v as [x' y' z'], w as [x'' y'' z'']. cbn [vx vy vz].
  intros [H1 | [-> [H1 | [-> H1]]]] [H2 | [H2' [H2 | [H2'' H2]]]];
    subst; try (left; qc_order); right; (split; [done|]);
    try (left; qc_order); right; (split; [done|]); qc_order.
Qed.

(** Transitivity of [String.compare]. *)
Lemma ascii_compare_lt_trans (a b c : Ascii.ascii) :
  Ascii.compare a b = Lt → Ascii.compare b c = Lt → Ascii.compare a c = Lt.
Proof.
  unfold Ascii.compare. rewrite !N.compare_lt_iff. apply N.lt_trans.
Qed.

Lemma string_compare_lt_trans (s1 s2 s3 : string) :
  String.compare s1 s2 = Lt → String.compare s2 s3 = Lt →
  String.compare s1 s3 = Lt.
Proof.
  revert s2 s3. induction s1 as [|a s1 IH]; intros [|b s2] [|c s3]; simpl;
    try done.
  destruct (Ascii.compare a b) eqn:Hab; [|clear IH|done];
    destruct (Ascii.compare b c) eqn:Hbc; try done; intros H1 H2.
  - apply Ascii.compare_eq_iff in Hab, Hbc. subst.
    replace (Ascii.compare c c) with Eq; [by eapply IH|].
    symmetry. unfold Ascii.compare. apply N.compare_refl.
  - apply Ascii.compare_eq_iff in Hab. subst. by rewrite Hbc.
  - apply Ascii.compare_eq_iff in Hbc. subst. by rewrite Hab.
  - by rewrite (ascii_compare_lt_trans a b c).
Qed.

Lemma string_compare_gt_lt (s1 s2 : string) :
  String.compare s1 s2 = Gt ↔ String.compare s2 s1 = Lt.
Proof.
  rewrite (String.compare_antisym s2 s1).
  destruct (String.compare s1 s2); simpl; split; congruence.
Qed.

Lemma string_compare_refl (s : string) : String.compare s s = Eq.
Proof.
  pose proof (String.compare_antisym s s) as H.
  destruct (String.compare s s); simpl in H; congruence.
Qed.

Global Instance element_order_total : Total element_order.
Proof.
  intros a b. unfold element_order, element_leb.
  rewrite (String.compare_antisym (element b) (element a)).
  destruct (String.compare (element a) (element b)); simpl; auto.
  rewrite !Is_true_true. apply lex_leb_total.
Qed.

Global Instance element_order_trans : Transitive element_order.
Proof.
  intros a b c. unfold element_order, element_leb.
  destruct (String.compare (element a) (element b)) eqn:Hab; [| |done];
    destruct (String.compare (element b) (element c)) eqn:Hbc; try done.
  - apply String.compare_eq_iff in Hab, Hbc. rewrite Hab, Hbc.
    rewrite string_compare_refl, !Is_true_true. apply lex_leb_trans.
  - apply String.compare_eq_iff in Hab. rewrite Hab, Hbc. done.
  - apply String.compare_eq_iff in Hbc. rewrite <- Hbc, Hab. done.
  - by rewrite (string_compare_lt_trans _ _ _ Hab Hbc).
Qed.

Global Instance element_order_antisym : AntiSymm (=) element_order.
Proof.
  intros [p e] [p' e']. unfold element_order, element_leb. cbn [element position].
  rewrite (String.compare_antisym e' e).
  destruct (String.compare e e') eqn:He; simpl; try done.
  apply String.compare_eq_iff in He. subst e'.
  rewrite !Is_true_true. intros H1 H2. f_equal. by apply lex_leb_antisym.
Qed.

Lemma string_leb_trans (s1 s2 s3 : string) :
  String.leb s1 s2 = true → String.leb s2 s3 = true → String.leb s1 s3 = true.
Proof.
  unfold String.leb.
  destruct (String.compare s1 s2) eqn:H12; [| |done];
    destruct (String.compare s2 s3) eqn:H23; try done; intros _ _.
  - apply String.compare_eq_iff in H12, H23. subst.
    by rewrite string_compare_refl.
  - apply String.compare_eq_iff in H12. subst. by rewrite H23.
  - apply String.compare_eq_iff in H23. subst. by rewrite H12.
  - by rewrite (string_compare_lt_trans _ _ _ H12 H23).
Qed.

Global Instance record_order_total : Total record_order.
Proof.
  intros [p e] [p' e']. unfold record_order, record_leb. cbn [element position].
  rewrite !Is_true_true. repeat case_decide; try congruence.
  - apply String.leb_total.
  - apply lex_leb_total.
Qed.

Global Instance record_order_antisym : AntiSymm (=) record_order.
Proof.
  intros [p e] [p' e']. unfold record_order, record_leb. cbn [element position].
  rewrite !Is_true_true. repeat case_decide; try congruence.
  - subst. intros Hab Hba. f_equal. by apply String.leb_antisym.
  - intros Hab Hba. exfalso. by eauto using lex_leb_antisym.
Qed.

Global Instance record_order_trans : Transitive record_order.
Proof.
  intros [p e] [p' e'] [p'' e'']. unfold record_order, record_leb.
  cbn [element position]. rewrite !Is_true_true.
  repeat case_decide; subst; try congruence; intros Hab Hbc.
  - by eapply string_leb_trans.
  - exfalso. by eauto using lex_leb_antisym.
  - by eapply lex_leb_trans.
Qed.

(** Sorting a second time changes nothing. *)
Lemma sort_by_element_idem (arr : list atom) :
  sort_by_element (sort_by_element arr) = sort_by_element arr.
Proof.
  unfold sort_by_element. apply (Sorted_unique element_order).
  - apply Sorted_merge_sort, _.
  - apply Sorted_merge_sort, _.
  - apply merge_sort_Permutation.
Qed.

Lemma drop_repeats_cons2 (a b : atom) (arr : list atom) :
  drop_repeats (a :: b :: arr)
  = if decide (a = b) then drop_repeats (b :: arr)
    else a :: drop_repeats (b :: arr).
Proof. done. Qed.

Lemma drop_repeats_sublist (arr : list atom) : drop_repeats arr `sublist_of` arr.
Proof.
  induction arr as [|a [|b arr] IH]; [done|done|].
  rewrite drop_repeats_cons2. case_decide; by constructor.
Qed.

Lemma drop_repeats_elem_of (x : atom) (arr : list atom) :
  x ∈ drop_repeats arr ↔ x ∈ arr.
Proof.
  split; [intros H; eapply elem_of_sublist; [done|apply drop_repeats_sublist]|].
  induction arr as [|a [|b arr] IH]; [done|done|].
  rewrite drop_repeats_cons2, (elem_of_cons (b :: arr)). intros [-> | H].
  - case_decide as Hab; [subst; apply IH; left | left].
  - case_decide; [by apply IH | right; by apply IH].
Qed.

Lemma drop_repeats_sorted_NoDup (arr : list atom) :
  StronglySorted record_order arr → NoDup (drop_repeats arr).
Proof.
  induction 1 as [|a arr Hs IH Ha]; [constructor|].
  destruct arr as [|b arr]; [apply NoDup_singleton|].
  rewrite drop_repeats_cons2. case_decide as Hab; [done|].
  constructor; [|done].
  rewrite drop_repeats_elem_of. intros Hin.
  apply StronglySorted_inv in Hs as [_ Hb].
  apply elem_of_cons in Hin as [-> | Hin]; [done|].
  apply Hab. apply (anti_symm record_order).
  - by apply Forall_cons in Ha as [? _].
  - rewrite Forall_forall in Hb. by apply Hb.
Qed.

Lemma np_unique_NoDup_sorted (arr : list atom) : NoDup (np_unique arr).
Proof.
  apply drop_repeats_sorted_NoDup, StronglySorted_merge_sort; apply _.
Qed.

Lemma np_unique_elem_of (x : atom) (arr : list atom) :
  x ∈ np_unique arr ↔ x ∈ arr.
Proof.
  unfold np_unique. by rewrite drop_repeats_elem_of, merge_sort_Permutation.
Qed.

Lemma np_unique_length (arr : list atom) :
  (length (np_unique arr) ≤ length arr)%nat.
Proof.
  unfold np_unique. etrans; [apply sublist_length, drop_repeats_sublist|].
  by rewrite merge_sort_Permutation.
Qed.

(** ** More on reconciliation *)

Lemma dot_adj_div_r (m : M33) (p : V3) :
  Mat.det m ≠ 0 → Vec.dot (Vec.dot p m) (Mat.adj_div m) = p.
Proof.
  destruct m as [[a b c] [d e f] [g h i]], p as [x y z].
  unfold Mat.adj_div, Mat.det; simpl; intros Hdet.
  apply V3_ext; simpl; field; exact Hdet.
Qed.

Lemma map_position_id (f : V3 → V3) (arr : list atom) :
  (∀ p, f p = p) → map_position f arr = arr.
Proof.
  intros H. unfold map_position in *.
  induction arr as [|[p e] arr IH]; [done|].
  rewrite fmap_cons, IH. unfold set_position. cbn [position element].
  by rewrite H.
Qed.

Global Instance map_position_Permutation (f : V3 → V3) :
  Proper ((≡ₚ) ==> (≡ₚ)) (map_position f).
Proof. intros l1 l2 H. unfold map_position. by rewrite H. Qed.

Lemma map_position_inv_r (m : M33) (arr : list atom) :
  Mat.det m ≠ 0 →
  map_position (λ p, Vec.dot p (Mat.adj_div m))
    (map_position (λ p, Vec.dot p m) arr) = arr.
Proof.
  intros Hdet. rewrite map_position_compose. apply map_position_id.
  intros p. unfold compose. exact (dot_adj_div_r m p Hdet).
Qed.

Lemma map_position_inv_l (m : M33) (arr : list atom) :
  Mat.det m ≠ 0 →
  map_position (λ p, Vec.dot p m)
    (map_position (λ p, Vec.dot p (Mat.adj_div m)) arr) = arr.
Proof.
  intros Hdet. rewrite map_position_compose. apply map_position_id.
  intros p. unfold compose. exact (dot_adj_div m p Hdet).
Qed.

Lemma reconcile_other (according_to : string) (self : Structure) :
  according_to ≠ "C"%string → according_to ≠ "D"%string →
  reconcile according_to self
  = (Raise (ValueError "Argument according_to should either be C or D."), self).
Proof.
  intros HC HD. unfold reconcile.
  apply String.eqb_neq in HC, HD. by rewrite HC, HD.
Qed.

Lemma reconcile_C_singular_eq (self : Structure) :
  Mat.det (coordinates self) = 0 →
  reconcile "C" self
  = (Raise LinAlgError,
     mkStructure (comment self) (coordinates self)
       (sort_by_element (cartesian self)) (sort_by_element (cartesian self))).
Proof.
  intros Hdet. unfold reconcile; simpl.
  unfold mbind, method_bind, bind, modify, get; simpl.
  unfold Mat.inv. by rewrite decide_True.
Qed.


(** X2.  A call with source of truth ['C'] on a singular lattice raises
    the linear-algebra error after the copy has been made: the direct
    records are then the sorted cartesian records, cartesian positions
    included. *)
Theorem reconcile_C_singular (self : Structure) :
  Mat.det (coordinates self) = 0 →
  ∃ self',
    reconcile "C" self = (Raise LinAlgError, self')
    ∧ direct self' = sort_by_element (cartesian self)
    ∧ cartesian self' = sort_by_element (cartesian self)
    ∧ coordinates self' = coordinates self.
Proof.
  intros Hdet. eexists. split; [by apply reconcile_C_singular_eq|done].
Qed.

Lemma reconcile_C_singular_witness :
  ∃ self',
    reconcile "C" flat_cell = (Raise LinAlgError, self')
    ∧ direct self' = sort_by_element (cartesian flat_cell)
    ∧ cartesian self' = sort_by_element (cartesian flat_cell)
    ∧ coordinates self' = coordinates flat_cell.
Proof.
  apply (reconcile_C_singular flat_cell).
  apply (bool_decide_unpack _). by vm_compute.
Defined.


(** X4.  On an invertible lattice the two directions undo each other up
    to the order of the records: ['D'] followed by ['C'] gives back the
    direct records, ['C'] followed by ['D'] the cartesian ones. *)
Theorem reconcile_round_trip (self : Structure) :
  Mat.det (coordinates self) ≠ 0 →
  ∃ s1 s2 s3 s4,
    reconcile "D" self = (Return tt, s1)
    ∧ reconcile "C" s1 = (Return tt, s2)
    ∧ direct s2 ≡ₚ direct self
    ∧ reconcile "C" self = (Return tt, s3)
    ∧ reconcile "D" s3 = (Return tt, s4)
    ∧ cartesian s4 ≡ₚ cartesian self.
Proof.
  intros Hdet. eexists _, _, _, _.
  split; [apply reconcile_D|].
  split; [apply reconcile_C, inv_is_Some, Hdet|]. cbn [direct cartesian].
  split.
  { cbn [coordinates]. unfold sort_by_element.
    rewrite (merge_sort_Permutation element_order (map_position _ _)).
    rewrite (map_position_inv_r _ _ Hdet).
    apply merge_sort_Permutation. }
  split; [apply reconcile_C, inv_is_Some, Hdet|].
  split; [apply reconcile_D|]. cbn [direct cartesian coordinates].
  unfold sort_by_element.
  rewrite (merge_sort_Permutation element_order (map_position _ _)).
  rewrite (map_position_inv_l _ _ Hdet).
  apply merge_sort_Permutation.
Qed.

Lemma reconcile_round_trip_witness :
  ∃ s1 s2 s3 s4,
    reconcile "D" corner_pair = (Return tt, s1)
    ∧ reconcile "C" s1 = (Return tt, s2)
    ∧ direct s2 ≡ₚ direct corner_pair
    ∧ reconcile "C" corner_pair = (Return tt, s3)
    ∧ reconcile "D" s3 = (Return tt, s4)
    ∧ cartesian s4 ≡ₚ cartesian corner_pair.
Proof.
  apply (reconcile_round_trip corner_pair).
  apply (bool_decide_unpack _). by vm_compute.
Defined.

(** ** More on supercell growth *)

Lemma filter_Forall {A} (p : A → bool) (l : list A) :
  Forall (λ x, p x = true) (List.filter p l).
Proof.
  apply Forall_forall. intros x Hx.
  apply list_elem_of_In, List.filter_In in Hx. tauto.
Qed.

Lemma shifted_inside_filter (self : Structure) (m : M33) (k : Z * Z * Z) :
  shifted_inside self m k
  = List.filter (λ a, valid_direct_vec (position a)) (shifted_all self m k).
Proof.
  unfold shifted_inside, shifted_all.
  rewrite assign_dot_positions, map_position_compose, mask_index_fmap. done.
Qed.

Lemma shifted_inside_valid (self : Structure) (m : M33) (k : Z * Z * Z) :
  Forall (λ a, valid_direct_vec (position a) = true) (shifted_inside self m k).
Proof. rewrite shifted_inside_filter. apply filter_Forall. Qed.

Lemma shifted_inside_length (self : Structure) (m : M33) (k : Z * Z * Z) :
  (length (shifted_inside self m k) ≤ length (cartesian self))%nat.
Proof.
  rewrite shifted_inside_filter.
  etrans; [apply List.filter_length_le|].
  unfold shifted_all. by rewrite map_position_length.
Qed.

Lemma shifted_inside_image (self : Structure) (m : M33) (k : Z * Z * Z) :
  Forall (periodic_image self m) (shifted_inside self m k).
Proof.
  rewrite shifted_inside_filter. apply Forall_forall. intros a Ha.
  apply list_elem_of_In, List.filter_In in Ha as [Ha _].
  apply list_elem_of_In in Ha. unfold shifted_all, map_position in Ha.
  apply list_elem_of_fmap in Ha as (b & -> & Hb). by exists b, k.
Qed.

Section SearchInvariants.

Variables (self : Structure) (new_coord_inv : M33) (max_atoms : Z).

(** A property of all the records the shells deliver holds of all the
    records the search accumulates. *)
Lemma search_loop_Forall (P : atom → Prop) (fuel : nat) (st st' : search) :
  (∀ k, Forall P (shifted_inside self new_coord_inv k)) →
  Forall P (enlarged_struct st) →
  search_loop fuel self new_coord_inv max_atoms st = Some st' →
  Forall P (enlarged_struct st').
Proof.
  intros HP. revert st. induction fuel as [|fuel IH]; intros st Hst; [done|].
  cbn [search_loop]. destruct (search_guard max_atoms st); [|by intros [= <-]].
  destruct (supercell_pos st) as [|k rest]; [by intros [= <-]|].
  apply IH. unfold search_body.
  case_bool_decide; [done|]. case_bool_decide; [|done].
  cbn [enlarged_struct]. apply Forall_app. auto.
Qed.

(** The count never passes [max_atoms] by more than one shell. *)
Lemma search_loop_overshoot (fuel : nat) (st st' : search) :
  (0 ≤ max_atoms)%Z →
  (Z.of_nat (length (enlarged_struct st))
   ≤ max_atoms + Z.of_nat (length (cartesian self)))%Z →
  search_loop fuel self new_coord_inv max_atoms st = Some st' →
  (Z.of_nat (length (enlarged_struct st'))
   ≤ max_atoms + Z.of_nat (length (cartesian self)))%Z.
Proof.
  intros Hmax. revert st. induction fuel as [|fuel IH]; intros st Hst; [done|].
  cbn [search_loop].
  destruct (search_guard max_atoms st) eqn:Hg; [|by intros [= <-]].
  destruct (supercell_pos st) as [|k rest]; [by intros [= <-]|].
  apply IH. unfold search_guard in Hg.
  apply andb_true_iff in Hg as [Hlen _]. apply bool_decide_eq_true in Hlen.
  unfold search_body.
  case_bool_decide; [done|]. case_bool_decide; [|done].
  cbn [enlarged_struct]. rewrite length_app.
  pose proof (shifted_inside_length self new_coord_inv k). lia.
Qed.

End SearchInvariants.

(** What a call that returns normally has done. *)
Lemma grow_to_supercell_returns
    (fuel : nat) (lattice_vecs : M33) (max_atoms : Z) (self self' : Structure) :
  grow_to_supercell fuel lattice_vecs max_atoms self = Some (Return tt, self') →
  ∃ new_coord_inv st,
    Mat.inv (Mat.add lattice_vecs (Mat.scale diagonal_offset Mat.identity))
    = Some new_coord_inv
    ∧ search_loop fuel self new_coord_inv max_atoms initial_search = Some st
    ∧ np_unique (enlarged_struct st) ≠ []
    ∧ self'
      = mkStructure (comment self) lattice_vecs
          (sort_by_element (np_unique (enlarged_struct st)))
          (map_position (λ p, Vec.dot p lattice_vecs)
             (sort_by_element (np_unique (enlarged_struct st)))).
Proof.
  unfold grow_to_supercell.
  destruct (Mat.inv _) as [new_coord_inv|]; [|done].
  destruct (search_loop _ _ _ _ _) as [st|] eqn:Hst; [|done].
  intros [= H]. exists new_coord_inv, st. split; [done|]. split; [done|].
  destruct (np_unique (enlarged_struct st)) as [|a arr] eqn:Hu.
  - exfalso. revert H. unfold install_supercell, mbind, method_bind, bind,
      modify, get. cbn [direct set_direct]. rewrite Hu. done.
  - split; [done|]. rewrite install_supercell_nonempty in H by (by rewrite Hu).
    injection H as <-. cbn zeta. by rewrite Hu, sort_by_element_idem.
Qed.

(** X5.  After a growth that returns, every direct record lies in the
    unit cell of the target lattice: each fractional coordinate is in
    [0, 1). *)
Theorem grow_to_supercell_inside_unit_cell
    (fuel : nat) (lattice_vecs : M33) (max_atoms : Z) (self self' : Structure) :
  grow_to_supercell fuel lattice_vecs max_atoms self = Some (Return tt, self') →
  Forall (λ a, valid_direct_vec (position a) = true) (direct self').
Proof.
  intros H. apply grow_to_supercell_returns in H
    as (m & st & _ & Hst & _ & ->). cbn [direct].
  apply Forall_forall. intros a Ha.
  unfold sort_by_element in Ha. rewrite merge_sort_Permutation in Ha.
  rewrite np_unique_elem_of in Ha. revert a Ha. apply Forall_forall.
  apply (search_loop_Forall self m max_atoms _ fuel initial_search st);
    [apply shifted_inside_valid|constructor|exact Hst].
Qed.

Lemma grown_two_atom_cell_computed :
  grow_to_supercell (search_fuel 3) (Mat.cube Num.two) 3 two_atom_cell
  = Some (Return tt, grown_two_atom_cell).
Proof. by vm_compute. Qed.

Lemma grow_to_supercell_inside_unit_cell_witness :
  Forall (λ a, valid_direct_vec (position a) = true) (direct grown_two_atom_cell).
Proof.
  apply (grow_to_supercell_inside_unit_cell (search_fuel 3) (Mat.cube Num.two)
           3 two_atom_cell grown_two_atom_cell).
  by vm_compute.
Defined.

(** X6.  After a growth that returns, every direct record is a periodic
    image of a source record: its element is that of some cartesian
    record of the source, and its position is that record's position
    moved by an integer combination of the source lattice vectors and
    expressed with the inverse of the offset target lattice. *)
Theorem grow_to_supercell_periodic_images
    (fuel : nat) (lattice_vecs : M33) (max_atoms : Z) (self self' : Structure) :
  grow_to_supercell fuel lattice_vecs max_atoms self = Some (Return tt, self') →
  ∃ new_coord_inv,
    Mat.inv (Mat.add lattice_vecs (Mat.scale diagonal_offset Mat.identity))
    = Some new_coord_inv
    ∧ Forall (periodic_image self new_coord_inv) (direct self').
Proof.
  intros H. apply grow_to_supercell_returns in H
    as (m & st & Hm & Hst & _ & ->). cbn [direct].
  exists m. split; [done|].
  apply Forall_forall. intros a Ha.
  unfold sort_by_element in Ha. rewrite merge_sort_Permutation in Ha.
  rewrite np_unique_elem_of in Ha. revert a Ha. apply Forall_forall.
  apply (search_loop_Forall self m max_atoms _ fuel initial_search st);
    [apply shifted_inside_image|constructor|exact Hst].
Qed.

Lemma grow_to_supercell_periodic_images_witness :
  ∃ new_coord_inv,
    Mat.inv (Mat.add (Mat.cube Num.two) (Mat.scale diagonal_offset Mat.identity))
    = Some new_coord_inv
    ∧ Forall (periodic_image two_atom_cell new_coord_inv)
        (direct grown_two_atom_cell).
Proof.
  apply (grow_to_supercell_periodic_images (search_fuel 3) (Mat.cube Num.two)
           3 two_atom_cell grown_two_atom_cell).
  by vm_compute.
Defined.

(** X7.  With a non-negative [max_atoms], a growth that returns holds at
    most [max_atoms] plus the number of source atoms: the cap is passed
    by one shell at most. *)
Theorem grow_to_supercell_overshoot
    (fuel : nat) (lattice_vecs : M33) (max_atoms : Z) (self self' : Structure) :
  (0 ≤ max_atoms)%Z →
  grow_to_supercell fuel lattice_vecs max_atoms self = Some (Return tt, self') →
  (Z.of_nat (length (direct self'))
   ≤ max_atoms + Z.of_nat (length (cartesian self)))%Z.
Proof.
  intros Hmax H. apply grow_to_supercell_returns in H
    as (m & st & _ & Hst & _ & ->). cbn [direct].
  unfold sort_by_element. rewrite merge_sort_Permutation.
  pose proof (np_unique_length (enlarged_struct st)).
  assert (Hstart : (Z.of_nat (length (enlarged_struct initial_search))
                    ≤ max_atoms + Z.of_nat (length (cartesian self)))%Z).
  { change (enlarged_struct initial_search) with (@nil atom).
    change (length (@nil atom)) with 0%nat. lia. }
  pose proof (search_loop_overshoot self m max_atoms _ _ _ Hmax Hstart Hst).
  lia.
Qed.

Lemma grow_to_supercell_overshoot_witness :
  (Z.of_nat (length (direct grown_two_atom_cell))
   ≤ 3 + Z.of_nat (length (cartesian two_atom_cell)))%Z.
Proof.
  apply (grow_to_supercell_overshoot (search_fuel 3) (Mat.cube Num.two)
           3 two_atom_cell grown_two_atom_cell).
  - lia.
  - by vm_compute.
Defined.




(** ** More on the region filters *)

Lemma apart_comm (min_dist_dict : gmap (string * string) Qc) (a b : atom) :
  consistent_table min_dist_dict →
  apart_by_safe_distance min_dist_dict a b
  = apart_by_safe_distance min_dist_dict b a.
Proof.
  intros Hc. rewrite !apart_threshold, (threshold_comm _ _ _ Hc).
  destruct (threshold _ _ _); [apply norm_ge_sub_comm | done].
Qed.

Lemma table_XX_consistent : consistent_table table_XX.
Proof.
  intros e1 e2 d1 d2. unfold table_XX.
  rewrite !lookup_insert_Some, !lookup_empty.
  intros [[_ <-] | [_ [=]]] [[_ <-] | [_ [=]]]. done.
Qed.

Section MoreRegions.

Variable min_dist_dict : gmap (string * string) Qc.

Local Abbreviation apart := (apart_by_safe_distance min_dist_dict).

Lemma sift_removed_conflict (reg : list atom) (x : atom) :
  x ∈ reg → x ∉ sift min_dist_dict reg →
  ∃ s, s ∈ sift min_dist_dict reg ∧ apart x s = false.
Proof.
  funelim (sift min_dist_dict reg); simp sift; [by intros ?%elem_of_nil|].
  rewrite !elem_of_cons. intros [-> | Hx] Hout; [tauto|].
  destruct (apart x atm) eqn:Hsafe.
  - destruct (H x) as (s & Hs & Hconf).
    + apply list_elem_of_In, List.filter_In. split; [by apply list_elem_of_In|done].
    + tauto.
    + exists s. rewrite elem_of_cons. auto.
  - exists atm. rewrite elem_of_cons. auto.
Qed.

(** X12.  No atom is removed without cause: every atom of the region
    that is missing from the result is too close to some atom that the
    result keeps. *)
Theorem remove_collision_within_region_conflict (reg : list atom) :
  ∃ out,
    remove_collision_within_region reg min_dist_dict = Some out
    ∧ ∀ x, x ∈ reg → x ∉ out → ∃ s, s ∈ out ∧ apart x s = false.
Proof.
  exists (sift min_dist_dict reg).
  split; [apply remove_collision_within_region_sift|].
  intros x. apply sift_removed_conflict.
Qed.

Lemma ordered_safe_lookup (reg : list atom) (i j : nat) (a b : atom) :
  ordered_safe min_dist_dict reg → (i < j)%nat →
  reg !! i = Some a → reg !! j = Some b → apart b a = true.
Proof.
  revert i j. induction reg as [|c reg IH]; intros i j Hs Hij Hi Hj; [done|].
  destruct Hs as [Hc Hreg].
  destruct j as [|j]; [lia|]. cbn in Hj. destruct i as [|i].
  - cbn in Hi. injection Hi as ->.
    rewrite Forall_forall in Hc. apply Hc. by eapply list_elem_of_lookup_2.
  - cbn in Hi. eapply (IH i j); [done|lia|done|done].
Qed.

(** X13.  On a table that lists no pair in both orders with different
    thresholds, the result is free of collisions: any two of its atoms,
    taken in either order, are at a safe distance. *)
Theorem remove_collision_within_region_collision_free (reg : list atom) :
  consistent_table min_dist_dict →
  ∃ out,
    remove_collision_within_region reg min_dist_dict = Some out
    ∧ ∀ i j a b, i ≠ j → out !! i = Some a → out !! j = Some b →
                 apart a b = true.
Proof.
  intros Hc. exists (sift min_dist_dict reg).
  split; [apply remove_collision_within_region_sift|].
  intros i j a b Hij Hi Hj.
  pose proof (sift_ordered_safe min_dist_dict reg) as Hs.
  destruct (decide (i < j)%nat).
  - rewrite (apart_comm _ _ _ Hc). by eapply (ordered_safe_lookup _ i j).
  - eapply (ordered_safe_lookup _ j i); [done|lia|done|done].
Qed.

(** X14.  Pruning against two fixed regions one after the other is
    pruning against their concatenation, and the order of the fixed
    atoms does not matter. *)
Theorem remove_collision_between_regions_compose
    (fixed_1 fixed_2 pruned : list atom) :
  remove_collision_between_regions (fixed_1 ++ fixed_2) pruned min_dist_dict
  = remove_collision_between_regions fixed_2
      (remove_collision_between_regions fixed_1 pruned min_dist_dict)
      min_dist_dict
  ∧ remove_collision_between_regions (fixed_2 ++ fixed_1) pruned min_dist_dict
    = remove_collision_between_regions (fixed_1 ++ fixed_2) pruned min_dist_dict.
Proof.
  unfold remove_collision_between_regions, remove_collision_between_regions_env.
  rewrite !between_loop_filter. cbn [env_reg_2].
  rewrite filter_filter_andb. split.
  - apply List.filter_ext. intros x. apply forallb_app.
  - apply List.filter_ext. intros x. rewrite !forallb_app. apply andb_comm.
Qed.

End MoreRegions.

Lemma remove_collision_within_region_collision_free_witness :
  ∃ out,
    remove_collision_within_region chain table_XX = Some out
    ∧ ∀ i j a b, i ≠ j → out !! i = Some a → out !! j = Some b →
                 apart_by_safe_distance table_XX a b = true.
Proof.
  apply (remove_collision_within_region_collision_free table_XX chain).
  apply table_XX_consistent.
Defined.

Lemma apart_no_threshold (min_dist_dict : gmap (string * string) Qc) (a b : atom) :
  threshold min_dist_dict (element a) (element b) = None →
  apart_by_safe_distance min_dist_dict a b = true.
Proof. intros H. by rewrite apart_threshold, H. Qed.

Lemma sift_unconstrained (min_dist_dict : gmap (string * string) Qc)
    (reg : list atom) :
  (∀ a b, a ∈ reg → b ∈ reg →
          threshold min_dist_dict (element a) (element b) = None) →
  sift min_dist_dict reg = reg.
Proof.
  induction reg as [|a reg IH]; simp sift; [done|]. intros H.
  rewrite filter_id.
  - f_equal. apply IH. intros x y Hx Hy. apply H; by right.
  - apply Forall_forall. intros x Hx. apply apart_no_threshold.
    apply H; [by right | by left].
Qed.

(** X15.  Atoms whose element pairs have no entry in the table, in
    either order, are never removed: a region all of whose pairs are
    unconstrained comes back unchanged, and so does a pruned region
    unconstrained against the fixed one. *)
Theorem unconstrained_regions_unchanged
    (min_dist_dict : gmap (string * string) Qc) (reg fixed : list atom) :
  (∀ a b, a ∈ reg → b ∈ reg ++ fixed →
          threshold min_dist_dict (element a) (element b) = None) →
  remove_collision_within_region reg min_dist_dict = Some reg
  ∧ remove_collision_between_regions fixed reg min_dist_dict = reg.
Proof.
  intros H. split.
  - rewrite remove_collision_within_region_sift. f_equal.
    apply sift_unconstrained. intros a b Ha Hb. apply H; [done|].
    apply elem_of_app. by left.
  - unfold remove_collision_between_regions, remove_collision_between_regions_env.
    rewrite between_loop_filter. cbn [env_reg_2]. apply filter_id.
    apply Forall_forall. intros x Hx. apply forallb_forall. intros s Hs.
    apply apart_no_threshold, H; [done|].
    apply elem_of_app. right. by apply list_elem_of_In.
Qed.

Lemma unconstrained_regions_unchanged_witness :
  remove_collision_within_region chain ∅ = Some chain
  ∧ remove_collision_between_regions chain chain ∅ = chain.
Proof.
  apply (unconstrained_regions_unchanged ∅ chain chain).
  intros a b _ _. unfold threshold. by rewrite !lookup_empty.
Defined.

(** ** More on combining *)

Lemma combine_structures_distinct
    (heap : gmap nat Structure) (struct_1 struct_2 : nat) (s1 s2 : Structure) :
  struct_1 ≠ struct_2 →
  heap !! struct_1 = Some s1 →
  heap !! struct_2 = Some s2 →
  combine_structures struct_1 struct_2 heap
  = Some (Return struct_1,
          <[struct_1 :=
              let arr := sort_by_element
                           (halve_z (direct s1) ++ raise_z (halve_z (direct s2))) in
              mkStructure (comment s1 +:+ "_" +:+ comment s2)
                (double_row2 (coordinates s1)) arr
                (map_position (λ p, Vec.dot p (double_row2 (coordinates s1))) arr)]>
            (<[struct_2 := set_direct (raise_z (halve_z (direct s2))) s2]> heap)).
Proof.
  intros Hne H1 H2. unfold combine_structures.
  rewrite (update_Some _ _ _ _ H1). cbn [mbind option_bind].
  rewrite (update_Some struct_2 _ _ s2) by (by rewrite lookup_insert_ne).
  cbn [mbind option_bind].
  rewrite (update_Some struct_2 _ _ _ (lookup_insert_eq _ _ _)).
  cbn [mbind option_bind].
  rewrite insert_insert_eq, lookup_insert_eq. cbn [mbind option_bind].
  erewrite (update_Some struct_1)
    by (rewrite lookup_insert_ne by done; apply lookup_insert_eq).
  cbn [mbind option_bind].
  rewrite (update_Some struct_1 _ _ _ (lookup_insert_eq _ _ _)).
  cbn [mbind option_bind].
  rewrite insert_insert_eq, lookup_insert_ne, lookup_insert_eq by done.
  cbn [mbind option_bind].
  rewrite (update_Some struct_1 _ _ _ (lookup_insert_eq _ _ _)).
  cbn [mbind option_bind].
  rewrite insert_insert_eq, lookup_insert_eq. cbn [mbind option_bind].
  rewrite reconcile_D.
  cbn [set_direct set_comment set_coordinates direct comment coordinates cartesian].
  rewrite insert_insert_eq.
  rewrite (insert_insert_ne _ struct_2 struct_1) by done.
  by rewrite insert_insert_eq.
Qed.

(** X10.  For two distinct references, the call leaves the second
    structure with its direct records halved and raised along z and its
    cartesian records and lattice as before the call, so no longer in
    step; every other object of the store is untouched. *)
Theorem combine_structures_struct_2
    (heap : gmap nat Structure) (struct_1 struct_2 : nat) (s1 s2 : Structure) :
  struct_1 ≠ struct_2 →
  heap !! struct_1 = Some s1 →
  heap !! struct_2 = Some s2 →
  ∃ heap',
    combine_structures struct_1 struct_2 heap = Some (Return struct_1, heap')
    ∧ heap' !! struct_2
      = Some (mkStructure (comment s2) (coordinates s2)
                (raise_z (halve_z (direct s2))) (cartesian s2))
    ∧ ∀ other, other ≠ struct_1 → other ≠ struct_2 →
               heap' !! other = heap !! other.
Proof.
  intros Hne H1 H2. eexists.
  split; [by apply (combine_structures_distinct heap _ _ s1 s2)|]. split.
  - by rewrite lookup_insert_ne, lookup_insert_eq.
  - intros other Ho1 Ho2. by rewrite !lookup_insert_ne.
Qed.

Lemma combine_structures_struct_2_witness :
  ∃ heap',
    combine_structures 1 2 two_cells = Some (Return 1%nat, heap')
    ∧ heap' !! 2%nat
      = Some (mkStructure (comment (one_atom_cell Vec.zero))
                (coordinates (one_atom_cell Vec.zero))
                (raise_z (halve_z (direct (one_atom_cell Vec.zero))))
                (cartesian (one_atom_cell Vec.zero)))
    ∧ ∀ other, other ≠ 1%nat → other ≠ 2%nat →
               heap' !! other = two_cells !! other.
Proof.
  apply (combine_structures_struct_2 two_cells 1 2 two_atom_cell
           (one_atom_cell Vec.zero)).
  - lia.
  - reflexivity.
  - reflexivity.
Defined.

Lemma half_of_unit (z : Qc) : 0 ≤ z → z < 1 → 0 ≤ z / Num.two ∧ z / Num.two < Num.half.
Proof.
  intros H0 H1.
  assert (Hz : z / Num.two = z * Num.half).
  { unfold Qcdiv. f_equal; try (apply Qc_is_canon; reflexivity). }
  rewrite Hz. clear Hz. revert H0 H1.
  unfold Qcle, Qclt, Qcmult, Num.half, Num.frac, Q2Qc. cbn [this].
  rewrite !Qred_correct. intros H0 H1. split; lra.
Qed.

Lemma raised_half_of_unit (z : Qc) :
  0 ≤ z → z < 1 →
  Num.half ≤ z / Num.two + Num.half ∧ z / Num.two + Num.half < 1.
Proof.
  intros H0 H1.
  assert (Hz : z / Num.two = z * Num.half).
  { unfold Qcdiv. f_equal; try (apply Qc_is_canon; reflexivity). }
  rewrite Hz. clear Hz. revert H0 H1.
  unfold Qcle, Qclt, Qcplus, Qcmult, Num.half, Num.frac, Q2Qc. cbn [this].
  rewrite !Qred_correct. intros H0 H1. split; lra.
Qed.

(** X11.  When the fractional z coordinates of both structures lie in
    [0, 1), the combined structure holds the records of the first in the
    lower half, z in [0, 1/2), and those of the second in the upper half,
    z in [1/2, 1), with x, y and the elements as they were; the atom
    counts add up. *)
Theorem combine_structures_stacks
    (heap : gmap nat Structure) (struct_1 struct_2 : nat) (s1 s2 : Structure) :
  struct_1 ≠ struct_2 →
  heap !! struct_1 = Some s1 →
  heap !! struct_2 = Some s2 →
  Forall (z_within 0 1) (direct s1) →
  Forall (z_within 0 1) (direct s2) →
  ∃ heap' s1',
    combine_structures struct_1 struct_2 heap = Some (Return struct_1, heap')
    ∧ heap' !! struct_1 = Some s1'
    ∧ direct s1' ≡ₚ halve_z (direct s1) ++ raise_z (halve_z (direct s2))
    ∧ Forall (z_within 0 Num.half) (halve_z (direct s1))
    ∧ Forall (z_within Num.half 1) (raise_z (halve_z (direct s2)))
    ∧ length (direct s1') = (length (direct s1) + length (direct s2))%nat.
Proof.
  intros Hne H1 H2 Hz1 Hz2. eexists _, _.
  split; [by apply (combine_structures_distinct heap _ _ s1 s2)|].
  split; [apply lookup_insert_eq|]. cbn [direct].
  split; [apply merge_sort_Permutation|].
  split; [|split].
  - unfold halve_z, map_position. apply Forall_fmap.
    eapply Forall_impl; [exact Hz1|]. intros [[x y z] e] [H0 Hlt].
    unfold z_within in *. cbn [position vz set_position] in *.
    by apply half_of_unit.
  - unfold raise_z, halve_z. rewrite map_position_compose.
    unfold map_position. apply Forall_fmap.
    eapply Forall_impl; [exact Hz2|]. intros [[x y z] e] [H0 Hlt].
    unfold z_within in *. cbn [position vz set_position compose] in *.
    by apply raised_half_of_unit.
  - unfold sort_by_element. rewrite merge_sort_Permutation, length_app.
    unfold raise_z, halve_z. by rewrite !map_position_length.
Qed.

Lemma combine_structures_stacks_witness :
  ∃ heap' s1',
    combine_structures 1 2 two_cells = Some (Return 1%nat, heap')
    ∧ heap' !! 1%nat = Some s1'
    ∧ direct s1'
      ≡ₚ halve_z (direct two_atom_cell)
         ++ raise_z (halve_z (direct (one_atom_cell Vec.zero)))
    ∧ Forall (z_within 0 Num.half) (halve_z (direct two_atom_cell))
    ∧ Forall (z_within Num.half 1)
        (raise_z (halve_z (direct (one_atom_cell Vec.zero))))
    ∧ length (direct s1')
      = (length (direct two_atom_cell)
         + length (direct (one_atom_cell Vec.zero)))%nat.
Proof.
  apply (combine_structures_stacks two_cells 1 2 two_atom_cell
           (one_atom_cell Vec.zero)).
  - lia.
  - reflexivity.
  - reflexivity.
  - repeat constructor; by apply (bool_decide_unpack _).
  - repeat constructor; by apply (bool_decide_unpack _).
Defined.

(** ** The boundary passes *)

(** Neither atom is near the interface plane: nothing is removed. *)
Example interface_far_atoms :
  (r ← remove_collision_on_interface no_shuffle (Num.frac 2 100) table_XX
         false tt (z_pair (Num.frac 1 100));
   Some (fst (fst r), length (cartesian (snd (fst r)))))
  = Some (Return 0%Z, 2%nat).
Proof. by vm_compute. Qed.

(** Two atoms facing each other across the periodic boundary along z:
    one is removed, and it is the one in the bottom slab. *)
Example surface_pair_removes_bottom :
  (r ← remove_collision_surface_pair no_shuffle (Num.frac 1 100) table_XX
         (mkV3 0 0 1) false tt (z_pair (Num.frac 999 1000));
   Some (fst (fst r), (λ a, this (vz (position a))) <$> direct (snd (fst r))))
  = Some (Return 1%Z, [(999 # 1000)%Q]).
Proof. by vm_compute. Qed.

(** *** Masks *)

Lemma mask_split (arr : list atom) (mask : list bool) :
  length mask = length arr →
  mask_index arr mask ++ mask_index arr (logical_not mask) ≡ₚ arr.
Proof.
  revert mask. induction arr as [|a arr IH]; intros [|b mask] Hlen; try done.
  injection Hlen as Hlen. unfold logical_not in *. cbn [mask_index fmap list_fmap].
  fold (fmap negb mask). destruct b; cbn [negb].
  - cbn [app]. by rewrite IH.
  - rewrite <- Permutation_middle. by rewrite IH.
Qed.

Lemma mask_split3 (arr : list atom) (m1 m2 : list bool) :
  length m1 = length arr → length m2 = length arr →
  Forall2 (λ x y, x && y = false) m1 m2 →
  mask_index arr m1 ++ mask_index arr m2
  ++ mask_index arr (logical_not (logical_or m1 m2)) ≡ₚ arr.
Proof.
  intros H1 H2 Hd. revert arr H1 H2.
  induction Hd as [|x y m1 m2 Hxy Hd IH]; intros [|a arr] H1 H2; try done.
  injection H1 as H1. injection H2 as H2. specialize (IH arr H1 H2).
  unfold logical_not, logical_or in *.
  cbn [mask_index zip_with fmap list_fmap]. fold (fmap negb (zip_with orb m1 m2)).
  destruct x, y; try done; cbn [orb negb app].
  - by rewrite IH.
  - rewrite <- Permutation_middle. by rewrite IH.
  - rewrite (assoc_L (++)), <- Permutation_middle, <- (assoc_L (++)).
    by rewrite IH.
Qed.

Lemma mask_index_elem_of (arr : list atom) (mask : list bool) (i : nat) (c : atom) :
  arr !! i = Some c → mask !! i = Some true → c ∈ mask_index arr mask.
Proof.
  revert mask i. induction arr as [|a arr IH]; intros [|b mask] [|i]; try done;
    cbn [mask_index]; cbn.
  - intros [= ->] [= ->]. left.
  - intros Hi Hm. destruct b; [right|]; by eapply IH.
Qed.

Lemma mask_index_sublist (arr : list atom) (mask : list bool) :
  mask_index arr mask `sublist_of` arr.
Proof.
  revert mask. induction arr as [|a arr IH]; intros [|b mask]; cbn [mask_index];
    try done; [apply sublist_nil_l|].
  destruct b; constructor; apply IH.
Qed.

Lemma checked_mask_index_ok (arr : list atom) (mask : list bool) :
  length mask = length arr →
  checked_mask_index arr mask = Return (mask_index arr mask).
Proof. intros H. unfold checked_mask_index. by rewrite bool_decide_eq_true_2. Qed.

Lemma reconciled_inverse_image (c : string) (m : M33) (arr : list atom) :
  Mat.det m ≠ 0 →
  reconciled
    (mkStructure c m (map_position (λ p, Vec.dot p (Mat.adj_div m)) arr) arr).
Proof.
  intros Hdet. unfold reconciled, map_position. cbn [cartesian direct coordinates].
  induction arr as [|a arr IH]; csimpl; constructor; [|done].
  cbn [position element set_position]. split; [|done].
  symmetry. exact (dot_adj_div m (position a) Hdet).
Qed.

Lemma mask_index_filter {B} (P : atom → bool) (f : B → bool)
    (arr : list atom) (dir : list B) :
  Forall2 (λ c d, P c = f d) arr dir →
  mask_index arr (f <$> dir) = List.filter P arr.
Proof.
  induction 1 as [|c d arr dir Hcd _ IH]; [done|].
  cbn [mask_index fmap list_fmap List.filter]. fold (fmap f dir).
  rewrite Hcd, IH. done.
Qed.

Lemma mask_index_filter_not {B} (P : atom → bool) (f : B → bool)
    (arr : list atom) (dir : list B) :
  Forall2 (λ c d, P c = f d) arr dir →
  mask_index arr (logical_not (f <$> dir)) = List.filter (λ c, negb (P c)) arr.
Proof.
  intros H. unfold logical_not. rewrite <- list_fmap_compose.
  apply mask_index_filter. eapply Forall2_impl; [exact H|].
  intros c d Hcd. cbn. by rewrite Hcd.
Qed.

(** On a reconciled structure the direct position of a record is the
    fractional position of its cartesian record. *)
Lemma reconciled_fractional (self : Structure) :
  reconciled self → Mat.det (coordinates self) ≠ 0 →
  Forall2 (λ c d, fractional (coordinates self) c = position d)
    (cartesian self) (direct self).
Proof.
  intros Hrec Hdet. eapply Forall2_impl; [exact Hrec|].
  intros c d [Hpos _]. unfold fractional. rewrite Hpos.
  by apply dot_adj_div_r.
Qed.

Lemma filter_elem_of {A} (p : A → bool) (l : list A) (x : A) :
  x ∈ List.filter p l ↔ x ∈ l ∧ p x = true.
Proof. rewrite !list_elem_of_In. apply List.filter_In. Qed.

(** A property of pairs at distinct places does not depend on the order
    of the list, and passes to a part of it. *)
Lemma pairwise_Permutation {A} (R : A → A → Prop) (l k : list A) :
  l ≡ₚ k → pairwise R k → pairwise R l.
Proof.
  intros (_ & f & Hinj & Hf)%Permutation_inj Hk i j a b Hij Hi Hj.
  rewrite Hf in Hi, Hj. apply (Hk (f i) (f j)); [|done..].
  intros Heq. by apply Hij, Hinj.
Qed.

Lemma pairwise_submseteq {A} (R : A → A → Prop) (l k : list A) :
  l ⊆+ k → pairwise R k → pairwise R l.
Proof.
  intros [k' Hk]%submseteq_Permutation Hpair.
  apply (pairwise_Permutation R _ _ (symmetry Hk)) in Hpair.
  intros i j a b Hij Hi Hj.
  apply (Hpair i j); [done|by apply lookup_app_l_Some..].
Qed.

Lemma sift_pairwise (min_dist_dict : gmap (string * string) Qc)
    (reg : list atom) (i j : nat) (a b : atom) :
  consistent_table min_dist_dict → i ≠ j →
  sift min_dist_dict reg !! i = Some a →
  sift min_dist_dict reg !! j = Some b →
  apart_by_safe_distance min_dist_dict a b = true.
Proof.
  intros Hc Hij Hi Hj.
  pose proof (sift_ordered_safe min_dist_dict reg) as Hs.
  destruct (decide (i < j)%nat).
  - rewrite (apart_comm _ _ _ Hc). by eapply (ordered_safe_lookup _ _ i j).
  - eapply (ordered_safe_lookup _ _ j i); [done|lia|done|done].
Qed.

(** In a list made of records outside a class followed by records that
    are pairwise related, any two records of the class are related. *)
Lemma pairwise_in_class (P : atom → Prop) (R : atom → atom → Prop)
    (l outside kept : list atom) :
  l ≡ₚ outside ++ kept →
  Forall (λ c, ¬ P c) outside →
  pairwise R kept →
  pairwise (λ a b, P a → P b → R a b) l.
Proof.
  intros Hperm Hout Hkept.
  apply (pairwise_Permutation (λ a b, P a → P b → R a b) _ _ Hperm).
  intros i j a b Hij Hi Hj Pa Pb. rewrite Forall_forall in Hout.
  apply lookup_app_Some in Hi as [Hi | [Hli Hi]];
    [exfalso; eapply Hout; [by eapply list_elem_of_lookup_2|done]|].
  apply lookup_app_Some in Hj as [Hj | [Hlj Hj]];
    [exfalso; eapply Hout; [by eapply list_elem_of_lookup_2|done]|].
  eapply (Hkept (i - length outside)%nat (j - length outside)%nat);
    [lia|done|done].
Qed.

(** *** Slabs and translations *)

Ltac qc_unfold :=
  repeat (progress (unfold Num.half, Num.frac, Qcle, Qclt, Qcplus, Qcminus,
                      Qcopp, Q2Qc in *;
                    cbn [this] in *; rewrite ?Qred_correct in * )).

Lemma slab_test_spec (centre r x : Qc) :
  Num.ltb x (centre + r) && Num.ltb (centre - r) x = true ↔ in_slab centre r x.
Proof. unfold in_slab. rewrite andb_true_iff, !ltb_lt. tauto. Qed.

(** With a radius of at most 1/2 the slabs around 0 and 1 do not meet. *)
Lemma slabs_disjoint (r x : Qc) :
  r ≤ Num.half → in_slab 0 r x → in_slab 1 r x → False.
Proof.
  unfold in_slab. intros Hr [_ H1] [H2 _]. qc_unfold. lra.
Qed.

Lemma add_sub_cancel (p c : V3) : Vec.add (Vec.sub p c) c = p.
Proof. destruct p, c. unfold Vec.add, Vec.sub. cbn. f_equal; ring. Qed.

Lemma sub_add_cancel (p c : V3) : Vec.sub (Vec.add p c) c = p.
Proof. destruct p, c. unfold Vec.add, Vec.sub. cbn. f_equal; ring. Qed.

Lemma sub_add_add (p q c : V3) :
  Vec.sub (Vec.add p c) (Vec.add q c) = Vec.sub p q.
Proof. destruct p, q, c. unfold Vec.add, Vec.sub. cbn. f_equal; ring. Qed.

(** The test depends on the difference of the positions only. *)
Lemma apart_translate (min_dist_dict : gmap (string * string) Qc)
    (a b : atom) (c : V3) :
  apart_by_safe_distance min_dist_dict
    (set_position (Vec.add (position a) c) a)
    (set_position (Vec.add (position b) c) b)
  = apart_by_safe_distance min_dist_dict a b.
Proof.
  unfold apart_by_safe_distance, set_position. cbn [position element].
  by rewrite sub_add_add.
Qed.

Lemma ordered_safe_translate (min_dist_dict : gmap (string * string) Qc)
    (c : V3) (reg : list atom) :
  ordered_safe min_dist_dict reg →
  ordered_safe min_dist_dict (map_position (λ p, Vec.add p c) reg).
Proof.
  unfold map_position. induction reg as [|a reg IH]; [done|].
  intros [Ha Hreg]. csimpl. split; [|by apply IH].
  apply Forall_fmap. eapply Forall_impl; [exact Ha|].
  intros x Hx. cbn. by rewrite apart_translate.
Qed.

Lemma ordered_safe_sublist (min_dist_dict : gmap (string * string) Qc)
    (k l : list atom) :
  k `sublist_of` l → ordered_safe min_dist_dict l →
  ordered_safe min_dist_dict k.
Proof.
  induction 1 as [|x k l Hkl IH|x k l Hkl IH]; [done|..]; intros [Hx Hl].
  - split; [|by apply IH]. rewrite Forall_forall in *.
    intros y Hy. apply Hx. by eapply elem_of_sublist.
  - by apply IH.
Qed.

Lemma ordered_safe_pairwise (min_dist_dict : gmap (string * string) Qc)
    (reg : list atom) (i j : nat) (a b : atom) :
  consistent_table min_dist_dict → ordered_safe min_dist_dict reg → i ≠ j →
  reg !! i = Some a → reg !! j = Some b →
  apart_by_safe_distance min_dist_dict a b = true.
Proof.
  intros Hc Hs Hij Hi Hj. destruct (decide (i < j)%nat).
  - rewrite (apart_comm _ _ _ Hc). by eapply (ordered_safe_lookup _ _ i j).
  - eapply (ordered_safe_lookup _ _ j i); [done|lia|done|done].
Qed.

Lemma logical_or_fmap {B} (f g : B → bool) (l : list B) :
  logical_or (f <$> l) (g <$> l) = (λ x, f x || g x) <$> l.
Proof.
  unfold logical_or. induction l as [|x l IH]; [done|]. csimpl. by rewrite IH.
Qed.

Lemma map_position_sublist (f : V3 → V3) (k l : list atom) :
  k `sublist_of` l → map_position f k `sublist_of` map_position f l.
Proof. apply fmap_sublist. Qed.

Lemma between_regions_filter (min_dist_dict : gmap (string * string) Qc)
    (reg_1 reg_2 : list atom) :
  remove_collision_between_regions reg_1 reg_2 min_dist_dict
  = List.filter
      (λ x, forallb (λ s, apart_by_safe_distance min_dist_dict x s) reg_1)
      reg_2.
Proof.
  unfold remove_collision_between_regions, remove_collision_between_regions_env.
  by rewrite between_loop_filter.
Qed.

(** A relation on pairs at distinct places of a list in three parts. *)
Lemma pairwise_three {A} (R : A → A → Prop) (l0 l1 l2 : list A) :
  (∀ a b, a ∈ l0 → R a b ∧ R b a) →
  pairwise R l1 →
  pairwise R l2 →
  (∀ a b, a ∈ l1 → b ∈ l2 → R a b ∧ R b a) →
  pairwise R ((l0 ++ l1) ++ l2).
Proof.
  intros H0 H1 H2 H12 i j a b Hij Hi Hj.
  apply lookup_app_Some in Hi as [Hi | [Hli Hi]];
    [apply lookup_app_Some in Hi as [Hi | [Hli Hi]]|];
  (apply lookup_app_Some in Hj as [Hj | [Hlj Hj]];
    [apply lookup_app_Some in Hj as [Hj | [Hlj Hj]]|]);
  pose proof (list_elem_of_lookup_2 _ _ _ Hi) as Ha;
  pose proof (list_elem_of_lookup_2 _ _ _ Hj) as Hb.
  - by destruct (H0 a b Ha).
  - by destruct (H0 a b Ha).
  - by destruct (H0 a b Ha).
  - by destruct (H0 b a Hb).
  - eapply (H1 (i - length l0)%nat (j - length l0)%nat); [lia|done..].
  - by destruct (H12 a b Ha Hb).
  - by destruct (H0 b a Hb).
  - by destruct (H12 b a Hb Ha).
  - eapply (H2 (i - length (l0 ++ l1))%nat (j - length (l0 ++ l1))%nat);
      [lia|done..].
Qed.

Lemma set_position_back (a : atom) (c : V3) :
  set_position
    (Vec.sub (position (set_position (Vec.add (position a) c) a)) c)
    (set_position (Vec.add (position a) c) a)
  = a.
Proof.
  destruct a as [p e]. unfold set_position. cbn [position element].
  by rewrite sub_add_cancel.
Qed.

(** *** Atoms the table does not constrain *)

Lemma threshold_None_comm (min_dist_dict : gmap (string * string) Qc)
    (e1 e2 : string) :
  threshold min_dist_dict e1 e2 = None → threshold min_dist_dict e2 e1 = None.
Proof.
  unfold threshold.
  destruct (min_dist_dict !! (e1, e2)) eqn:H1; [done|].
  intros H2. by rewrite H2.
Qed.

Lemma sift_keeps (min_dist_dict : gmap (string * string) Qc)
    (reg : list atom) (x : atom) :
  x ∈ reg →
  (∀ s, s ∈ reg → threshold min_dist_dict (element x) (element s) = None) →
  x ∈ sift min_dist_dict reg.
Proof.
  intros Hx Hfree. destruct (decide (x ∈ sift min_dist_dict reg)) as [|Hout];
    [done|].
  destruct (sift_removed_conflict min_dist_dict reg x Hx Hout)
    as (s & Hs & Hconf).
  rewrite apart_no_threshold in Hconf; [done|].
  apply Hfree. eapply elem_of_sublist; [exact Hs|apply sift_sublist].
Qed.

Lemma between_regions_keeps (min_dist_dict : gmap (string * string) Qc)
    (reg_1 reg_2 : list atom) (x : atom) :
  x ∈ reg_2 →
  (∀ s, s ∈ reg_1 → threshold min_dist_dict (element x) (element s) = None) →
  x ∈ remove_collision_between_regions reg_1 reg_2 min_dist_dict.
Proof.
  intros Hx Hfree. rewrite between_regions_filter.
  apply filter_elem_of. split; [done|]. apply forallb_forall.
  intros s Hs. apply apart_no_threshold, Hfree. by apply list_elem_of_In.
Qed.

Lemma map_position_element (f : V3 → V3) (arr : list atom) (s' : atom) :
  s' ∈ map_position f arr → ∃ s, s ∈ arr ∧ element s' = element s.
Proof.
  intros (s & -> & Hs)%list_elem_of_fmap. by exists s.
Qed.

Lemma elem_of_masks (arr : list atom) (m1 m2 : list bool) (c : atom) :
  length m1 = length arr → length m2 = length arr → c ∈ arr →
  c ∈ mask_index arr m1 ∨ c ∈ mask_index arr m2
  ∨ c ∈ mask_index arr (logical_not (logical_or m1 m2)).
Proof.
  intros H1 H2 [i Hi]%list_elem_of_lookup.
  pose proof (lookup_lt_Some _ _ _ Hi) as Hlt.
  destruct (lookup_lt_is_Some_2 m1 i) as [b1 Hb1]; [lia|].
  destruct (lookup_lt_is_Some_2 m2 i) as [b2 Hb2]; [lia|].
  destruct b1; [left; by eapply mask_index_elem_of|].
  destruct b2; [right; left; by eapply mask_index_elem_of|].
  right; right. eapply mask_index_elem_of; [done|].
  unfold logical_not, logical_or.
  by rewrite list_lookup_fmap, lookup_zip_with, Hb1, Hb2.
Qed.

Section PassProperties.

Context {rng : Type} (shuffle : rng → list atom → rng * list atom).

Hypothesis shuffle_perm : ∀ g arr, snd (shuffle g arr) ≡ₚ arr.

Lemma shuffle_if_perm (random_delete : bool) (g : rng) (arr : list atom) :
  snd (shuffle_if shuffle random_delete g arr) ≡ₚ arr.
Proof. unfold shuffle_if. destruct random_delete; [apply shuffle_perm|done]. Qed.

(** What the common end of the passes does on an invertible lattice. *)
Lemma finish_pass_ok (orig : Z) (g : rng) (self : Structure) :
  Mat.det (coordinates self) ≠ 0 →
  finish_pass orig g self
  = (Return (orig - Z.of_nat (length (cartesian self)))%Z,
     mkStructure (comment self) (coordinates self)
       (map_position (λ p, Vec.dot p (Mat.adj_div (coordinates self)))
          (sort_by_element (cartesian self)))
       (sort_by_element (cartesian self)),
     g).
Proof.
  intros Hdet. unfold finish_pass.
  rewrite (reconcile_C self _ (inv_is_Some _ Hdet)). cbn [cartesian].
  assert (length (sort_by_element (cartesian self)) = length (cartesian self))
    as -> by apply Permutation_length, merge_sort_Permutation.
  done.
Qed.

Lemma finish_pass_facts (orig : Z) (g : rng) (self : Structure)
    (original : list atom) :
  Mat.det (coordinates self) ≠ 0 →
  cartesian self ⊆+ original →
  orig = Z.of_nat (length original) →
  ∃ n self',
    finish_pass orig g self = (Return n, self', g)
    ∧ cartesian self' ≡ₚ cartesian self
    ∧ n = (Z.of_nat (length original) - Z.of_nat (length (cartesian self')))%Z
    ∧ (0 ≤ n)%Z
    ∧ coordinates self' = coordinates self
    ∧ comment self' = comment self
    ∧ reconciled self'.
Proof.
  intros Hdet Hsub ->. eexists _, _. split; [by apply finish_pass_ok|].
  cbn [cartesian coordinates comment].
  assert (sort_by_element (cartesian self) ≡ₚ cartesian self) as Hsort
    by apply merge_sort_Permutation.
  pose proof (submseteq_length _ _ Hsub) as Hle.
  pose proof (Permutation_length Hsort) as Hlen.
  repeat split; [done|by rewrite Hlen|lia|].
  by apply reconciled_inverse_image.
Qed.

(** The interface pass removes atoms of the slab and nothing else. *)
Lemma interface_pass_removes
    (boundary_radius : Qc) (min_dist_dict : gmap (string * string) Qc)
    (random_delete : bool) (g : rng) (self : Structure) :
  length (direct self) = length (cartesian self) →
  Mat.det (coordinates self) ≠ 0 →
  ∃ n self' g',
    remove_collision_on_interface shuffle boundary_radius min_dist_dict
      random_delete g self = Some (Return n, self', g')
    ∧ cartesian self' ⊆+ cartesian self
    ∧ n = (Z.of_nat (length (cartesian self))
           - Z.of_nat (length (cartesian self')))%Z
    ∧ (0 ≤ n)%Z
    ∧ coordinates self' = coordinates self
    ∧ reconciled self'
    ∧ (∀ i c a,
        cartesian self !! i = Some c → direct self !! i = Some a →
        ¬ in_slab Num.half boundary_radius (vz (position a)) →
        c ∈ cartesian self')
    ∧ ∀ c, c ∈ cartesian self →
           (∀ b, b ∈ cartesian self →
              threshold min_dist_dict (element c) (element b) = None) →
           c ∈ cartesian self'.
Proof.
  intros Hlen Hdet. unfold remove_collision_on_interface.
  set (test := λ a : atom,
         Num.ltb (vz (position a)) (Num.half + boundary_radius)
         && Num.ltb (Num.half - boundary_radius) (vz (position a))).
  set (mask := test <$> direct self).
  assert (length mask = length (cartesian self)) as Hmask
    by (unfold mask; by rewrite length_fmap).
  rewrite checked_mask_index_ok by done.
  pose proof (shuffle_if_perm random_delete g
                (mask_index (cartesian self) mask)) as Hperm.
  destruct (shuffle_if shuffle random_delete g _) as [g' iface_atoms].
  cbn [snd] in Hperm.
  rewrite checked_mask_index_ok by (unfold logical_not; by rewrite length_fmap).
  rewrite remove_collision_within_region_sift.
  cbn [mbind option_bind].
  set (rest := mask_index (cartesian self) (logical_not mask)).
  set (kept := sift min_dist_dict iface_atoms).
  unfold set_cartesian, set_direct. cbn [cartesian direct coordinates comment].
  set (self1 := mkStructure _ _ _ _).
  assert (cartesian self1 ⊆+ cartesian self) as Hsub.
  { unfold self1. cbn [cartesian].
    rewrite <- (mask_split (cartesian self) mask Hmask).
    rewrite (comm (++) (mask_index _ mask)). fold rest.
    apply submseteq_skips_l. rewrite <- Hperm.
    apply sublist_submseteq, sift_sublist. }
  destruct (finish_pass_facts (Z.of_nat (length (cartesian self))) g' self1
              (cartesian self) Hdet Hsub eq_refl)
    as (n & self' & -> & Hcart & Hn & Hpos & Hcoord & _ & Hrec).
  exists n, self', g'. repeat split; try done.
  - by rewrite Hcart.
  - intros i c a Hc Ha Hout. rewrite Hcart. unfold self1. cbn [cartesian].
    apply elem_of_app. left. unfold rest.
    apply (mask_index_elem_of _ _ i); [done|].
    unfold logical_not, mask. rewrite !list_lookup_fmap, Ha. cbn. f_equal.
    apply negb_true_iff, not_true_is_false. intros Htest. apply Hout.
    unfold test in Htest. apply andb_true_iff in Htest as [H1 H2].
    apply ltb_lt in H1, H2. by split.
  - intros c Hc Hfree. rewrite Hcart. unfold self1. cbn [cartesian].
    rewrite <- (mask_split (cartesian self) mask Hmask) in Hc.
    apply elem_of_app in Hc as [Hc | Hc]; apply elem_of_app; [right|by left].
    unfold kept. apply sift_keeps; [by rewrite Hperm|].
    intros s Hs. apply Hfree. rewrite Hperm in Hs.
    eapply elem_of_sublist; [exact Hs|apply mask_index_sublist].
Qed.

(** The interface pass leaves the slab free of collisions. *)
Lemma interface_pass_safe
    (boundary_radius : Qc) (min_dist_dict : gmap (string * string) Qc)
    (random_delete : bool) (g : rng) (self : Structure) :
  reconciled self →
  Mat.det (coordinates self) ≠ 0 →
  consistent_table min_dist_dict →
  ∃ n self' g',
    remove_collision_on_interface shuffle boundary_radius min_dist_dict
      random_delete g self = Some (Return n, self', g')
    ∧ interface_safe min_dist_dict (coordinates self) boundary_radius
        (cartesian self').
Proof.
  intros Hrec Hdet Hcons. unfold remove_collision_on_interface.
  set (test := λ p : V3,
         Num.ltb (vz p) (Num.half + boundary_radius)
         && Num.ltb (Num.half - boundary_radius) (vz p)).
  change (λ a : atom, Num.ltb (vz (position a)) (Num.half + boundary_radius)
            && Num.ltb (Num.half - boundary_radius) (vz (position a)))
    with (λ a : atom, test (position a)).
  assert (Forall2 (λ c d, test (fractional (coordinates self) c)
                          = test (position d))
            (cartesian self) (direct self)) as Hmask.
  { eapply Forall2_impl; [by apply reconciled_fractional|].
    by intros c d ->. }
  pose proof (Forall2_length _ _ _ Hmask) as Hlen.
  rewrite checked_mask_index_ok by (by rewrite length_fmap).
  pose proof (shuffle_if_perm random_delete g
                (mask_index (cartesian self)
                   ((λ a, test (position a)) <$> direct self))) as Hperm.
  destruct (shuffle_if shuffle random_delete g _) as [g' iface_atoms].
  cbn [snd] in Hperm.
  rewrite checked_mask_index_ok by (unfold logical_not; by rewrite !length_fmap).
  rewrite remove_collision_within_region_sift. cbn [mbind option_bind].
  rewrite (mask_index_filter_not _ _ _ _ Hmask).
  unfold set_cartesian, set_direct. cbn [cartesian direct coordinates comment].
  rewrite finish_pass_ok by done. cbn [cartesian coordinates comment].
  eexists _, _, _. split; [done|]. unfold interface_safe.
  eapply (pairwise_in_class
            (λ c, in_slab Num.half boundary_radius
                    (vz (fractional (coordinates self) c)))
            (λ a b, apart_by_safe_distance min_dist_dict a b = true)).
  - apply merge_sort_Permutation.
  - apply Forall_forall. intros c [_ Hc]%filter_elem_of [Hlo Hhi].
    apply negb_true_iff in Hc. unfold test in Hc.
    apply andb_false_iff in Hc as [Hc | Hc];
      apply not_true_iff_false in Hc; apply Hc, ltb_lt; done.
  - intros i j a b. by apply sift_pairwise.
Qed.

(** X16.  On a structure with as many direct as cartesian records and an
    invertible lattice, the interface pass returns; it only removes
    atoms, and the count it returns is the number removed; the lattice is
    untouched, the result is reconciled, and every atom whose direct z
    is outside the slab around 1/2 is kept. *)
Theorem remove_collision_on_interface_only_removes
    (boundary_radius : Qc) (min_dist_dict : gmap (string * string) Qc)
    (random_delete : bool) (g : rng) (self : Structure) :
  length (direct self) = length (cartesian self) →
  Mat.det (coordinates self) ≠ 0 →
  ∃ n self' g',
    remove_collision_on_interface shuffle boundary_radius min_dist_dict
      random_delete g self = Some (Return n, self', g')
    ∧ cartesian self' ⊆+ cartesian self
    ∧ n = (Z.of_nat (length (cartesian self))
           - Z.of_nat (length (cartesian self')))%Z
    ∧ (0 ≤ n)%Z
    ∧ coordinates self' = coordinates self
    ∧ reconciled self'
    ∧ ∀ i c a,
        cartesian self !! i = Some c → direct self !! i = Some a →
        ¬ in_slab Num.half boundary_radius (vz (position a)) →
        c ∈ cartesian self'.
Proof.
  intros Hlen Hdet.
  destruct (interface_pass_removes boundary_radius min_dist_dict random_delete
              g self Hlen Hdet)
    as (n & self' & g' & H1 & H2 & H3 & H4 & H5 & H6 & H7 & _).
  by exists n, self', g'.
Qed.


(** *** The surface pair *)

Local Abbreviation slab_mask centre r dir_vec dir :=
  ((λ a : atom, Num.ltb (inner (position a) dir_vec) (centre + r)
                && Num.ltb (centre - r) (inner (position a) dir_vec))
   <$> dir).

(** The pass without its guards, on arrays of equal length. *)
Lemma remove_collision_surface_pair_unfold
    (boundary_radius : Qc) (min_dist_dict : gmap (string * string) Qc)
    (dir_vec : V3) (random_delete : bool) (g : rng) (self : Structure) :
  length (direct self) = length (cartesian self) →
  let coord := Vec.dot dir_vec (coordinates self) in
  let on_btm_idx := slab_mask 0 boundary_radius dir_vec (direct self) in
  let on_top_idx := slab_mask 1 boundary_radius dir_vec (direct self) in
  ∃ g' btm_atoms top_atoms,
    btm_atoms ≡ₚ mask_index (cartesian self) on_btm_idx
    ∧ top_atoms ≡ₚ mask_index (cartesian self) on_top_idx
    ∧ remove_collision_surface_pair shuffle boundary_radius min_dist_dict
        dir_vec random_delete g self
      = let top := sift min_dist_dict
                     (map_position (λ p, Vec.sub p coord) top_atoms) in
        Some (finish_pass (Z.of_nat (length (cartesian self))) g'
                (mkStructure (comment self) (coordinates self) (direct self)
                   ((mask_index (cartesian self)
                       (logical_not (logical_or on_btm_idx on_top_idx))
                     ++ remove_collision_between_regions top
                          (sift min_dist_dict btm_atoms) min_dist_dict)
                    ++ map_position (λ p, Vec.add p coord) top))).
Proof.
  intros Hlen coord on_btm_idx on_top_idx.
  unfold remove_collision_surface_pair. fold on_btm_idx on_top_idx.
  assert (length on_btm_idx = length (cartesian self)) as Hb
    by (unfold on_btm_idx; by rewrite length_fmap).
  assert (length on_top_idx = length (cartesian self)) as Ht
    by (unfold on_top_idx; by rewrite length_fmap).
  rewrite checked_mask_index_ok by done.
  pose proof (shuffle_if_perm random_delete g
                (mask_index (cartesian self) on_btm_idx)) as Hpb.
  destruct (shuffle_if shuffle random_delete g _) as [g1 btm_atoms].
  rewrite checked_mask_index_ok by done.
  pose proof (shuffle_if_perm random_delete g1
                (mask_index (cartesian self) on_top_idx)) as Hpt.
  destruct (shuffle_if shuffle random_delete g1 _) as [g2 top_atoms].
  rewrite checked_mask_index_ok
    by (unfold logical_not, logical_or;
        rewrite length_fmap, length_zip_with; lia).
  rewrite !remove_collision_within_region_sift. cbn [mbind option_bind].
  exists g2, btm_atoms, top_atoms. done.
Qed.

(** The surface-pair pass removes atoms of the two slabs and nothing else. *)
Lemma surface_pair_pass_removes
    (boundary_radius : Qc) (min_dist_dict : gmap (string * string) Qc)
    (dir_vec : V3) (random_delete : bool) (g : rng) (self : Structure) :
  length (direct self) = length (cartesian self) →
  Mat.det (coordinates self) ≠ 0 →
  boundary_radius ≤ Num.half →
  ∃ n self' g',
    remove_collision_surface_pair shuffle boundary_radius min_dist_dict
      dir_vec random_delete g self = Some (Return n, self', g')
    ∧ cartesian self' ⊆+ cartesian self
    ∧ n = (Z.of_nat (length (cartesian self))
           - Z.of_nat (length (cartesian self')))%Z
    ∧ (0 ≤ n)%Z
    ∧ coordinates self' = coordinates self
    ∧ reconciled self'
    ∧ (∀ i c a,
        cartesian self !! i = Some c → direct self !! i = Some a →
        ¬ in_slab 0 boundary_radius (inner (position a) dir_vec) →
        ¬ in_slab 1 boundary_radius (inner (position a) dir_vec) →
        c ∈ cartesian self')
    ∧ ∀ c, c ∈ cartesian self →
           (∀ b, b ∈ cartesian self →
              threshold min_dist_dict (element c) (element b) = None) →
           c ∈ cartesian self'.
Proof.
  intros Hlen Hdet Hr.
  destruct (remove_collision_surface_pair_unfold boundary_radius min_dist_dict
              dir_vec random_delete g self Hlen)
    as (g' & btm_atoms & top_atoms & Hpb & Hpt & ->).
  cbv zeta.
  set (coord := Vec.dot dir_vec (coordinates self)).
  set (on_btm_idx := slab_mask 0 boundary_radius dir_vec (direct self)) in *.
  set (on_top_idx := slab_mask 1 boundary_radius dir_vec (direct self)) in *.
  set (rest := mask_index (cartesian self)
                 (logical_not (logical_or on_btm_idx on_top_idx))).
  set (top := sift min_dist_dict (map_position (λ p, Vec.sub p coord) top_atoms)).
  set (self1 := mkStructure _ _ _ _).
  assert (length on_btm_idx = length (cartesian self)) as Hb
    by (unfold on_btm_idx; by rewrite length_fmap).
  assert (length on_top_idx = length (cartesian self)) as Ht
    by (unfold on_top_idx; by rewrite length_fmap).
  assert (Forall2 (λ x y, x && y = false) on_btm_idx on_top_idx) as Hdisj.
  { unfold on_btm_idx, on_top_idx. apply Forall2_fmap, Forall_Forall2_diag.
    apply Forall_forall. intros a _. apply not_true_iff_false.
    intros [H0 H1]%andb_true_iff. apply slab_test_spec in H0, H1.
    by eapply slabs_disjoint. }
  assert (cartesian self1 ⊆+ cartesian self) as Hsub.
  { unfold self1. cbn [cartesian].
    transitivity (mask_index (cartesian self) on_btm_idx
                  ++ mask_index (cartesian self) on_top_idx ++ rest);
      [|apply Permutation_submseteq; by apply mask_split3].
    rewrite <- Hpb, <- Hpt.
    assert (btm_atoms ++ top_atoms ++ rest ≡ₚ (rest ++ btm_atoms) ++ top_atoms)
      as ->.
    { rewrite <- (assoc_L (++) rest btm_atoms top_atoms).
      rewrite (comm (++) rest (btm_atoms ++ top_atoms)).
      by rewrite <- (assoc_L (++) btm_atoms top_atoms rest). }
    apply submseteq_app; [apply submseteq_app; [done|]|].
    - rewrite between_regions_filter. apply sublist_submseteq.
      etrans; [apply filter_sublist|apply sift_sublist].
    - apply sublist_submseteq.
      transitivity (map_position (λ p, Vec.add p coord)
                      (map_position (λ p, Vec.sub p coord) top_atoms));
        [apply map_position_sublist, sift_sublist|].
      rewrite map_position_compose, map_position_id; [done|].
      intros p. apply add_sub_cancel. }
  destruct (finish_pass_facts (Z.of_nat (length (cartesian self))) g' self1
              (cartesian self) Hdet Hsub eq_refl)
    as (n & self' & -> & Hcart & Hn & Hpos & Hcoord & _ & Hrec).
  exists n, self', g'. repeat split; try done.
  - by rewrite Hcart.
  - intros i c a Hc Ha Hout0 Hout1. rewrite Hcart. unfold self1. cbn [cartesian].
    apply elem_of_app. left. apply elem_of_app. left. unfold rest.
    apply (mask_index_elem_of _ _ i); [done|].
    unfold on_btm_idx, on_top_idx. rewrite logical_or_fmap.
    unfold logical_not. rewrite !list_lookup_fmap, Ha. cbn. f_equal.
    apply negb_true_iff, orb_false_iff.
    split; apply not_true_iff_false; by intros ?%slab_test_spec.
  - intros c Hc Hfree. rewrite Hcart. unfold self1. cbn [cartesian].
    assert (∀ s, s ∈ top_atoms → s ∈ cartesian self) as Htin.
    { intros s Hs. rewrite Hpt in Hs.
      eapply elem_of_sublist; [exact Hs|apply mask_index_sublist]. }
    destruct (elem_of_masks (cartesian self) on_btm_idx on_top_idx c Hb Ht Hc)
      as [Hcb | [Hct | Hcr]].
    + apply elem_of_app. left. apply elem_of_app. right.
      apply between_regions_keeps.
      * apply sift_keeps; [by rewrite Hpb|].
        intros s Hs. apply Hfree. rewrite Hpb in Hs.
        eapply elem_of_sublist; [exact Hs|apply mask_index_sublist].
      * intros s Hs. unfold top in Hs.
        eapply elem_of_sublist in Hs; [|apply sift_sublist].
        apply map_position_element in Hs as (s0 & Hs0 & ->).
        by apply Hfree, Htin.
    + apply elem_of_app. right. rewrite <- Hpt in Hct.
      assert (set_position (Vec.sub (position c) coord) c ∈ top) as Hin.
      { unfold top. apply sift_keeps.
        - by apply (list_elem_of_fmap_2
                      (λ a, set_position (Vec.sub (position a) coord) a)).
        - intros s (s0 & Hs0 & ->)%map_position_element.
          cbn [set_position element]. by apply Hfree, Htin. }
      apply (list_elem_of_fmap_2
               (λ a, set_position (Vec.add (position a) coord) a)) in Hin.
      unfold set_position in Hin. cbn [position element] in Hin.
      rewrite add_sub_cancel in Hin. by destruct c.
    + apply elem_of_app. left. apply elem_of_app. by left.
Qed.

(** The surface-pair pass leaves both slabs free of collisions. *)
Lemma surface_pair_pass_safe
    (boundary_radius : Qc) (min_dist_dict : gmap (string * string) Qc)
    (dir_vec : V3) (random_delete : bool) (g : rng) (self : Structure) :
  reconciled self →
  Mat.det (coordinates self) ≠ 0 →
  consistent_table min_dist_dict →
  boundary_radius ≤ Num.half →
  ∃ n self' g',
    remove_collision_surface_pair shuffle boundary_radius min_dist_dict
      dir_vec random_delete g self = Some (Return n, self', g')
    ∧ surface_pair_safe min_dist_dict (coordinates self) boundary_radius
        dir_vec (cartesian self').
Proof.
  intros Hrec Hdet Hcons Hr.
  pose proof (reconciled_fractional self Hrec Hdet) as Hfrac.
  pose proof (Forall2_length _ _ _ Hfrac) as Hlen. symmetry in Hlen.
  destruct (remove_collision_surface_pair_unfold boundary_radius min_dist_dict
              dir_vec random_delete g self Hlen)
    as (g' & btm_atoms & top_atoms & Hpb & Hpt & ->).
  cbv zeta.
  set (coord := Vec.dot dir_vec (coordinates self)).
  set (test := λ (centre : Qc) (p : V3),
         Num.ltb (inner p dir_vec) (centre + boundary_radius)
         && Num.ltb (centre - boundary_radius) (inner p dir_vec)).
  change (slab_mask 0 boundary_radius dir_vec (direct self))
    with ((λ a : atom, test 0 (position a)) <$> direct self) in *.
  change (slab_mask 1 boundary_radius dir_vec (direct self))
    with ((λ a : atom, test 1 (position a)) <$> direct self) in *.
  assert (∀ centre,
            Forall2 (λ c d, test centre (fractional (coordinates self) c)
                            = test centre (position d))
              (cartesian self) (direct self)) as Hmask.
  { intros centre. eapply Forall2_impl; [exact Hfrac|]. by intros c d ->. }
  rewrite (mask_index_filter _ _ _ _ (Hmask 0)) in Hpb.
  rewrite (mask_index_filter _ _ _ _ (Hmask 1)) in Hpt.
  rewrite logical_or_fmap.
  rewrite (mask_index_filter_not
             (λ c, test 0 (fractional (coordinates self) c)
                   || test 1 (fractional (coordinates self) c))).
  2:{ eapply Forall2_impl; [exact Hfrac|]. by intros c d ->. }
  rewrite finish_pass_ok by done. cbn [cartesian coordinates comment].
  eexists _, _, _. split; [done|].
  set (top := sift min_dist_dict (map_position (λ p, Vec.sub p coord) top_atoms)).
  set (btm := remove_collision_between_regions top
                (sift min_dist_dict btm_atoms) min_dist_dict).
  set (rest := List.filter _ (cartesian self)).
  assert (∀ c, test 0 (fractional (coordinates self) c) = true
               ↔ in_slab 0 boundary_radius
                   (inner (fractional (coordinates self) c) dir_vec)) as Ht0
    by (intros c; apply slab_test_spec).
  assert (∀ c, test 1 (fractional (coordinates self) c) = true
               ↔ in_slab 1 boundary_radius
                   (inner (fractional (coordinates self) c) dir_vec)) as Ht1
    by (intros c; apply slab_test_spec).
  assert (∀ c, c ∈ rest →
            ¬ in_slab 0 boundary_radius
                (inner (fractional (coordinates self) c) dir_vec)
            ∧ ¬ in_slab 1 boundary_radius
                  (inner (fractional (coordinates self) c) dir_vec)) as Hrest.
  { intros c [_ Hc]%filter_elem_of.
    apply negb_true_iff, orb_false_iff in Hc as [H0 H1].
    rewrite <- Ht0, <- Ht1, H0, H1. done. }
  assert (btm `sublist_of` sift min_dist_dict btm_atoms) as Hbsub
    by (unfold btm; rewrite between_regions_filter; apply filter_sublist).
  assert (∀ c, c ∈ btm →
            in_slab 0 boundary_radius
              (inner (fractional (coordinates self) c) dir_vec)) as Hbtm.
  { intros c Hc. apply Ht0.
    eapply elem_of_sublist in Hc; [|exact Hbsub].
    eapply elem_of_sublist in Hc; [|apply sift_sublist].
    rewrite Hpb in Hc. by apply filter_elem_of in Hc as [_ Hc]. }
  assert (∀ c, c ∈ map_position (λ p, Vec.add p coord) top →
            ∃ c', c' ∈ top ∧ c = set_position (Vec.add (position c') coord) c'
                  ∧ set_position (Vec.sub (position c) coord) c = c') as Htop'.
  { intros c (c' & -> & Hc')%list_elem_of_fmap. exists c'.
    split; [done|]. split; [done|]. apply set_position_back. }
  assert (∀ c, c ∈ map_position (λ p, Vec.add p coord) top →
            in_slab 1 boundary_radius
              (inner (fractional (coordinates self) c) dir_vec)) as Htop.
  { intros c Hc. apply Ht1.
    assert (c ∈ top_atoms) as Hin.
    { eapply elem_of_sublist; [exact Hc|].
      transitivity (map_position (λ p, Vec.add p coord)
                      (map_position (λ p, Vec.sub p coord) top_atoms));
        [apply map_position_sublist, sift_sublist|].
      rewrite map_position_compose, map_position_id; [done|].
      intros p. apply add_sub_cancel. }
    rewrite Hpt in Hin. by apply filter_elem_of in Hin as [_ Hin]. }
  unfold surface_pair_safe. cbv zeta.
  apply (pairwise_Permutation _ _ ((rest ++ btm)
           ++ map_position (λ p, Vec.add p coord) top));
    [apply merge_sort_Permutation|].
  apply pairwise_three.
  - intros a b Ha. apply Hrest in Ha as [Ha0 Ha1]. tauto.
  - intros i j a b Hij Hi Hj.
    pose proof (Hbtm a (list_elem_of_lookup_2 _ _ _ Hi)) as Ha.
    pose proof (Hbtm b (list_elem_of_lookup_2 _ _ _ Hj)) as Hb.
    split; [|split].
    + intros _ _. eapply (ordered_safe_pairwise _ btm i j); [done| |done..].
      eapply ordered_safe_sublist; [exact Hbsub|apply sift_ordered_safe].
    + intros Ha1. exfalso. exact (slabs_disjoint _ _ Hr Ha Ha1).
    + intros _ Hb1. exfalso. exact (slabs_disjoint _ _ Hr Hb Hb1).
  - intros i j a b Hij Hi Hj.
    pose proof (Htop a (list_elem_of_lookup_2 _ _ _ Hi)) as Ha.
    pose proof (Htop b (list_elem_of_lookup_2 _ _ _ Hj)) as Hb.
    split; [|split].
    + intros Ha0. exfalso. exact (slabs_disjoint _ _ Hr Ha0 Ha).
    + intros _ _.
      eapply (ordered_safe_pairwise _
                (map_position (λ p, Vec.add p coord) top) i j);
        [done| |done..].
      apply ordered_safe_translate, sift_ordered_safe.
    + intros Ha0. exfalso. exact (slabs_disjoint _ _ Hr Ha0 Ha).
  - intros a b Ha Hb.
    pose proof (Hbtm a Ha) as Ha0. pose proof (Htop b Hb) as Hb1.
    split; split; [|split| |split].
    + intros _ Hb0. exfalso. exact (slabs_disjoint _ _ Hr Hb0 Hb1).
    + intros Ha1. exfalso. exact (slabs_disjoint _ _ Hr Ha0 Ha1).
    + intros _ _. cbv beta zeta. fold coord.
      destruct (Htop' b Hb) as (b' & Hb' & _ & ->).
      unfold btm in Ha. rewrite between_regions_filter in Ha.
      apply filter_elem_of in Ha as [_ Ha].
      rewrite forallb_forall in Ha. apply Ha. by apply list_elem_of_In.
    + intros Hb0. exfalso. exact (slabs_disjoint _ _ Hr Hb0 Hb1).
    + intros _ Ha1. exfalso. exact (slabs_disjoint _ _ Hr Ha0 Ha1).
    + intros Hb0. exfalso. exact (slabs_disjoint _ _ Hr Hb0 Hb1).
Qed.

(** X18.  On a structure with as many direct as cartesian records and an
    invertible lattice, and with a radius of at most 1/2, the surface-pair
    pass returns; it only removes atoms, and the count it returns is the
    number removed; the lattice is untouched, the result is reconciled,
    and every atom whose direct coordinate along the direction is outside
    both slabs is kept. *)
Theorem remove_collision_surface_pair_only_removes
    (boundary_radius : Qc) (min_dist_dict : gmap (string * string) Qc)
    (dir_vec : V3) (random_delete : bool) (g : rng) (self : Structure) :
  length (direct self) = length (cartesian self) →
  Mat.det (coordinates self) ≠ 0 →
  boundary_radius ≤ Num.half →
  ∃ n self' g',
    remove_collision_surface_pair shuffle boundary_radius min_dist_dict
      dir_vec random_delete g self = Some (Return n, self', g')
    ∧ cartesian self' ⊆+ cartesian self
    ∧ n = (Z.of_nat (length (cartesian self))
           - Z.of_nat (length (cartesian self')))%Z
    ∧ (0 ≤ n)%Z
    ∧ coordinates self' = coordinates self
    ∧ reconciled self'
    ∧ ∀ i c a,
        cartesian self !! i = Some c → direct self !! i = Some a →
        ¬ in_slab 0 boundary_radius (inner (position a) dir_vec) →
        ¬ in_slab 1 boundary_radius (inner (position a) dir_vec) →
        c ∈ cartesian self'.
Proof.
  intros Hlen Hdet Hr.
  destruct (surface_pair_pass_removes boundary_radius min_dist_dict dir_vec
              random_delete g self Hlen Hdet Hr)
    as (n & self' & g' & H1 & H2 & H3 & H4 & H5 & H6 & H7 & _).
  by exists n, self', g'.
Qed.

(** X19.  On a reconciled structure with an invertible lattice, a table
    that gives one threshold per pair and a radius of at most 1/2, the
    surface-pair pass leaves both slabs free of collisions, also across
    the periodic boundary: two atoms of the result in the bottom slab, or
    in the top slab, are at a safe distance, and an atom in the bottom
    slab is at a safe distance from the image, one lattice vector lower,
    of every atom in the top slab. *)
Theorem remove_collision_surface_pair_slabs_safe
    (boundary_radius : Qc) (min_dist_dict : gmap (string * string) Qc)
    (dir_vec : V3) (random_delete : bool) (g : rng) (self : Structure) :
  reconciled self →
  Mat.det (coordinates self) ≠ 0 →
  consistent_table min_dist_dict →
  boundary_radius ≤ Num.half →
  ∃ n self' g',
    remove_collision_surface_pair shuffle boundary_radius min_dist_dict
      dir_vec random_delete g self = Some (Return n, self', g')
    ∧ surface_pair_safe min_dist_dict (coordinates self) boundary_radius
        dir_vec (cartesian self').
Proof. apply surface_pair_pass_safe. Qed.

End PassProperties.

Lemma reversing_perm (g : unit) (arr : list atom) :
  snd (reversing g arr) ≡ₚ arr.
Proof. unfold reversing. cbn [snd]. symmetry. apply Permutation_rev. Qed.

Lemma remove_collision_on_interface_only_removes_witness :
  ∃ n self' g',
    remove_collision_on_interface reversing (Num.frac 1 100) table_XX true tt
      (z_pair Num.half) = Some (Return n, self', g')
    ∧ cartesian self' ⊆+ cartesian (z_pair Num.half)
    ∧ n = (Z.of_nat (length (cartesian (z_pair Num.half)))
           - Z.of_nat (length (cartesian self')))%Z
    ∧ (0 ≤ n)%Z
    ∧ coordinates self' = coordinates (z_pair Num.half)
    ∧ reconciled self'
    ∧ ∀ i c a,
        cartesian (z_pair Num.half) !! i = Some c →
        direct (z_pair Num.half) !! i = Some a →
        ¬ in_slab Num.half (Num.frac 1 100) (vz (position a)) →
        c ∈ cartesian self'.
Proof.
  apply (remove_collision_on_interface_only_removes reversing reversing_perm
           (Num.frac 1 100) table_XX true tt (z_pair Num.half)).
  - reflexivity.
  - apply (bool_decide_unpack _). by vm_compute.
Defined.


Lemma remove_collision_surface_pair_only_removes_witness :
  ∃ n self' g',
    remove_collision_surface_pair reversing (Num.frac 1 100) table_XX
      (mkV3 0 0 1) true tt (z_pair (Num.frac 999 1000))
    = Some (Return n, self', g')
    ∧ cartesian self' ⊆+ cartesian (z_pair (Num.frac 999 1000))
    ∧ n = (Z.of_nat (length (cartesian (z_pair (Num.frac 999 1000))))
           - Z.of_nat (length (cartesian self')))%Z
    ∧ (0 ≤ n)%Z
    ∧ coordinates self' = coordinates (z_pair (Num.frac 999 1000))
    ∧ reconciled self'
    ∧ ∀ i c a,
        cartesian (z_pair (Num.frac 999 1000)) !! i = Some c →
        direct (z_pair (Num.frac 999 1000)) !! i = Some a →
        ¬ in_slab 0 (Num.frac 1 100) (inner (position a) (mkV3 0 0 1)) →
        ¬ in_slab 1 (Num.frac 1 100) (inner (position a) (mkV3 0 0 1)) →
        c ∈ cartesian self'.
Proof.
  apply (remove_collision_surface_pair_only_removes reversing reversing_perm
           (Num.frac 1 100) table_XX (mkV3 0 0 1) true tt
           (z_pair (Num.frac 999 1000))).
  - reflexivity.
  - apply (bool_decide_unpack _). by vm_compute.
  - apply (bool_decide_unpack _). by vm_compute.
Defined.

Lemma remove_collision_surface_pair_slabs_safe_witness :
  ∃ n self' g',
    remove_collision_surface_pair reversing (Num.frac 1 100) table_XX
      (mkV3 0 0 1) true tt (z_pair (Num.frac 999 1000))
    = Some (Return n, self', g')
    ∧ surface_pair_safe table_XX (coordinates (z_pair (Num.frac 999 1000)))
        (Num.frac 1 100) (mkV3 0 0 1) (cartesian self').
Proof.
  apply (remove_collision_surface_pair_slabs_safe reversing reversing_perm
           (Num.frac 1 100) table_XX (mkV3 0 0 1) true tt
           (z_pair (Num.frac 999 1000))).
  - apply reconciled_make_structure.
  - apply (bool_decide_unpack _). by vm_compute.
  - apply table_XX_consistent.
  - apply (bool_decide_unpack _). by vm_compute.
Defined.

(** ** The corner pass *)

Lemma shift_unshift (shift : V3) (a : atom) :
  unshift_position shift (shift_position shift a) = a.
Proof.
  destruct a as [p e]. unfold unshift_position, shift_position, set_position.
  cbn [position element]. by rewrite sub_add_cancel.
Qed.

Local Abbreviation corner_apart coords min_dist_dict dv atm :=
  (λ si : atom * V3,
     apart_by_safe_distance min_dist_dict
       (shift_position (Vec.dot (Vec.sub dv si.2) coords) si.1) atm).

(** The inner test leaves the pool as it found it, and its verdict is
    the conjunction of the tests against the pool records, each carried
    from its own corner to the corner of the candidate. *)
Lemma corner_test_loop_from (coords : M33)
    (min_dist_dict : gmap (string * string) Qc) (dv : V3) (atm : atom)
    (indic : list V3) (atoms : list atom) (n k : nat) (q : bool) :
  length indic = length atoms → (k + n = length atoms)%nat →
  corner_test_loop coords min_dist_dict dv atm indic (seq k n)
    (mkCornerTest q atoms)
  = Return (mkCornerTest
              (q && forallb (corner_apart coords min_dist_dict dv atm)
                      (drop k (zip atoms indic)))
              atoms).
Proof.
  intros Hlen. revert k q.
  induction n as [|n IH]; intros k q Hk; cbn [seq corner_test_loop].
  - rewrite drop_ge by (rewrite length_zip_with; lia).
    cbn [forallb]. by rewrite andb_true_r.
  - unfold corner_test_body. cbn [qualify corner_atoms].
    destruct q; cbn [negb andb]; [|done].
    destruct (lookup_lt_is_Some_2 atoms k) as [s Hs]; [lia|].
    destruct (lookup_lt_is_Some_2 indic k) as [ind Hind]; [lia|].
    rewrite Hs, Hind, list_lookup_alter_eq, Hs. cbn [fmap option_fmap option_map].
    rewrite list_alter_alter_eq, list_alter_id
      by (intros x; apply shift_unshift).
    rewrite IH by lia.
    rewrite (drop_S (zip atoms indic) (s, ind) k)
      by (by rewrite lookup_zip_with, Hs, Hind).
    cbn [forallb fst snd]. do 2 f_equal.
    by destruct (apart_by_safe_distance _ _ _).
Qed.

Lemma corner_test_loop_ok (coords : M33)
    (min_dist_dict : gmap (string * string) Qc) (dv : V3) (atm : atom)
    (indic : list V3) (atoms : list atom) :
  length indic = length atoms →
  corner_test_loop coords min_dist_dict dv atm indic (seq 0 (length atoms))
    (mkCornerTest true atoms)
  = Return (mkCornerTest
              (forallb (corner_apart coords min_dist_dict dv atm)
                 (zip atoms indic))
              atoms).
Proof. intros Hlen. by rewrite corner_test_loop_from. Qed.

Lemma corner_ordered_safe_snoc (coords : M33)
    (min_dist_dict : gmap (string * string) Qc)
    (entries : list (atom * V3)) (atm : atom) (dv : V3) :
  corner_ordered_safe coords min_dist_dict entries →
  forallb (corner_apart coords min_dist_dict dv atm) entries = true →
  corner_ordered_safe coords min_dist_dict (entries ++ [(atm, dv)]).
Proof.
  intros Hsafe Hall i j s ind s' ind' Hij Hi Hj.
  apply lookup_app_Some in Hj as [Hj | [Hlj Hj]].
  - apply lookup_app_Some in Hi as [Hi | [Hli Hi]].
    + by eapply (Hsafe i j).
    + apply lookup_lt_Some in Hj. lia.
  - apply list_lookup_singleton_Some in Hj as [Hj0 [= <- <-]].
    apply lookup_app_Some in Hi as [Hi | [Hli Hi]]; [|lia].
    rewrite forallb_forall in Hall.
    apply (Hall (s, ind)), list_elem_of_In. by eapply list_elem_of_lookup_2.
Qed.

(** The candidates of one corner: those accepted are appended to the
    pool, in their order, each with the corner. *)
Lemma candidates_loop_ok (coords : M33)
    (min_dist_dict : gmap (string * string) Qc) (dv : V3)
    (candidate_atoms : list atom) (pool : corner_pool) :
  length (pool_indic pool) = length (pool_atoms pool) →
  ∃ pool' accepted,
    candidates_loop coords min_dist_dict dv candidate_atoms pool = Return pool'
    ∧ accepted `sublist_of` candidate_atoms
    ∧ pool_atoms pool' = pool_atoms pool ++ accepted
    ∧ pool_indic pool' = pool_indic pool ++ replicate (length accepted) dv
    ∧ (corner_ordered_safe coords min_dist_dict
         (zip (pool_atoms pool) (pool_indic pool)) →
       corner_ordered_safe coords min_dist_dict
         (zip (pool_atoms pool') (pool_indic pool')))
    ∧ ∀ atm, atm ∈ candidate_atoms →
             (∀ s, s ∈ pool_atoms pool ++ candidate_atoms →
                threshold min_dist_dict (element s) (element atm) = None) →
             atm ∈ accepted.
Proof.
  revert pool.
  induction candidate_atoms as [|atm cands IH]; intros [atoms indic] Hlen;
    cbn [pool_atoms pool_indic] in *.
  - exists (mkCornerPool atoms indic), []. cbn [candidates_loop pool_atoms pool_indic].
    rewrite !app_nil_r. repeat split; try done.
  - cbn [candidates_loop pool_atoms pool_indic].
    rewrite corner_test_loop_ok by done. cbn [qualify corner_atoms].
    destruct (forallb _ (zip atoms indic)) eqn:Hall.
    + destruct (IH (mkCornerPool (atoms ++ [atm]) (indic ++ [dv])))
        as (pool' & acc & -> & Hsub & Hatoms & Hindic & Hsafe & Hkeep).
      { cbn [pool_atoms pool_indic]. rewrite !length_app. cbn. lia. }
      cbn [pool_atoms pool_indic] in *.
      exists pool', (atm :: acc). split; [done|]. split; [by constructor|].
      split; [by rewrite Hatoms, <- (assoc_L (++))|].
      split; [by rewrite Hindic, <- (assoc_L (++))|].
      split.
      * intros H. apply Hsafe.
        rewrite zip_with_app by done. by apply corner_ordered_safe_snoc.
      * intros x [-> | Hx]%elem_of_cons Hfree; [left|right].
        apply Hkeep; [done|]. intros s Hs. apply Hfree.
        by rewrite <- (assoc_L (++)) in Hs.
    + destruct (IH (mkCornerPool atoms indic) Hlen)
        as (pool' & acc & -> & Hsub & Hatoms & Hindic & Hsafe & Hkeep).
      cbn [pool_atoms pool_indic] in *.
      exists pool', acc. split; [done|]. split; [by constructor|].
      do 3 (split; [done|]).
      intros x [-> | Hx]%elem_of_cons Hfree.
      * exfalso. apply not_true_iff_false in Hall. apply Hall.
        apply forallb_forall. intros [s ind] Hs%list_elem_of_In.
        apply apart_no_threshold.
        unfold shift_position, set_position. cbn [fst snd element].
        apply Hfree.
        apply elem_of_app. left.
        apply list_elem_of_lookup in Hs as [i Hs].
        apply lookup_zip_with_Some in Hs as (s' & ind' & [= -> ->] & Hs' & _).
        by eapply list_elem_of_lookup_2.
      * apply Hkeep; [done|]. intros s Hs. apply Hfree.
        apply elem_of_app in Hs as [Hs | Hs]; apply elem_of_app;
          [by left|right; by right].
Qed.

Lemma corners_loop_cons (boundary_radius : Qc)
    (min_dist_dict : gmap (string * string) Qc) (dv : V3) (dir_vecs : list V3)
    (pool : corner_pool) (self : Structure) :
  corners_loop boundary_radius min_dist_dict (dv :: dir_vecs) pool self
  = let idx := corner_idx boundary_radius dv self in
    if negb (bool_decide (length idx = length (cartesian self))) then
      (Raise IndexError, self)
    else
      let self1 :=
        set_cartesian (mask_index (cartesian self) (negb <$> idx)) self in
      match candidates_loop (coordinates self1) min_dist_dict dv
              (mask_index (cartesian self) idx) pool with
      | Raise e => (Raise e, self1)
      | Return pool' =>
          match reconcile "C" self1 with
          | (Return _, self2) =>
              corners_loop boundary_radius min_dist_dict dir_vecs pool' self2
          | (Raise e, self2) => (Raise e, self2)
          end
      end.
Proof.
  cbn [corners_loop]. unfold mbind, method_bind, bind, get, modify, raise.
  cbv zeta. destruct (negb _); [done|]. by destruct (candidates_loop _ _ _ _ _).
Qed.

Lemma corner_test_spec (r : Qc) (dv p : V3) :
  Vec.all_lt p (Vec.add_scalar dv r) && Vec.all_gt p (Vec.sub_scalar dv r)
  = true
  ↔ in_corner r dv p.
Proof.
  unfold Vec.all_gt, Vec.all_lt, Vec.add_scalar, Vec.sub_scalar, in_corner,
    in_slab.
  cbn [vx vy vz]. rewrite !andb_true_iff, !ltb_lt. tauto.
Qed.

Lemma remove_collision_at_corners_unfold (boundary_radius : Qc)
    (min_dist_dict : gmap (string * string) Qc) (random_delete : bool)
    (self : Structure) :
  remove_collision_at_corners boundary_radius min_dist_dict random_delete self
  = match corners_loop boundary_radius min_dist_dict
            (cartesian_product3 [0; 1]) (mkCornerPool [] []) self with
    | (Return pool, self1) =>
        match reconcile "C"
                (set_cartesian (cartesian self1 ++ pool_atoms pool) self1) with
        | (Return _, self2) =>
            (Return (Z.of_nat (length (cartesian self))
                     - Z.of_nat (length (cartesian self2)))%Z, self2)
        | (Raise e, self2) => (Raise e, self2)
        end
    | (Raise e, self1) => (Raise e, self1)
    end.
Proof.
  unfold remove_collision_at_corners, mbind, method_bind, bind, get, modify,
    mret, method_ret, ret.
  destruct (corners_loop _ _ _ _ _) as [[pool|e] self1]; [|done].
  by destruct (reconcile "C" _) as [[[]|e] self2].
Qed.

(** What the loop over the corners keeps true.  The last part needs the
    direct records to be the fractional positions of the cartesian ones
    from the start. *)
Lemma corners_loop_ok (boundary_radius : Qc)
    (min_dist_dict : gmap (string * string) Qc) (dir_vecs : list V3)
    (pool : corner_pool) (self : Structure) :
  length (direct self) = length (cartesian self) →
  Mat.det (coordinates self) ≠ 0 →
  length (pool_indic pool) = length (pool_atoms pool) →
  ∃ pool' self' accepted accepted_at,
    corners_loop boundary_radius min_dist_dict dir_vecs pool self
    = (Return pool', self')
    ∧ coordinates self' = coordinates self
    ∧ pool_atoms pool' = pool_atoms pool ++ accepted
    ∧ pool_indic pool' = pool_indic pool ++ accepted_at
    ∧ length accepted_at = length accepted
    ∧ cartesian self' ++ accepted ⊆+ cartesian self
    ∧ (corner_ordered_safe (coordinates self) min_dist_dict
         (zip (pool_atoms pool) (pool_indic pool)) →
       corner_ordered_safe (coordinates self) min_dist_dict
         (zip (pool_atoms pool') (pool_indic pool')))
    ∧ (reconciled self →
       Forall2
         (λ s ind, ind ∈ dir_vecs
                   ∧ in_corner boundary_radius ind
                       (fractional (coordinates self) s))
         accepted accepted_at
       ∧ Forall
           (λ c, ∀ dv, dv ∈ dir_vecs →
                   ¬ in_corner boundary_radius dv
                       (fractional (coordinates self) c))
           (cartesian self')
       ∧ ∀ c, c ∈ cartesian self →
              (∀ dv, dv ∈ dir_vecs →
                 ¬ in_corner boundary_radius dv
                     (fractional (coordinates self) c)) →
              c ∈ cartesian self')
    ∧ ∀ c, c ∈ cartesian self ++ pool_atoms pool →
           (∀ s, s ∈ cartesian self ++ pool_atoms pool →
              threshold min_dist_dict (element s) (element c) = None) →
           c ∈ cartesian self' ++ pool_atoms pool'.
Proof.
  revert pool self.
  induction dir_vecs as [|dv dir_vecs IH]; intros pool self Hlen Hdet Hpool.
  - exists pool, self, [], []. rewrite !app_nil_r.
    repeat split; try done.
    + apply Forall_forall. intros c _ dv Hdv. by apply elem_of_nil in Hdv.
  - rewrite corners_loop_cons. cbv zeta.
    set (test := λ p : V3,
           Vec.all_lt p (Vec.add_scalar dv boundary_radius)
           && Vec.all_gt p (Vec.sub_scalar dv boundary_radius)).
    change (corner_idx boundary_radius dv self)
      with ((λ a : atom, test (position a)) <$> direct self).
    set (idx := (λ a : atom, test (position a)) <$> direct self).
    assert (length idx = length (cartesian self)) as Hidx
      by (unfold idx; by rewrite length_fmap).
    rewrite bool_decide_eq_true_2 by done. cbn [negb].
    set (cart1 := mask_index (cartesian self) (negb <$> idx)).
    unfold set_cartesian. cbn [coordinates comment direct cartesian].
    destruct (candidates_loop_ok (coordinates self) min_dist_dict dv
                (mask_index (cartesian self) idx) pool Hpool)
      as (pool1 & acc1 & -> & Hsub1 & Hatoms1 & Hindic1 & Hsafe1 & Hkeep1).
    rewrite (reconcile_C
               (mkStructure (comment self) (coordinates self) (direct self)
                  cart1) _ (inv_is_Some _ Hdet)).
    cbn [coordinates comment direct cartesian].
    set (self2 := mkStructure _ _ _ _).
    assert (sort_by_element cart1 ≡ₚ cart1) as Hsort
      by apply merge_sort_Permutation.
    destruct (IH pool1 self2)
      as (pool' & self' & acc2 & at2 & -> & Hcoord & Hatoms & Hindic & Hat
          & Hsubm & Hsafe & Hrec2 & Hkeep2).
    { unfold self2. cbn [direct cartesian]. apply map_position_length. }
    { done. }
    { rewrite Hatoms1, Hindic1, !length_app, length_replicate. lia. }
    cbn [coordinates cartesian] in Hcoord, Hsubm, Hsafe, Hrec2, Hkeep2.
    exists pool', self', (acc1 ++ acc2), (replicate (length acc1) dv ++ at2).
    split; [done|]. split; [done|].
    split; [by rewrite Hatoms, Hatoms1, <- (assoc_L (++))|].
    split; [by rewrite Hindic, Hindic1, <- (assoc_L (++))|].
    split; [rewrite !length_app, length_replicate; lia|].
    split; [|split; [|split]].
    + rewrite <- (mask_split (cartesian self) idx Hidx).
      rewrite (assoc_L (++)), (comm (++) (cartesian self') acc1),
        <- (assoc_L (++)).
      apply submseteq_app; [by apply sublist_submseteq|].
      unfold logical_not. fold cart1. by rewrite <- Hsort.
    + intros H. by apply Hsafe, Hsafe1.
    + intros Hrec.
      pose proof (reconciled_fractional self Hrec Hdet) as Hfrac.
      assert (Forall2 (λ c d, test (fractional (coordinates self) c)
                              = test (position d))
                (cartesian self) (direct self)) as Hmask.
      { eapply Forall2_impl; [exact Hfrac|]. by intros c d ->. }
      assert (mask_index (cartesian self) idx
              = List.filter (λ c, test (fractional (coordinates self) c))
                  (cartesian self)) as Hin
        by (by apply mask_index_filter).
      assert (cart1
              = List.filter
                  (λ c, negb (test (fractional (coordinates self) c)))
                  (cartesian self)) as Hout
        by (by apply (mask_index_filter_not _ _ _ _ Hmask)).
      destruct Hrec2 as (Hacc2 & Hrest2 & Hkept2).
      { unfold self2. by apply reconciled_inverse_image. }
      split; [|split].
      * apply Forall2_app.
        -- apply Forall2_replicate_r; [done|].
           apply Forall_forall. intros s Hs. split; [left|].
           eapply elem_of_sublist in Hs; [|exact Hsub1].
           rewrite Hin in Hs. apply filter_elem_of in Hs as [_ Hs].
           by apply corner_test_spec.
        -- eapply Forall2_impl; [exact Hacc2|].
           intros s ind [Hind Hs]. split; [by right|done].
      * apply Forall_forall. intros c Hc dv' Hdv'.
        apply elem_of_cons in Hdv' as [-> | Hdv'].
        -- assert (c ∈ cart1) as Hc1.
           { rewrite <- Hsort.
             eapply elem_of_submseteq; [|exact Hsubm].
             apply elem_of_app. by left. }
           rewrite Hout in Hc1. apply filter_elem_of in Hc1 as [_ Hc1].
           apply negb_true_iff in Hc1. intros Hcorner.
           apply corner_test_spec in Hcorner. unfold test in Hc1. congruence.
        -- rewrite Forall_forall in Hrest2. by apply Hrest2.
      * intros c Hc Hnot. apply Hkept2.
        -- unfold self2. cbn [cartesian]. rewrite Hsort, Hout.
           apply filter_elem_of. split; [done|].
           apply negb_true_iff, not_true_iff_false. intros Htest.
           apply (Hnot dv); [left|]. by apply corner_test_spec.
        -- intros dv' Hdv'. apply Hnot. by right.
    + intros c Hc Hfree.
      assert (∀ s, s ∈ sort_by_element cart1 ++ pool_atoms pool1 →
                   s ∈ cartesian self ++ pool_atoms pool) as Hback.
      { intros s Hs. rewrite Hsort, Hatoms1 in Hs.
        rewrite !elem_of_app in Hs. rewrite elem_of_app.
        destruct Hs as [Hs | [Hs | Hs]]; [left| by right |left].
        - eapply elem_of_sublist; [exact Hs|apply mask_index_sublist].
        - eapply elem_of_sublist; [|apply (mask_index_sublist _ idx)].
          by eapply elem_of_sublist. }
      apply Hkeep2; [|intros s Hs; by apply Hfree, Hback].
      unfold self2. cbn [cartesian].
      rewrite Hsort, Hatoms1. rewrite !elem_of_app.
      apply elem_of_app in Hc as [Hc | Hc]; [|right; by left].
      rewrite <- (mask_split (cartesian self) idx Hidx) in Hc.
      apply elem_of_app in Hc as [Hc | Hc]; [|by left].
      right. right. apply Hkeep1; [done|].
      intros s Hs. apply Hfree. rewrite !elem_of_app in Hs.
      rewrite elem_of_app. destruct Hs as [Hs | Hs]; [by right|left].
      eapply elem_of_sublist; [exact Hs|apply mask_index_sublist].
Qed.

(** The corner pass as a whole: the result is what is left outside the
    corner cubes together with the pool. *)
Lemma remove_collision_at_corners_ok (boundary_radius : Qc)
    (min_dist_dict : gmap (string * string) Qc) (random_delete : bool)
    (self : Structure) :
  length (direct self) = length (cartesian self) →
  Mat.det (coordinates self) ≠ 0 →
  ∃ n self' rest pool pool_at,
    remove_collision_at_corners boundary_radius min_dist_dict random_delete
      self = (Return n, self')
    ∧ cartesian self' ≡ₚ rest ++ pool
    ∧ n = (Z.of_nat (length (cartesian self))
           - Z.of_nat (length (cartesian self')))%Z
    ∧ coordinates self' = coordinates self
    ∧ reconciled self'
    ∧ rest ++ pool ⊆+ cartesian self
    ∧ length pool_at = length pool
    ∧ (corner_ordered_safe (coordinates self) min_dist_dict (zip pool pool_at))
    ∧ (reconciled self →
       Forall2
         (λ s ind, ind ∈ cartesian_product3 [0; 1]
                   ∧ in_corner boundary_radius ind
                       (fractional (coordinates self) s))
         pool pool_at
       ∧ Forall
           (λ c, ∀ dv, dv ∈ cartesian_product3 [0; 1] →
                   ¬ in_corner boundary_radius dv
                       (fractional (coordinates self) c))
           rest
       ∧ ∀ c, c ∈ cartesian self →
              (∀ dv, dv ∈ cartesian_product3 [0; 1] →
                 ¬ in_corner boundary_radius dv
                     (fractional (coordinates self) c)) →
              c ∈ rest)
    ∧ ∀ c, c ∈ cartesian self →
           (∀ b, b ∈ cartesian self →
              threshold min_dist_dict (element c) (element b) = None) →
           c ∈ cartesian self'.
Proof.
  intros Hlen Hdet. rewrite remove_collision_at_corners_unfold.
  destruct (corners_loop_ok boundary_radius min_dist_dict
              (cartesian_product3 [0; 1]) (mkCornerPool [] []) self Hlen Hdet
              eq_refl)
    as (pool' & self1 & acc & acc_at & -> & Hcoord & Hatoms & Hindic & Hat
        & Hsub & Hsafe & Hrec & Hkeep).
  cbn [pool_atoms pool_indic app] in Hatoms, Hindic, Hsafe, Hkeep.
  rewrite app_nil_r in Hkeep.
  assert (Mat.det (coordinates
                     (set_cartesian (cartesian self1 ++ pool_atoms pool')
                        self1)) ≠ 0) as Hdet1
    by (unfold set_cartesian; cbn [coordinates]; by rewrite Hcoord).
  rewrite (reconcile_C _ _ (inv_is_Some _ Hdet1)).
  unfold set_cartesian. cbn [coordinates comment direct cartesian].
  rewrite Hatoms.
  eexists _, _, (cartesian self1), acc, acc_at.
  split; [done|]. cbn [cartesian coordinates].
  split; [apply merge_sort_Permutation|].
  split; [done|]. split; [done|].
  split; [by apply reconciled_inverse_image; rewrite Hcoord|].
  split; [done|]. split; [done|].
  split; [rewrite <- Hatoms, <- Hindic; apply Hsafe; by intros [|?] [|?]|].
  split; [done|].
  intros c Hc Hfree. unfold sort_by_element.
  rewrite merge_sort_Permutation, <- Hatoms.
  apply Hkeep; [done|]. intros s Hs. by apply threshold_None_comm, Hfree.
Qed.


Lemma cartesian_product3_bits (dv : V3) :
  dv ∈ cartesian_product3 [0; 1] →
  (vx dv = 0 ∨ vx dv = 1) ∧ (vy dv = 0 ∨ vy dv = 1) ∧ (vz dv = 0 ∨ vz dv = 1).
Proof.
  unfold cartesian_product3.
  intros (x & (y & (z & ->%list_elem_of_singleton & Hz)%list_elem_of_bind
              & Hy)%list_elem_of_bind & Hx)%list_elem_of_bind.
  cbn [vx vy vz].
  rewrite !elem_of_cons, !elem_of_nil in Hx, Hy, Hz. tauto.
Qed.

Lemma slab_centre_unique (r x c c' : Qc) :
  r ≤ Num.half → (c = 0 ∨ c = 1) → (c' = 0 ∨ c' = 1) →
  in_slab c r x → in_slab c' r x → c = c'.
Proof.
  intros Hr [-> | ->] [-> | ->] H H'; try done; exfalso.
  - by eapply slabs_disjoint.
  - by eapply slabs_disjoint.
Qed.

(** With a radius of at most 1/2 a position is near one corner at most. *)
Lemma corner_unique (r : Qc) (p ca cb : V3) :
  r ≤ Num.half →
  ca ∈ cartesian_product3 [0; 1] → cb ∈ cartesian_product3 [0; 1] →
  in_corner r ca p → in_corner r cb p → ca = cb.
Proof.
  intros Hr (Hax & Hay & Haz)%cartesian_product3_bits
    (Hbx & Hby & Hbz)%cartesian_product3_bits (Hx & Hy & Hz) (Hx' & Hy' & Hz').
  destruct ca, cb. cbn [vx vy vz] in *. f_equal.
  - by eapply (slab_centre_unique r (vx p)).
  - by eapply (slab_centre_unique r (vy p)).
  - by eapply (slab_centre_unique r (vz p)).
Qed.

Lemma apart_shift_swap (min_dist_dict : gmap (string * string) Qc)
    (a b : atom) (u w : V3) (m : M33) :
  apart_by_safe_distance min_dist_dict
    (shift_position (Vec.dot (Vec.sub u w) m) b) a
  = apart_by_safe_distance min_dist_dict b
      (shift_position (Vec.dot (Vec.sub w u) m) a).
Proof.
  unfold apart_by_safe_distance, shift_position, set_position.
  cbn [position element].
  assert (Vec.sub (Vec.add (position b) (Vec.dot (Vec.sub u w) m)) (position a)
          = Vec.sub (position b)
              (Vec.add (position a) (Vec.dot (Vec.sub w u) m))) as ->; [|done].
  destruct (position a), (position b), u, w, m as [[] [] []].
  unfold Vec.sub, Vec.add, Vec.dot. cbn [vx vy vz row0 row1 row2].
  f_equal; ring.
Qed.


(** The corner pass leaves the corner cubes free of collisions. *)
Lemma corner_pass_safe
    (boundary_radius : Qc) (min_dist_dict : gmap (string * string) Qc)
    (random_delete : bool) (self : Structure) :
  reconciled self →
  Mat.det (coordinates self) ≠ 0 →
  consistent_table min_dist_dict →
  boundary_radius ≤ Num.half →
  ∃ n self',
    remove_collision_at_corners boundary_radius min_dist_dict random_delete
      self = (Return n, self')
    ∧ corners_safe min_dist_dict (coordinates self) boundary_radius
        (cartesian self').
Proof.
  intros Hrec Hdet Hcons Hr.
  pose proof (Forall2_length _ _ _ Hrec) as Hlen. symmetry in Hlen.
  destruct (remove_collision_at_corners_ok boundary_radius min_dist_dict
              random_delete self Hlen Hdet)
    as (n & self' & rest & pool & pool_at & -> & Hperm & _ & _ & _ & _ & Hat
        & Hsafe & H & _).
  destruct (H Hrec) as (Hpool & Hrest & _). clear H.
  exists n, self'. split; [done|].
  unfold corners_safe. apply (pairwise_Permutation _ _ _ Hperm).
  intros i j a b Hij Hi Hj ca cb Hca Hcb Ha Hb.
  rewrite Forall_forall in Hrest.
  apply lookup_app_Some in Hi as [Hi | [Hli Hi]];
    [exfalso; eapply Hrest; [by eapply list_elem_of_lookup_2|exact Hca|done]|].
  apply lookup_app_Some in Hj as [Hj | [Hlj Hj]];
    [exfalso; eapply Hrest; [by eapply list_elem_of_lookup_2|exact Hcb|done]|].
  destruct (Forall2_lookup_l _ _ _ _ _ Hpool Hi) as (ia & Hia & Hiain & Hia').
  destruct (Forall2_lookup_l _ _ _ _ _ Hpool Hj) as (ib & Hib & Hibin & Hib').
  assert (ia = ca) as ->
    by (by eapply (corner_unique boundary_radius
                     (fractional (coordinates self) a))).
  assert (ib = cb) as ->
    by (by eapply (corner_unique boundary_radius
                     (fractional (coordinates self) b))).
  assert (zip pool pool_at !! (i - length rest)%nat = Some (a, ca)) as Hza
    by (by rewrite lookup_zip_with, Hi, Hia).
  assert (zip pool pool_at !! (j - length rest)%nat = Some (b, cb)) as Hzb
    by (by rewrite lookup_zip_with, Hj, Hib).
  destruct (decide (i < j)%nat).
  - eapply (Hsafe _ _ a ca b cb); [|exact Hza|exact Hzb]. lia.
  - rewrite (apart_comm _ _ _ Hcons), <- apart_shift_swap.
    eapply (Hsafe _ _ b cb a ca); [|exact Hzb|exact Hza]. lia.
Qed.





(** ** The whole removal *)

Section Pipeline.

Context {rng : Type} (shuffle : rng → list atom → rng * list atom).

Hypothesis shuffle_perm : ∀ g arr, snd (shuffle g arr) ≡ₚ arr.

Lemma surface_pairs_loop_ok (boundary_radius : Qc)
    (min_dist_dict : gmap (string * string) Qc) (dir_vecs : list V3)
    (random_delete : bool) (g : rng) (self : Structure) :
  length (direct self) = length (cartesian self) →
  Mat.det (coordinates self) ≠ 0 →
  boundary_radius ≤ Num.half →
  ∃ self' g',
    surface_pairs_loop shuffle boundary_radius min_dist_dict dir_vecs
      random_delete g self = Some (Return tt, self', g')
    ∧ cartesian self' ⊆+ cartesian self
    ∧ coordinates self' = coordinates self
    ∧ length (direct self') = length (cartesian self')
    ∧ (reconciled self → reconciled self')
    ∧ (reconciled self → consistent_table min_dist_dict →
       Forall
         (λ dv, surface_pair_safe min_dist_dict (coordinates self)
                  boundary_radius dv (cartesian self'))
         dir_vecs)
    ∧ ∀ c, c ∈ cartesian self →
           (∀ b, b ∈ cartesian self →
              threshold min_dist_dict (element c) (element b) = None) →
           c ∈ cartesian self'.
Proof.
  intros Hlen Hdet Hr. revert g self Hlen Hdet.
  induction dir_vecs as [|dv dir_vecs IH]; intros g self Hlen Hdet.
  - exists self, g. cbn [surface_pairs_loop]. repeat split; try done.
  - destruct (surface_pair_pass_removes shuffle shuffle_perm boundary_radius
                min_dist_dict dv random_delete g self Hlen Hdet Hr)
      as (n & self1 & g1 & Hrun & Hsub1 & _ & _ & Hcoord1 & Hrec1 & _
          & Hkeep1).
    cbn [surface_pairs_loop]. rewrite Hrun. cbn [mbind option_bind].
    pose proof (Forall2_length _ _ _ Hrec1) as Hlen1. symmetry in Hlen1.
    destruct (IH g1 self1 Hlen1) as (self' & g' & -> & Hsub & Hcoord & Hlen'
                                     & Hrec & Hsafe & Hkeep);
      [by rewrite Hcoord1|].
    exists self', g'. split; [done|].
    split; [by etrans|]. split; [by rewrite Hcoord|]. split; [done|].
    split; [by intros _; apply Hrec|].
    split;
      [|intros c Hc Hfree; apply Hkeep; [by apply Hkeep1|];
        intros b Hb; apply Hfree; by eapply elem_of_submseteq].
    intros Hrec0 Hcons. constructor.
    + destruct (surface_pair_pass_safe shuffle shuffle_perm boundary_radius
                  min_dist_dict dv random_delete g self Hrec0 Hdet Hcons Hr)
        as (n2 & self2 & g2 & Hrun2 & Hsafe1).
      rewrite Hrun in Hrun2. injection Hrun2 as _ <- _.
      by eapply pairwise_submseteq.
    + rewrite <- Hcoord1. by apply Hsafe.
Qed.

(** The whole removal on a structure with as many direct as cartesian
    records, an invertible lattice and a radius of at most 1/2. *)
Lemma remove_collision_ok (boundary_radius : Qc)
    (min_dist_dict : gmap (string * string) Qc) (random_delete : bool)
    (g : rng) (self : Structure) :
  length (direct self) = length (cartesian self) →
  Mat.det (coordinates self) ≠ 0 →
  boundary_radius ≤ Num.half →
  ∃ n self' g',
    remove_collision shuffle boundary_radius min_dist_dict random_delete g
      self = Some (Return n, self', g')
    ∧ cartesian self' ⊆+ cartesian self
    ∧ n = (Z.of_nat (length (cartesian self))
           - Z.of_nat (length (cartesian self')))%Z
    ∧ coordinates self' = coordinates self
    ∧ reconciled self'
    ∧ (reconciled self → consistent_table min_dist_dict →
       interface_safe min_dist_dict (coordinates self) boundary_radius
         (cartesian self')
       ∧ Forall
           (λ dv, surface_pair_safe min_dist_dict (coordinates self)
                    boundary_radius dv (cartesian self'))
           [row0 Mat.identity; row1 Mat.identity; row2 Mat.identity]
       ∧ corners_safe min_dist_dict (coordinates self) boundary_radius
           (cartesian self'))
    ∧ ∀ c, c ∈ cartesian self →
           (∀ b, b ∈ cartesian self →
              threshold min_dist_dict (element c) (element b) = None) →
           c ∈ cartesian self'.
Proof.
  intros Hlen Hdet Hr. unfold remove_collision.
  destruct (interface_pass_removes shuffle shuffle_perm boundary_radius
              min_dist_dict random_delete g self Hlen Hdet)
    as (n1 & self1 & g1 & Hrun1 & Hsub1 & _ & _ & Hcoord1 & Hrec1 & _
        & Hkeep1).
  rewrite Hrun1. cbn [mbind option_bind].
  pose proof (Forall2_length _ _ _ Hrec1) as Hlen1. symmetry in Hlen1.
  assert (Mat.det (coordinates self1) ≠ 0) as Hdet1 by (by rewrite Hcoord1).
  destruct (surface_pairs_loop_ok boundary_radius min_dist_dict
              [row0 Mat.identity; row1 Mat.identity; row2 Mat.identity]
              random_delete g1 self1 Hlen1 Hdet1 Hr)
    as (self2 & g2 & -> & Hsub2 & Hcoord2 & Hlen2 & Hrec2 & Hsafe2 & Hkeep2).
  cbn [mbind option_bind].
  assert (Mat.det (coordinates self2) ≠ 0) as Hdet2 by (by rewrite Hcoord2).
  destruct (remove_collision_at_corners_ok boundary_radius min_dist_dict
              false self2 Hlen2 Hdet2)
    as (n3 & self3 & rest & pool & pool_at & Hrun3 & Hperm3 & _ & Hcoord3
        & Hrec3 & Hsub3 & _ & _ & _ & Hkeep3).
  rewrite Hrun3.
  assert (cartesian self3 ⊆+ cartesian self2) as Hsub32
    by (by rewrite Hperm3).
  exists (Z.of_nat (length (cartesian self))
          - Z.of_nat (length (cartesian self3)))%Z, self3, g2.
  split; [done|].
  split; [by etrans; [|etrans]|]. split; [done|].
  split; [by rewrite Hcoord3, Hcoord2|]. split; [done|].
  split;
    [|intros c Hc Hfree; apply Hkeep3;
      [apply Hkeep2; [by apply Hkeep1|];
       intros b Hb; apply Hfree; by eapply elem_of_submseteq|];
      intros b Hb; apply Hfree;
      eapply elem_of_submseteq; [|exact Hsub1];
      by eapply elem_of_submseteq].
  intros Hrec0 Hcons. split; [|split].
  - destruct (interface_pass_safe shuffle shuffle_perm boundary_radius
                min_dist_dict random_delete g self Hrec0 Hdet Hcons)
      as (n' & self' & g' & Hrun' & Hsafe').
    rewrite Hrun1 in Hrun'. injection Hrun' as _ <- _.
    eapply pairwise_submseteq; [|exact Hsafe']. by etrans.
  - rewrite <- Hcoord1. eapply Forall_impl; [by apply Hsafe2|].
    intros dv Hdv. by eapply pairwise_submseteq.
  - destruct (corner_pass_safe boundary_radius min_dist_dict false self2
                (Hrec2 Hrec1) Hdet2 Hcons Hr)
      as (n' & self' & Hrun' & Hsafe').
    rewrite Hrun3 in Hrun'. injection Hrun' as _ <-.
    by rewrite <- Hcoord1, <- Hcoord2.
Qed.




End Pipeline.




(** ** Transformations *)

Lemma dot_mat_dot (p : V3) (a b : M33) :
  Vec.dot (Vec.dot p a) b = Vec.dot p (mat_dot a b).
Proof.
  destruct p, a as [[] [] []], b as [[] [] []].
  unfold mat_dot, Vec.dot. cbn [vx vy vz row0 row1 row2]. f_equal; ring.
Qed.

Lemma mat_dot_assoc (a b c : M33) :
  mat_dot (mat_dot a b) c = mat_dot a (mat_dot b c).
Proof.
  unfold mat_dot at 1 2 3. cbn [row0 row1 row2]. by rewrite !dot_mat_dot.
Qed.

Lemma transpose_mat_dot (a b : M33) :
  transpose (mat_dot a b) = mat_dot (transpose b) (transpose a).
Proof.
  destruct a as [[] [] []], b as [[] [] []].
  unfold transpose, mat_dot, Vec.dot. cbn [vx vy vz row0 row1 row2].
  f_equal; f_equal; ring.
Qed.

Lemma det_mat_dot (a b : M33) :
  Mat.det (mat_dot a b) = Mat.det a * Mat.det b.
Proof.
  destruct a as [[] [] []], b as [[] [] []].
  unfold mat_dot, Vec.dot, Mat.det. cbn [vx vy vz row0 row1 row2]. ring.
Qed.

Lemma det_transpose (m : M33) : Mat.det (transpose m) = Mat.det m.
Proof.
  destruct m as [[] [] []].
  unfold transpose, Mat.det. cbn [vx vy vz row0 row1 row2]. ring.
Qed.

Lemma transform_eq (trans_mat : M33) (self : viewed) :
  transform trans_mat self
  = (Return tt,
     mkViewed
       (mkStructure (comment (structure_of self))
          (mat_dot (coordinates (structure_of self)) (transpose trans_mat))
          (sort_by_element (direct (structure_of self)))
          (map_position
             (λ p, Vec.dot p
                     (mat_dot (coordinates (structure_of self))
                        (transpose trans_mat)))
             (sort_by_element (direct (structure_of self)))))
       ((λ v, Vec.dot v (transpose trans_mat)) <$> view_agls self)).
Proof. unfold transform. by rewrite reconcile_D. Qed.

(** X25.  On a reconciled structure, [transform] returns and applies the
    linear map to the lattice vectors, to every cartesian position and
    to the viewing angles, while the direct positions stay as they are,
    sorted; the result is reconciled, and the determinant of its lattice
    is the product of the two determinants. *)
Theorem transform_moves_atoms (trans_mat : M33) (self : viewed) :
  reconciled (structure_of self) →
  ∃ self',
    transform trans_mat self = (Return tt, self')
    ∧ coordinates (structure_of self')
      = mat_dot (coordinates (structure_of self)) (transpose trans_mat)
    ∧ direct (structure_of self')
      = sort_by_element (direct (structure_of self))
    ∧ cartesian (structure_of self')
      ≡ₚ map_position (λ p, Vec.dot p (transpose trans_mat))
           (cartesian (structure_of self))
    ∧ view_agls self'
      = (λ v, Vec.dot v (transpose trans_mat)) <$> view_agls self
    ∧ reconciled (structure_of self')
    ∧ Mat.det (coordinates (structure_of self'))
      = Mat.det (coordinates (structure_of self)) * Mat.det trans_mat.
Proof.
  intros Hrec. rewrite transform_eq. eexists. split; [done|].
  cbn [structure_of view_agls coordinates direct cartesian].
  repeat split.
  - rewrite (reconciled_cartesian _ Hrec).
    rewrite map_position_compose.
    unfold sort_by_element. rewrite merge_sort_Permutation.
    erewrite map_position_ext; [done|].
    intros p. unfold compose. by rewrite dot_mat_dot.
  - apply reconciled_map_position.
  - by rewrite det_mat_dot, det_transpose.
Qed.

(** X26.  Transformations compose: transforming by [a] and then by [b]
    leaves the object in the state that one transformation by the matrix
    product of [b] and [a] gives. *)
Theorem transform_compose (a b : M33) (self : viewed) :
  transform b (snd (transform a self)) = transform (mat_dot b a) self.
Proof.
  rewrite !transform_eq. cbn [snd structure_of view_agls coordinates direct
                               cartesian comment].
  rewrite sort_by_element_idem, mat_dot_assoc, <- transpose_mat_dot.
  do 2 f_equal. rewrite <- list_fmap_compose. apply list_fmap_ext.
  intros _ v _. unfold compose.
  by rewrite dot_mat_dot, <- transpose_mat_dot.
Qed.

Lemma transform_moves_atoms_witness :
  ∃ self',
    transform (Mat.cube Num.two) (mkViewed two_atom_cell [mkV3 1 0 0])
    = (Return tt, self')
    ∧ coordinates (structure_of self')
      = mat_dot (coordinates two_atom_cell) (transpose (Mat.cube Num.two))
    ∧ direct (structure_of self') = sort_by_element (direct two_atom_cell)
    ∧ cartesian (structure_of self')
      ≡ₚ map_position (λ p, Vec.dot p (transpose (Mat.cube Num.two)))
           (cartesian two_atom_cell)
    ∧ view_agls self'
      = (λ v, Vec.dot v (transpose (Mat.cube Num.two))) <$> [mkV3 1 0 0]
    ∧ reconciled (structure_of self')
    ∧ Mat.det (coordinates (structure_of self'))
      = Mat.det (coordinates two_atom_cell) * Mat.det (Mat.cube Num.two).
Proof.
  apply (transform_moves_atoms (Mat.cube Num.two)
           (mkViewed two_atom_cell [mkV3 1 0 0])).
  apply reconciled_make_structure.
Defined.

(** ** The element lines of a VASP file *)

Local Abbreviation str_lt s t := (String.compare s t = Lt).
Local Abbreviation str_le s t := (String.compare s t ≠ Gt).
Local Abbreviation expand names counts :=
  (mjoin (zip_with (λ (name : string) (count : nat), replicate count name)
            names counts)).

Lemma expand_snoc (names : list string) (counts : list nat)
    (e : string) (k : nat) :
  length names = length counts →
  expand (names ++ [e]) (counts ++ [k]) = expand names counts ++ replicate k e.
Proof.
  intros Hlen. rewrite zip_with_app by done. cbn [zip_with].
  rewrite join_app. cbn. by rewrite app_nil_r.
Qed.

Lemma str_le_lt_trans (s1 s2 s3 : string) :
  str_lt s1 s2 → str_le s2 s3 → str_lt s1 s3.
Proof.
  intros H12 H23. destruct (String.compare s2 s3) eqn:H; [| |done].
  - apply String.compare_eq_iff in H. by subst.
  - by eapply string_compare_lt_trans.
Qed.

Lemma str_le_neq_lt (s1 s2 : string) : str_le s1 s2 → s2 ≠ s1 → str_lt s1 s2.
Proof.
  intros Hle Hne. destruct (String.compare s1 s2) eqn:H; [|done..].
  apply String.compare_eq_iff in H. by subst.
Qed.

(** The loop on a column that is sorted from the current run on. *)
Lemma header_loop (col : list string) (st : header) (e : string) (k : nat) :
  prev st = Some (e, k) →
  length (element_list st) = length (element_count st) →
  ∃ e' k',
    prev (foldl header_step st col) = Some (e', k')
    ∧ length (element_list (foldl header_step st col))
      = length (element_count (foldl header_step st col))
    ∧ expand (element_list (foldl header_step st col) ++ [e'])
        (element_count (foldl header_step st col) ++ [k'])
      = expand (element_list st ++ [e]) (element_count st ++ [k]) ++ col
    ∧ ((0 < k)%nat → Forall (λ c, (0 < c)%nat) (element_count st) →
       (0 < k')%nat
       ∧ Forall (λ c, (0 < c)%nat)
           (element_count (foldl header_step st col)))
    ∧ (StronglySorted (λ s t, str_le s t) (e :: col) →
       Forall (λ n, str_lt n e) (element_list st) →
       NoDup (element_list st) →
       Forall (λ n, str_lt n e') (element_list (foldl header_step st col))
       ∧ NoDup (element_list (foldl header_step st col))).
Proof.
  revert st e k. induction col as [|ele col IH]; intros st e k Hprev Hlen.
  - exists e, k. cbn [foldl]. rewrite app_nil_r. by repeat split.
  - cbn [foldl].
    assert (∃ st1 e1 k1,
              header_step st ele = st1 ∧ prev st1 = Some (e1, k1)
              ∧ length (element_list st1) = length (element_count st1)
              ∧ expand (element_list st1 ++ [e1]) (element_count st1 ++ [k1])
                = expand (element_list st ++ [e]) (element_count st ++ [k])
                  ++ [ele]
              ∧ ((0 < k)%nat → Forall (λ c, (0 < c)%nat) (element_count st) →
                 (0 < k1)%nat
                 ∧ Forall (λ c, (0 < c)%nat) (element_count st1))
              ∧ (StronglySorted (λ s t, str_le s t) (e :: ele :: col) →
                 Forall (λ n, str_lt n e) (element_list st) →
                 NoDup (element_list st) →
                 StronglySorted (λ s t, str_le s t) (e1 :: col)
                 ∧ Forall (λ n, str_lt n e1) (element_list st1)
                 ∧ NoDup (element_list st1)))
      as (st1 & e1 & k1 & -> & Hprev1 & Hlen1 & Hexp1 & Hpos1 & Hsort1).
    { unfold header_step. rewrite Hprev. case_bool_decide as Hne.
      - eexists _, ele, 1%nat. split; [done|]. cbn [prev element_list element_count].
        split; [done|]. split; [by rewrite !length_app, Hlen|].
        split; [rewrite (expand_snoc (_ ++ _) (_ ++ _))
                  by (by rewrite !length_app, Hlen); done|].
        split.
        + intros Hk Hall. split; [lia|]. apply Forall_app. split; [done|].
          by repeat constructor.
        + intros Hs Hlt Hnd. apply StronglySorted_inv in Hs as [Hs He].
          apply Forall_cons in He as [Hele _].
          pose proof (str_le_neq_lt _ _ Hele Hne) as Hlt'.
          split; [done|]. split.
          * apply Forall_app. split; [|by repeat constructor].
            eapply Forall_impl; [exact Hlt|]. intros n Hn.
            eapply string_compare_lt_trans; [exact Hn|done].
          * apply NoDup_app. split; [done|]. split; [|apply NoDup_singleton].
            intros n Hn ->%list_elem_of_singleton.
            rewrite Forall_forall in Hlt. specialize (Hlt _ Hn).
            by rewrite string_compare_refl in Hlt.
      - subst ele.
        eexists _, e, (S k). split; [done|]. cbn [prev element_list element_count].
        split; [done|]. split; [done|].
        split.
        + rewrite !expand_snoc by done. rewrite <- (assoc_L (++)). f_equal.
          cbn [replicate]. by rewrite <- replicate_cons_app.
        + split; [intros Hk Hall; split; [lia|done]|].
          intros Hs Hlt Hnd. split; [|done].
          apply StronglySorted_inv in Hs as [Hs _]. done. }
    destruct (IH _ e1 k1 Hprev1 Hlen1) as (e' & k' & Hprev' & Hlen' & Hexp'
                                          & Hpos' & Hsort').
    exists e', k'. split; [done|]. split; [done|].
    split; [by rewrite Hexp', Hexp1, <- (assoc_L (++))|].
    split.
    + intros Hk Hall. destruct (Hpos1 Hk Hall). by apply Hpos'.
    + intros Hs Hlt Hnd. destruct (Hsort1 Hs Hlt Hnd) as (? & ? & ?).
      by apply Hsort'.
Qed.

Lemma element_column_sorted (arr : list atom) :
  StronglySorted (λ s t, str_le s t) (element <$> sort_by_element arr).
Proof.
  assert (StronglySorted element_order (sort_by_element arr)) as Hs.
  { apply Sorted_StronglySorted; [apply _|].
    apply Sorted_merge_sort, _. }
  induction Hs as [|a l Hs IH Ha]; csimpl; constructor; [done|].
  apply Forall_fmap. eapply Forall_impl; [exact Ha|].
  intros b Hab. unfold element_order, element_leb in Hab. cbn.
  by destruct (String.compare (element a) (element b)).
Qed.

Lemma length_expand (names : list string) (counts : list nat) :
  length names = length counts →
  length (expand names counts) = sum_list counts.
Proof.
  revert counts. induction names as [|n names IH]; intros [|c counts] Hlen;
    try done.
  cbn [zip_with mjoin list_join sum_list sum_list_with].
  rewrite length_app, length_replicate, IH; [done|]. by injection Hlen.
Qed.

(** X28.  The element lines that [to_vasp] writes and the way
    [from_vasp] reads them are inverse to each other: on a structure with
    atoms, [to_vasp] sorts the direct records in place and lists every
    element once, with a positive count, the counts adding up to the
    number of atoms, and expanding the two lines as [from_vasp] does
    gives back the element column of the sorted records.  On a structure
    without atoms the join of the names raises [TypeError]. *)
Theorem to_vasp_header_round_trip (self : Structure) :
  (direct self = [] → fst (to_vasp_header self) = JoinTypeError)
  ∧ (direct self ≠ [] →
     ∃ names counts,
       to_vasp_header self
       = (HeaderLines names counts,
          set_direct (sort_by_element (direct self)) self)
       ∧ expand_elements names (Z.of_nat <$> counts)
         = Return (element <$> sort_by_element (direct self))
       ∧ NoDup names
       ∧ Forall (λ k, (0 < k)%nat) counts
       ∧ length names = length counts
       ∧ sum_list counts = length (direct self)).
Proof.
  split.
  - intros Hnil. unfold to_vasp_header, set_direct. cbn [direct].
    by rewrite Hnil.
  - intros Hne. unfold to_vasp_header, set_direct. cbn [direct].
    pose proof (element_column_sorted (direct self)) as Hsorted.
    assert (length (sort_by_element (direct self)) = length (direct self))
      as Hlen by apply Permutation_length, merge_sort_Permutation.
    destruct (sort_by_element (direct self)) as [|a sorted] eqn:Hsort.
    { destruct (direct self); [done|]. cbn in Hlen. lia. }
    rewrite fmap_cons in *. cbn [foldl].
    change (header_step (mkHeader [] [] None) (element a))
      with (mkHeader [] [] (Some (element a, 1%nat))).
    destruct (header_loop (element <$> sorted)
                (mkHeader [] [] (Some (element a, 1%nat))) (element a) 1%nat
                eq_refl eq_refl)
      as (e' & k' & Hprev & Hlen' & Hexp & Hpos & Hnd).
    rewrite Hprev. eexists _, _. split; [done|].
    cbn [element_list element_count] in *.
    destruct Hpos as [Hk' Hcounts]; [lia|done|].
    destruct (Hnd Hsorted) as [Hlt Hnodup]; [done|constructor|].
    assert (length (element_list (foldl header_step
                      (mkHeader [] [] (Some (element a, 1%nat)))
                      (element <$> sorted)) ++ [e'])
            = length (element_count (foldl header_step
                        (mkHeader [] [] (Some (element a, 1%nat)))
                        (element <$> sorted)) ++ [k'])) as Hlen2
      by (by rewrite !length_app, Hlen').
    split; [|split; [|split; [|split]]].
    + unfold expand_elements.
      rewrite bool_decide_eq_false_2 by (rewrite length_fmap; by intros ?).
      f_equal. rewrite zip_with_fmap_r.
      erewrite zip_with_ext; [|intros; by rewrite Nat2Z.id|done|done].
      rewrite Hexp. cbn. done.
    + apply NoDup_app. split; [done|]. split; [|apply NoDup_singleton].
      intros n Hn ->%list_elem_of_singleton.
      rewrite Forall_forall in Hlt. specialize (Hlt _ Hn).
      by rewrite string_compare_refl in Hlt.
    + apply Forall_app. split; [done|]. by repeat constructor.
    + done.
    + pose proof (length_expand _ _ Hlen2) as Hsum.
      rewrite <- Hsum, Hexp. cbn.
      rewrite length_fmap. cbn in Hlen. lia.
Qed.

(** ** The collision settings of a configuration *)

Lemma min_atom_dist_loop_lookup (entries : list (string * string * Qc))
    (table : gmap (string * string) Qc) (a b : string) (d : Qc) :
  min_atom_dist_loop entries table !! (a, b) = Some d →
  (a, b, d) ∈ entries ∨ table !! (a, b) = Some d.
Proof.
  unfold min_atom_dist_loop. revert table.
  induction entries as [|[[a1 a2] dist] entries IH]; intros table; cbn [foldl];
    [by right|].
  intros [Hin | Hins]%IH; [left; by right|].
  apply lookup_insert_Some in Hins as [[[= -> ->] ->] | [_ Hold]];
    [left; left|by right].
Qed.

Lemma min_atom_dist_loop_nonempty (entries : list (string * string * Qc))
    (table : gmap (string * string) Qc) :
  entries ≠ [] ∨ table ≠ ∅ → min_atom_dist_loop entries table ≠ ∅.
Proof.
  unfold min_atom_dist_loop. revert table.
  induction entries as [|[[a1 a2] dist] entries IH]; intros table; cbn [foldl].
  - by intros [|].
  - intros _. apply IH. right. apply insert_non_empty.
Qed.

(** X29.  The collision settings read from a configuration file.  With
    ['gb_settings'] missing, both stay at their defaults whatever the
    file says.  Otherwise an empty ['min_atom_dist'] list switches the
    removal off even when the file asks for it, and a list with entries
    leaves the switch as the file has it, false when it has none; every
    threshold of the table is that of an entry; and when no two entries
    give different distances to the same two elements in opposite
    orders, the table never answers differently for the two orders of a
    pair. *)
Theorem parse_collision_settings_table
    (skip_key : option bool) (entries : list (string * string * Qc)) :
  parse_collision_settings false skip_key (Some entries)
  = default_collision_settings
  ∧ (entries = [] →
     skip_collision_removal
       (parse_collision_settings true skip_key (Some entries)) = true)
  ∧ (entries ≠ [] →
     skip_collision_removal
       (parse_collision_settings true skip_key (Some entries))
     = default false skip_key)
  ∧ (∀ a b d,
       min_atom_dist (parse_collision_settings true skip_key (Some entries))
         !! (a, b) = Some d →
       (a, b, d) ∈ entries)
  ∧ ((∀ a b d d', (a, b, d) ∈ entries → (b, a, d') ∈ entries → d = d') →
     consistent_table
       (min_atom_dist (parse_collision_settings true skip_key (Some entries)))).
Proof.
  assert (min_atom_dist (parse_collision_settings true skip_key (Some entries))
          = min_atom_dist_loop entries ∅) as Htable.
  { unfold parse_collision_settings. cbn [negb].
    destruct skip_key; cbn [min_atom_dist default_collision_settings];
      by case_bool_decide. }
  split; [done|]. split; [|split; [|split]].
  - intros ->. unfold parse_collision_settings. cbn [negb].
    by destruct skip_key.
  - intros Hne. unfold parse_collision_settings. cbn [negb].
    assert (min_atom_dist_loop entries ∅ ≠ ∅) as Hnon
      by (apply min_atom_dist_loop_nonempty; by left).
    destruct skip_key; cbn [min_atom_dist default_collision_settings default
                             skip_collision_removal];
      (case_bool_decide as Hsize; [|done]);
      exfalso; apply Hnon, map_to_list_empty_iff;
      rewrite length_fmap in Hsize;
      apply nil_length_inv; lia.
  - intros a b d. rewrite Htable. intros [H | H]%min_atom_dist_loop_lookup;
      [done|by rewrite lookup_empty in H].
  - intros Hsame a b d1 d2. rewrite Htable.
    intros [H1 | H1]%min_atom_dist_loop_lookup
           [H2 | H2]%min_atom_dist_loop_lookup;
      try (by rewrite lookup_empty in H1); try (by rewrite lookup_empty in H2).
    by eapply Hsame.
Qed.
